(** * dino_pipeline: DICOM series to NIfTI volume (utils/dicom_to_nii.py)

    A shallow embedding of the conversion core of [dicom_to_nii.py]:
    the series loader ([load_dicom_series]), the volume reconstructor
    ([create_affine]) and the coordinate normalizer ([convert_coords]).

    Numbers.  The source computes in binary64.  Array entries are modelled
    here as real numbers ([R]): every arithmetic operation of the source is
    the exact operation, rounding error, infinities and NaN are not
    modelled: a statement proved here about the geometry is a statement
    in exact arithmetic.  The statement of the source that only makes
    sense for signed zeros ([mat[mat == 0.0] = 0.0]) is in addition
    modelled on binary64 itself (module [Binary64]), and so are the
    matrix part of [convert_coords] and the normalisation of a direction,
    to show where binary64 departs from the real numbers.

    Around the core: file discovery ([find_dicom_files], module [Finder]),
    volume assembly ([dicom_to_volume], module [Assembler]), the conversion
    of a list of series ([write_nifti], [dicom_to_nifti], module
    [Pipeline]) and the dataset list ([save_nifti_to_json], module
    [Manifest]).  The file system, [pydicom.dcmread], the attributes of a
    dataset, the rounding to [float32], the failures of [nib.save] and of
    [open] and [random.shuffle] are parameters of these models; the
    product [len(files) * train_split] is computed on binary64. *)

From Stdlib Require Import Ascii String Reals Lra Lia ZArith Bool List Permutation Sorted.
From Stdlib Require PrimFloat.
From Stdlib Require FloatOps SpecFloat Uint63.
Import ListNotations.

Open Scope R_scope.

(** ** Small vectors and the 4x4 matrix *)

Record vec3 := V3 { vx : R; vy : R; vz : R }.

Record vec4 := V4 { x0 : R; x1 : R; x2 : R; x3 : R }.

(** A 4x4 array, row-major as numpy stores it: [row0] is [mat[0,:]]. *)
Record mat4 := M4 { row0 : vec4; row1 : vec4; row2 : vec4; row3 : vec4 }.

Definition nth4 (v : vec4) (i : nat) : R :=
  match i with
  | 0%nat => x0 v
  | 1%nat => x1 v
  | 2%nat => x2 v
  | _ => x3 v
  end.

Definition set4 (v : vec4) (i : nat) (a : R) : vec4 :=
  match i with
  | 0%nat => V4 a (x1 v) (x2 v) (x3 v)
  | 1%nat => V4 (x0 v) a (x2 v) (x3 v)
  | 2%nat => V4 (x0 v) (x1 v) a (x3 v)
  | _ => V4 (x0 v) (x1 v) (x2 v) a
  end.

Definition to_list4 (v : vec4) : list R := [x0 v; x1 v; x2 v; x3 v].

Definition row (m : mat4) (i : nat) : vec4 :=
  match i with
  | 0%nat => row0 m
  | 1%nat => row1 m
  | 2%nat => row2 m
  | _ => row3 m
  end.

(** [mat[i,j]] *)
Definition entry (m : mat4) (i j : nat) : R := nth4 (row m i) j.

(** [mat[:,j]] *)
Definition col (m : mat4) (j : nat) : vec4 :=
  V4 (nth4 (row0 m) j) (nth4 (row1 m) j) (nth4 (row2 m) j) (nth4 (row3 m) j).

(** [mat[:,j] = v] *)
Definition set_col (m : mat4) (j : nat) (v : vec4) : mat4 :=
  M4 (set4 (row0 m) j (x0 v)) (set4 (row1 m) j (x1 v))
     (set4 (row2 m) j (x2 v)) (set4 (row3 m) j (x3 v)).

Definition vadd4 (a b : vec4) : vec4 :=
  V4 (x0 a + x0 b) (x1 a + x1 b) (x2 a + x2 b) (x3 a + x3 b).

Definition vscale4 (a : vec4) (k : R) : vec4 :=
  V4 (x0 a * k) (x1 a * k) (x2 a * k) (x3 a * k).

Definition vopp4 (a : vec4) : vec4 :=
  V4 (- x0 a) (- x1 a) (- x2 a) (- x3 a).

Definition vabs4 (a : vec4) : vec4 :=
  V4 (Rabs (x0 a)) (Rabs (x1 a)) (Rabs (x2 a)) (Rabs (x3 a)).

Definition dot4 (a b : vec4) : R :=
  x0 a * x0 b + x1 a * x1 b + x2 a * x2 b + x3 a * x3 b.

(** [np.dot(m, v)] for a 4-vector *)
Definition mat_vec (m : mat4) (v : vec4) : vec4 :=
  V4 (dot4 (row0 m) v) (dot4 (row1 m) v) (dot4 (row2 m) v) (dot4 (row3 m) v).

(** [np.dot(a, b)] for two 4x4 arrays *)
Definition matmul (a b : mat4) : mat4 :=
  let r (u : vec4) :=
    V4 (dot4 u (col b 0)) (dot4 u (col b 1)) (dot4 u (col b 2)) (dot4 u (col b 3)) in
  M4 (r (row0 a)) (r (row1 a)) (r (row2 a)) (r (row3 a)).

(** [np.eye(4)] *)
Definition eye4 : mat4 :=
  M4 (V4 1 0 0 0) (V4 0 1 0 0) (V4 0 0 1 0) (V4 0 0 0 1).

(** [np.argmax]: the index of the first occurrence of the maximum. *)
Fixpoint argmax_from (l : list R) (i : nat) (best : R) (besti : nat) : nat :=
  match l with
  | [] => besti
  | x :: t =>
      if Rlt_dec best x then argmax_from t (S i) x i
      else argmax_from t (S i) best besti
  end.

Definition argmax (l : list R) : nat :=
  match l with
  | [] => 0%nat
  | x :: t => argmax_from t 1 x 0
  end.

(** ** The voxel array *)

(** A 3-D array indexed [vol[slice, row, column]]; [shape] is the array's
    own [shape] attribute. *)
Record volume := Volume {
  shape : nat * nat * nat;
  voxels : list (list (list R))
}.

Definition shape1 (vol : volume) : nat := snd (fst (shape vol)).
Definition shape2 (vol : volume) : nat := snd (shape vol).

(** [np.flip(vol, 2)]: reverse every row of every slice. *)
Definition flip2 (vol : volume) : volume :=
  Volume (shape vol) (map (map (@rev R)) (voxels vol)).

(** [np.flip(vol, 1)]: reverse the order of the rows of every slice. *)
Definition flip1 (vol : volume) : volume :=
  Volume (shape vol) (map (@rev (list R)) (voxels vol)).

(** [vol[k, j, i]], [None] when an index is out of range. *)
Definition voxel (vol : volume) (k j i : nat) : option R :=
  match nth_error (voxels vol) k with
  | None => None
  | Some slice =>
      match nth_error slice j with
      | None => None
      | Some r => nth_error r i
      end
  end.

(** The nested data has the extents the [shape] attribute announces. *)
Definition well_shaped (vol : volume) : Prop :=
  let '(n, h, w) := shape vol in
  length (voxels vol) = n /\
  Forall (fun slice => length slice = h /\ Forall (fun r => length r = w) slice)
         (voxels vol).

(** All voxel values, in storage order. *)
Definition flat (vol : volume) : list R := concat (concat (voxels vol)).

(** The physical point the affine assigns to the voxel at column [i],
    row [j], slice [k]: [mat . (i, j, k, 1)]. *)
Definition physical (mat : mat4) (i j k : nat) : vec4 :=
  mat_vec mat (V4 (INR i) (INR j) (INR k) 1).

(** The position an index has after its axis of extent [n] is reversed. *)
Definition mirror (n i : nat) : nat := (n - 1 - i)%nat.

(** ** Coordinate normalizer: [convert_coords] *)

Module Normalizer.

(** [convmat = np.eye(4); convmat[0,0] = -1.0; convmat[1,1] = -1.0] *)
Definition convmat : mat4 :=
  M4 (set4 (row0 eye4) 0 (-1)) (set4 (row1 eye4) 1 (-1)) (row2 eye4) (row3 eye4).

(** [vol.shape[a] - 1], an integer that is [-1] for an empty axis. *)
Definition extent_minus_1 (n : nat) : R := IZR (Z.of_nat n - 1).

(** The body of [if mat[xmaxi,0] < 0.0:] *)
Definition flip_x (s : volume * mat4) : volume * mat4 :=
  let '(vol, mat) := s in
  let vol := flip2 vol in
  let mat := set_col mat 3 (vadd4 (col mat 3) (vscale4 (col mat 0) (extent_minus_1 (shape2 vol)))) in
  let mat := set_col mat 0 (vopp4 (col mat 0)) in
  (vol, mat).

(** The body of [if mat[ymaxi,1] < 0.0:] *)
Definition flip_y (s : volume * mat4) : volume * mat4 :=
  let '(vol, mat) := s in
  let vol := flip1 vol in
  let mat := set_col mat 3 (vadd4 (col mat 3) (vscale4 (col mat 1) (extent_minus_1 (shape1 vol)))) in
  let mat := set_col mat 1 (vopp4 (col mat 1)) in
  (vol, mat).

(** [xmaxi = np.argmax(np.abs(mat[:,0]))] *)
Definition xmaxi_of (mat : mat4) : nat := argmax (to_list4 (vabs4 (col mat 0))).

(** [yabs = np.abs(mat[:,1]); yabs[xmaxi] = 0.0; ymaxi = np.argmax(yabs)] *)
Definition ymaxi_of (mat : mat4) : nat :=
  argmax (to_list4 (set4 (vabs4 (col mat 1)) (xmaxi_of mat) 0)).

(** [mat[mat == 0.0] = 0.0]; on real numbers there is one zero. *)
Definition zero_fix (a : R) : R := if Req_dec_T a 0 then 0 else a.

Definition zero_fix4 (v : vec4) : vec4 :=
  V4 (zero_fix (x0 v)) (zero_fix (x1 v)) (zero_fix (x2 v)) (zero_fix (x3 v)).

Definition eliminate_negative_zero (m : mat4) : mat4 :=
  M4 (zero_fix4 (row0 m)) (zero_fix4 (row1 m)) (zero_fix4 (row2 m)) (zero_fix4 (row3 m)).

(** The in-place conversion; the mutated pair is returned. *)
Definition convert_coords (vol : volume) (mat : mat4) : volume * mat4 :=
  let mat := matmul convmat mat in
  let xmaxi := xmaxi_of mat in
  let ymaxi := ymaxi_of mat in
  let s := (vol, mat) in
  let s := if Rlt_dec (entry (snd s) xmaxi 0) 0 then flip_x s else s in
  let s := if Rlt_dec (entry (snd s) ymaxi 1) 0 then flip_y s else s in
  (fst s, eliminate_negative_zero (snd s)).

End Normalizer.

(** The line feed that ends every message the source writes to stderr. *)
Definition newline : string := String "010"%char EmptyString.

(** ** Outcomes of a call: a value or a Python exception *)

Inductive exn : Type :=
  | IndexError
  | InvalidDicomError
  | TypeError.

Inductive result (A : Type) : Type :=
  | Ok (a : A)
  | Raise (e : exn).

Arguments Ok {A} a.
Arguments Raise {A} e.

(** ** Volume reconstructor: [create_affine] *)

Module Reconstructor.

(** The threshold [1e-6] of the source. *)
Definition tol : R := 1e-6.

(** One entry of [a[(np.abs(a) < 1e-6)] = 0.0]. *)
Definition snap (a : R) : R := if Rlt_dec (Rabs a) tol then 0 else a.

Definition snap3 (v : vec3) : vec3 := V3 (snap (vx v)) (snap (vy v)) (snap (vz v)).

(** [np.rint]: the nearest integer, ties to the even one. *)
Definition rint (a : R) : Z :=
  let f := Int_part a in
  let d := a - IZR f in
  if Rlt_dec d (1/2) then f
  else if Rlt_dec (1/2) d then (f + 1)%Z
  else if Z.even f then f else (f + 1)%Z.

(** [np.round(a, 7)]: scale by [10**7], [rint], scale back. *)
Definition round7 (a : R) : R := IZR (rint (a * 1e7)) / 1e7.

(** [np.sqrt(np.sum(np.square(v)))] *)
Definition norm3 (v : vec3) : R := sqrt (vx v * vx v + vy v * vy v + vz v * vz v).

Definition vscale3 (v : vec3) (k : R) : vec3 := V3 (vx v * k) (vy v * k) (vz v * k).

Definition vdiv3 (v : vec3) (k : R) : vec3 := V3 (vx v / k) (vy v / k) (vz v / k).

(** [np.dot] and [np.cross] on 3-vectors *)
Definition dot3 (a b : vec3) : R := vx a * vx b + vy a * vy b + vz a * vz b.

Definition cross (a b : vec3) : vec3 :=
  V3 (vy a * vz b - vz a * vy b) (vz a * vx b - vx a * vz b) (vx a * vy b - vy a * vx b).

(** [np.sign] *)
Definition sign (a : R) : R :=
  if Rlt_dec a 0 then -1 else if Rlt_dec 0 a then 1 else 0.

(** Sum of [f i y] over the entries [y] of a column, [i] the slice index. *)
Fixpoint sum_idx (f : nat -> R -> R) (i : nat) (ys : list R) : R :=
  match ys with
  | [] => 0
  | y :: t => f i y + sum_idx f (S i) t
  end.

(** [np.linalg.lstsq(A, b)] for [A = column_stack([arange(n), ones(n)])] and
    one column [ys] of [b], by the contract of the library routine: the
    least-squares solution [(slope, intercept)], which is unique for
    [n >= 2] (normal equations); for [n = 1] the matrix [A = [[0, 1]]] has
    rank 1 and the routine returns the solution of minimum norm, slope [0]. *)
Definition lstsq_line (ys : list R) : R * R :=
  match ys with
  | [] => (0, 0)
  | [y] => (0, y)
  | _ =>
      let n := INR (length ys) in
      let sx := sum_idx (fun i _ => INR i) 0 ys in
      let sxx := sum_idx (fun i _ => INR i * INR i) 0 ys in
      let sy := sum_idx (fun _ y => y) 0 ys in
      let sxy := sum_idx (fun i y => INR i * y) 0 ys in
      let slope := (n * sxy - sx * sy) / (n * sxx - sx * sx) in
      (slope, (sy - slope * sx) / n)
  end.

(** The 2x3 solution [x]: row 0 the slopes, row 1 the intercepts. *)
Definition lstsq (ipp : list vec3) : vec3 * vec3 :=
  let fx := lstsq_line (map vx ipp) in
  let fy := lstsq_line (map vy ipp) in
  let fz := lstsq_line (map vz ipp) in
  (V3 (fst fx) (fst fy) (fst fz), V3 (snd fx) (snd fy) (snd fz)).

(** One row of the Nx6 orientation array: [row[0:3]] and [row[3:6]]. *)
Record iop_row := IOP { iop_u : vec3; iop_v : vec3 }.

Definition sum_list (l : list R) : R := fold_right Rplus 0 l.

(** [np.mean(a, axis=0)] on the three columns of an Nx3 block *)
Definition mean3 (l : list vec3) : vec3 :=
  let n := INR (length l) in
  V3 (sum_list (map vx l) / n) (sum_list (map vy l) / n) (sum_list (map vz l) / n).

(** [np.sum(np.abs(ps - spacing[0:2]))] *)
Definition spacing_deviation (ps : list (R * R)) (s : R * R) : R :=
  sum_list (map (fun p => Rabs (fst p - fst s) + Rabs (snd p - snd s)) ps).

(** [mat[0:3,j] = v] *)
Definition set_col3 (m : mat4) (j : nat) (v : vec3) : mat4 :=
  M4 (set4 (row0 m) j (vx v)) (set4 (row1 m) j (vy v)) (set4 (row2 m) j (vz v)) (row3 m).

Definition warn_spacing : string := ("Pixel spacing is inconsistent!" ++ newline)%string.
Definition warn_orthogonal : string := ("Non-orthogonal volume!" ++ newline)%string.

(** The intermediate values of [create_affine], named as in the source. *)
Definition fit_vec (ipp : list vec3) : vec3 := snap3 (fst (lstsq ipp)).
Definition fit_pos (ipp : list vec3) : vec3 := snap3 (snd (lstsq ipp)).

(** [u /= np.sqrt(np.sum(np.square(u)))] and the snapping of [u].  On an
    averaged direction that is the zero vector the source divides zero
    by zero and has NaN in [u]; the real numbers have no such value, and
    the definition is the source's [u] for every other input. *)
Definition unit_u (iop : list iop_row) : vec3 :=
  let u := mean3 (map iop_u iop) in
  snap3 (vdiv3 u (norm3 u)).

Definition unit_v (iop : list iop_row) : vec3 :=
  let v := mean3 (map iop_v iop) in
  snap3 (vdiv3 v (norm3 v)).

Definition slice_spacing (ipp : list vec3) : R := round7 (norm3 (fit_vec ipp)).

Definition handedness (ipp : list vec3) (iop : list iop_row) : R :=
  dot3 (fit_vec ipp) (cross (unit_u iop) (unit_v iop)).

(** [create_affine(ipp, iop, ps)]: the matrix, the pixdim and what was
    written to stderr, or the [IndexError] of [ps[0,:]] on an empty [ps]. *)
Definition create_affine (ipp : list vec3) (iop : list iop_row) (ps : list (R * R))
  : result (mat4 * vec4 * list string) :=
  let vec := fit_vec ipp in
  let pos := fit_pos ipp in
  match ps with
  | [] => Raise IndexError
  | ps0 :: _ =>
      let spacing0 := fst ps0 in
      let spacing1 := snd ps0 in
      let log1 :=
        if Rlt_dec (spacing0 * tol) (spacing_deviation ps ps0)
        then [warn_spacing] else [] in
      let spacing2 := round7 (norm3 vec) in
      let u := unit_u iop in
      let v := unit_v iop in
      let mat := eye4 in
      let mat := set_col3 mat 0 (vscale3 u spacing0) in
      let mat := set_col3 mat 1 (vscale3 v spacing1) in
      let mat := set_col3 mat 2 vec in
      let mat := set_col3 mat 3 pos in
      let dv := dot3 vec (cross u v) in
      let qfac := sign dv in
      let log2 :=
        if Rlt_dec tol (Rabs (qfac * dv - spacing2))
        then [warn_orthogonal] else [] in
      Ok (mat, V4 qfac spacing0 spacing1 spacing2, log1 ++ log2)
  end.

(** A series of [n] slices at [p0, p0 + d, p0 + 2d, ...]. *)
Definition regular_series (p0 d : vec3) (n : nat) : list vec3 :=
  map (fun i => V3 (vx p0 + INR i * vx d) (vy p0 + INR i * vy d) (vz p0 + INR i * vz d))
      (seq 0 n).

(** Squared residual of the line [a*i + b] on a column. *)
Definition sq_residual (a b : R) (ys : list R) : R :=
  sum_idx (fun i y => (a * INR i + b - y) * (a * INR i + b - y)) 0 ys.

End Reconstructor.

(** ** Series loader: [load_dicom_series] *)

Module Loader.

(** What [int(ds.InstanceNumber)] evaluates to inside the [try]: a number,
    an [AttributeError] (no such attribute), a [ValueError] (a value that
    is not an integer literal), or the [TypeError] of [int(None)] for an
    attribute that is present and has no value. *)
Inductive instance_number : Type :=
  | Number (i : Z)
  | Missing
  | Unparseable
  | Empty.

Section Series.

Variable filename : Type.
Variable dataset : Type.

(** [pydicom.dcmread]: a dataset, or the exception it raises. *)
Variable dcmread : filename -> result dataset.
Variable InstanceNumber : dataset -> instance_number.

(** The [try ... except (AttributeError, ValueError): i = -1] block; the
    [TypeError] is not among the exceptions it catches. *)
Definition sort_key (ds : dataset) : result Z :=
  match InstanceNumber ds with
  | Number i => Ok i
  | Missing => Ok (-1)%Z
  | Unparseable => Ok (-1)%Z
  | Empty => Raise TypeError
  end.

(** The dataset has sort key [k]. *)
Definition has_key (k : Z) (ds : dataset) : bool :=
  match sort_key ds with
  | Ok i => (i =? k)%Z
  | Raise _ => false
  end.

(** The loop [for f in files: ... dataset_list.append((i, ds))]. *)
Fixpoint read_all (files : list filename) : result (list (Z * dataset)) :=
  match files with
  | [] => Ok []
  | f :: rest =>
      match dcmread f with
      | Raise e => Raise e
      | Ok ds =>
          match sort_key ds with
          | Raise e => Raise e
          | Ok i =>
              match read_all rest with
              | Raise e => Raise e
              | Ok l => Ok ((i, ds) :: l)
              end
          end
      end
  end.

(** [list.sort(key=lambda t: t[0])] is a stable ascending sort; a stable
    sort has one possible result ([sort_by_key_unique] below), computed
    here by insertion. *)
Fixpoint insert_by_key (t : Z * dataset) (l : list (Z * dataset)) : list (Z * dataset) :=
  match l with
  | [] => [t]
  | h :: r => if (fst t <=? fst h)%Z then t :: h :: r else h :: insert_by_key t r
  end.

Definition sort_by_key (l : list (Z * dataset)) : list (Z * dataset) :=
  fold_right insert_by_key [] l.

Definition load_dicom_series (files : list filename) : result (list dataset) :=
  match read_all files with
  | Raise e => Raise e
  | Ok dataset_list => Ok (map snd (sort_by_key dataset_list))
  end.

(** How the part of [dicom_to_nifti] around the loader ends: with a message
    on stderr and [return], or with a series handed to [dicom_to_volume]. *)
Inductive loaded : Type :=
  | Stopped (message : string)
  | Proceeds (series : list dataset).

Definition no_files_message : string := ("No DICOM files found." ++ newline)%string.
Definition unreadable_message : string := ("Unable to read DICOM files." ++ newline)%string.

(** The statements of the loop body of [dicom_to_nifti] from
    [if not files:] to [if not series: ... return] (lines 259-268), given
    the list [find_dicom_files] returned.  The path lookup that precedes
    them in the loop is part of [Pipeline.convert_each]. *)
Definition dicom_to_nifti_load (files : list filename) : result loaded :=
  match files with
  | [] => Ok (Stopped no_files_message)
  | _ =>
      match load_dicom_series files with
      | Raise e => Raise e
      | Ok [] => Ok (Stopped unreadable_message)
      | Ok series => Ok (Proceeds series)
      end
  end.

End Series.

Arguments sort_key {dataset} InstanceNumber ds.
Arguments has_key {dataset} InstanceNumber k ds.
Arguments read_all {filename dataset} dcmread InstanceNumber files.
Arguments insert_by_key {dataset} t l.
Arguments sort_by_key {dataset} l.
Arguments load_dicom_series {filename dataset} dcmread InstanceNumber files.
Arguments Stopped {dataset} message.
Arguments Proceeds {dataset} series.
Arguments dicom_to_nifti_load {filename dataset} dcmread InstanceNumber files.

End Loader.

(** ** [create_affine] on a store of array buffers

    numpy arrays are views on data buffers and the source updates some of
    them in place ([x[...] = 0.0], [u /= ...]); this model keeps the buffers
    in a store and the arrays as strided views, so that what an in-place
    update reaches is decided by the aliasing of the source. *)

Module Heap.

Definition buffer := list R.

Record state := State { bufs : list buffer; stderr : list string }.

(** A 1-D strided view: [count] entries of buffer [base], the k-th at
    [offset + k * stride]. *)
Record view := View { base : nat; offset : nat; stride : nat; count : nat }.

Definition M (A : Type) : Type := state -> result A * state.

Definition ret {A : Type} (a : A) : M A := fun s => (Ok a, s).

Definition bind {A B : Type} (m : M A) (k : A -> M B) : M B :=
  fun s =>
    match m s with
    | (Ok a, s') => k a s'
    | (Raise e, s') => (Raise e, s')
    end.

Definition raise {A : Type} (e : exn) : M A := fun s => (Raise e, s).

Notation "x <- m ;; k" := (bind m (fun x => k))
  (at level 61, m at next level, right associativity).
Notation "m ;;; k" := (bind m (fun _ => k))
  (at level 61, right associativity).

Fixpoint update {A : Type} (l : list A) (i : nat) (a : A) : list A :=
  match l, i with
  | [], _ => []
  | _ :: t, O => a :: t
  | h :: t, S j => h :: update t j a
  end.

(** A new array: its buffer is appended to the store. *)
Definition alloc (b : buffer) : M nat :=
  fun s => (Ok (length (bufs s)), State (bufs s ++ [b]) (stderr s)).

Definition index (v : view) (k : nat) : nat := (offset v + k * stride v)%nat.

Definition peek (s : state) (v : view) : list R :=
  map (fun k => nth (index v k) (nth (base v) (bufs s) []) 0) (seq 0 (count v)).

Definition read (v : view) : M (list R) := fun s => (Ok (peek s v), s).

Fixpoint poke_all (b : buffer) (v : view) (k : nat) (vals : list R) : buffer :=
  match vals with
  | [] => b
  | a :: t => poke_all (update b (index v k) a) v (S k) t
  end.

(** Assignment through a view: it lands in the buffer the view is on. *)
Definition write (v : view) (vals : list R) : M unit :=
  fun s =>
    (Ok tt,
     State (update (bufs s) (base v)
              (poke_all (nth (base v) (bufs s) []) v 0 (firstn (count v) vals)))
           (stderr s)).

(** [sys.stderr.write] *)
Definition warn (msg : string) : M unit :=
  fun s => (Ok tt, State (bufs s) (stderr s ++ [msg])).

Definition list3 (v : vec3) : list R := [vx v; vy v; vz v].

Definition vec3_of (l : list R) : vec3 := V3 (nth 0 l 0) (nth 1 l 0) (nth 2 l 0).

Definition list4 (v : vec4) : list R := [x0 v; x1 v; x2 v; x3 v].

Definition list16 (m : mat4) : list R :=
  list4 (row0 m) ++ list4 (row1 m) ++ list4 (row2 m) ++ list4 (row3 m).

(** The rows of a C-ordered Nx3, Nx6 and Nx2 array. *)
Fixpoint rows3 (l : list R) : list vec3 :=
  match l with
  | a :: b :: c :: t => V3 a b c :: rows3 t
  | _ => []
  end.

Fixpoint rows6 (l : list R) : list Reconstructor.iop_row :=
  match l with
  | a :: b :: c :: d :: e :: f :: t =>
      Reconstructor.IOP (V3 a b c) (V3 d e f) :: rows6 t
  | _ => []
  end.

Fixpoint rows2 (l : list R) : list (R * R) :=
  match l with
  | a :: b :: t => (a, b) :: rows2 t
  | _ => []
  end.

Import Reconstructor.

(** [create_affine] statement by statement; the result is the pair of
    views [(mat, pixdim)]. *)
Definition create_affine (ipp iop ps : view) : M (view * view) :=
  ippb <- read ipp ;;
  (* x, r, rank, s = np.linalg.lstsq(A, ipp, rcond=None) *)
  lx <- alloc (list3 (fst (lstsq (rows3 ippb))) ++ list3 (snd (lstsq (rows3 ippb)))) ;;
  let x := View lx 0 1 6 in
  (* x[(np.abs(x) < 1e-6)] = 0.0 *)
  xb <- read x ;;
  write x (map snap xb) ;;;
  let vec := View lx 0 1 3 in
  let pos := View lx 3 1 3 in
  (* spacing = np.ones(3); spacing[0:2] = ps[0,:] *)
  lsp <- alloc [1; 1; 1] ;;
  let spacing := View lsp 0 1 3 in
  psb <- read ps ;;
  match rows2 psb with
  | [] => raise IndexError
  | ps0 :: _ =>
      write (View lsp 0 1 2) [fst ps0; snd ps0] ;;;
      sp <- read spacing ;;
      (if Rlt_dec (nth 0 sp 0 * tol)
            (spacing_deviation (rows2 psb) (nth 0 sp 0, nth 1 sp 0))
       then warn warn_spacing else ret tt) ;;;
      (* spacing[2] = np.round(np.sqrt(np.sum(np.square(vec))), 7) *)
      vecb <- read vec ;;
      write (View lsp 2 1 1) [round7 (norm3 (vec3_of vecb))] ;;;
      (* iop_average = np.mean(iop, axis=0) *)
      iopb <- read iop ;;
      la <- alloc (list3 (mean3 (map iop_u (rows6 iopb)))
                   ++ list3 (mean3 (map iop_v (rows6 iopb)))) ;;
      (* u = iop_average[0:3]; u /= ... *)
      let u := View la 0 1 3 in
      ub <- read u ;;
      write u (list3 (vdiv3 (vec3_of ub) (norm3 (vec3_of ub)))) ;;;
      (* v = iop_average[3:6]; v /= ... *)
      let v := View la 3 1 3 in
      vb <- read v ;;
      write v (list3 (vdiv3 (vec3_of vb) (norm3 (vec3_of vb)))) ;;;
      ub <- read u ;;
      write u (map snap ub) ;;;
      vb <- read v ;;
      write v (map snap vb) ;;;
      (* mat = np.eye(4); mat[0:3,j] = ... *)
      lm <- alloc (list16 eye4) ;;
      ub <- read u ;;
      sp <- read spacing ;;
      write (View lm 0 4 3) (list3 (vscale3 (vec3_of ub) (nth 0 sp 0))) ;;;
      vb <- read v ;;
      write (View lm 1 4 3) (list3 (vscale3 (vec3_of vb) (nth 1 sp 0))) ;;;
      vecb <- read vec ;;
      write (View lm 2 4 3) vecb ;;;
      posb <- read pos ;;
      write (View lm 3 4 3) posb ;;;
      (* dv = np.dot(vec, np.cross(u, v)); qfac = np.sign(dv) *)
      let dv := dot3 (vec3_of vecb) (cross (vec3_of ub) (vec3_of vb)) in
      let qfac := sign dv in
      (if Rlt_dec tol (Rabs (qfac * dv - nth 2 sp 0))
       then warn warn_orthogonal else ret tt) ;;;
      (* pixdim = np.hstack([np.array(qfac), spacing]) *)
      lp <- alloc (qfac :: sp) ;;
      ret (View lm 0 1 16, View lp 0 1 4)
  end.

End Heap.

(** ** The matrix on binary64

    The last statement of [convert_coords], [mat[mat == 0.0] = 0.0]: IEEE
    comparison makes [-0.0 == 0.0] true, so the assignment stores [+0.0]
    over both zeros.  After it, the matrix part of [convert_coords] and
    the normalisation of a direction in [create_affine] with the rounding
    of every operation, to evaluate them where the real numbers and
    binary64 part. *)

Module Binary64.

Definition zero_fix (a : PrimFloat.float) : PrimFloat.float :=
  if PrimFloat.eqb a PrimFloat.zero then PrimFloat.zero else a.

Definition eliminate_negative_zero (m : list (list PrimFloat.float))
  : list (list PrimFloat.float) :=
  map (map zero_fix) m.

(** The binary64 value of a Python [int]. *)
Definition of_Z (z : Z) : PrimFloat.float :=
  if (z <? 0)%Z then PrimFloat.opp (PrimFloat.of_uint63 (Uint63.of_Z (- z)))
  else PrimFloat.of_uint63 (Uint63.of_Z z).

(** A quotient of two integers, rounded once: the binary64 number a
    decimal literal such as [59.3] = 593/10 denotes. *)
Definition ratio (p q : Z) : PrimFloat.float := PrimFloat.div (of_Z p) (of_Z q).

Definition entry (m : list (list PrimFloat.float)) (i j : nat) : PrimFloat.float :=
  nth j (nth i m []) PrimFloat.zero.

Definition column (m : list (list PrimFloat.float)) (j : nat) : list PrimFloat.float :=
  map (fun r => nth j r PrimFloat.zero) m.

(** [v[i] = a] *)
Fixpoint set {A : Type} (i : nat) (a : A) (v : list A) : list A :=
  match v, i with
  | [], _ => []
  | _ :: t, O => a :: t
  | x :: t, S i => x :: set i a t
  end.

(** A sum of products, accumulated from the left with a rounding after
    every operation. *)
Definition dot (a b : list PrimFloat.float) : PrimFloat.float :=
  fold_left (fun acc p => PrimFloat.add acc (PrimFloat.mul (fst p) (snd p)))
            (combine a b) PrimFloat.zero.

(** [np.dot(a, b)] for two square arrays *)
Definition matmul (a b : list (list PrimFloat.float)) : list (list PrimFloat.float) :=
  map (fun r => map (fun j => dot r (column b j)) (seq 0 (length b))) a.

Definition convmat : list (list PrimFloat.float) :=
  [[of_Z (-1); of_Z 0; of_Z 0; of_Z 0];
   [of_Z 0; of_Z (-1); of_Z 0; of_Z 0];
   [of_Z 0; of_Z 0; of_Z 1; of_Z 0];
   [of_Z 0; of_Z 0; of_Z 0; of_Z 1]].

(** [np.argmax]: the index of the first occurrence of the maximum. *)
Fixpoint argmax_from (l : list PrimFloat.float) (i : nat) (best : PrimFloat.float)
    (besti : nat) : nat :=
  match l with
  | [] => besti
  | x :: t =>
      if PrimFloat.ltb best x then argmax_from t (S i) x i
      else argmax_from t (S i) best besti
  end.

Definition argmax (l : list PrimFloat.float) : nat :=
  match l with
  | [] => 0%nat
  | x :: t => argmax_from t 1 x 0
  end.

(** [mat[:,3] += mat[:,c]*(n - 1); mat[:,c] = -mat[:,c]] for an axis of
    extent [n]. *)
Definition flip (c n : nat) (mat : list (list PrimFloat.float))
  : list (list PrimFloat.float) :=
  map (fun r =>
         let a := nth c r PrimFloat.zero in
         let t := PrimFloat.add (nth 3 r PrimFloat.zero)
                                (PrimFloat.mul a (of_Z (Z.of_nat n - 1))) in
         set c (PrimFloat.opp a) (set 3 t r))
      mat.

(** The matrix [convert_coords] leaves, for a volume with [h] rows and
    [w] columns. *)
Definition convert_coords (h w : nat) (mat : list (list PrimFloat.float))
  : list (list PrimFloat.float) :=
  let mat := matmul convmat mat in
  let xabs := map PrimFloat.abs (column mat 0) in
  let yabs := map PrimFloat.abs (column mat 1) in
  let xmaxi := argmax xabs in
  let yabs := set xmaxi PrimFloat.zero yabs in
  let ymaxi := argmax yabs in
  let mat := if PrimFloat.ltb (entry mat xmaxi 0) PrimFloat.zero then flip 0 w mat else mat in
  let mat := if PrimFloat.ltb (entry mat ymaxi 1) PrimFloat.zero then flip 1 h mat else mat in
  eliminate_negative_zero mat.

(** The point the matrix gives to the voxel at column [i], row [j],
    slice [k]. *)
Definition physical (mat : list (list PrimFloat.float)) (i j k : nat)
  : list PrimFloat.float :=
  map (fun r => dot r [of_Z (Z.of_nat i); of_Z (Z.of_nat j); of_Z (Z.of_nat k); of_Z 1]) mat.

(** [u /= np.sqrt(np.sum(np.square(u)))] *)
Definition normalized (u : list PrimFloat.float) : list PrimFloat.float :=
  let n := PrimFloat.sqrt (fold_left (fun acc x => PrimFloat.add acc (PrimFloat.mul x x))
                                     u PrimFloat.zero) in
  map (fun x => PrimFloat.div x n) u.

(** [u[(np.abs(u) < 1e-6)] = 0.0] *)
Definition snap (u : list PrimFloat.float) : list PrimFloat.float :=
  map (fun x => if PrimFloat.ltb (PrimFloat.abs x) (ratio 1 1000000)
                then PrimFloat.zero else x) u.

(** [np.cross] on two 3-vectors *)
Definition cross (a b : list PrimFloat.float) : list PrimFloat.float :=
  match a, b with
  | [a0; a1; a2], [b0; b1; b2] =>
      [PrimFloat.sub (PrimFloat.mul a1 b2) (PrimFloat.mul a2 b1);
       PrimFloat.sub (PrimFloat.mul a2 b0) (PrimFloat.mul a0 b2);
       PrimFloat.sub (PrimFloat.mul a0 b1) (PrimFloat.mul a1 b0)]
  | _, _ => []
  end.

(** [np.sign]: 1, -1 or 0 by comparison with zero, and the argument
    itself when no comparison holds (a NaN). *)
Definition sign (x : PrimFloat.float) : PrimFloat.float :=
  if PrimFloat.ltb PrimFloat.zero x then of_Z 1
  else if PrimFloat.ltb x PrimFloat.zero then of_Z (-1)
  else if PrimFloat.eqb x PrimFloat.zero then PrimFloat.zero
  else x.

End Binary64.

(** A matrix with pixels of 0.9375 mm and the origin at -59.3 mm, for a
    volume of 256 rows and columns. *)
Definition head_scan : list (list PrimFloat.float) :=
  [[Binary64.ratio 15 16; Binary64.of_Z 0; Binary64.of_Z 0; Binary64.ratio (-593) 10];
   [Binary64.of_Z 0; Binary64.ratio 15 16; Binary64.of_Z 0; Binary64.ratio (-593) 10];
   [Binary64.of_Z 0; Binary64.of_Z 0; Binary64.of_Z 1; Binary64.of_Z 0];
   [Binary64.of_Z 0; Binary64.of_Z 0; Binary64.of_Z 0; Binary64.of_Z 1]].

(** The same matrix after the sign change [np.dot(convmat, mat)]. *)
Definition head_scan_lps : list (list PrimFloat.float) :=
  Binary64.matmul Binary64.convmat head_scan.

(** ** Vectors used in statements about [create_affine] *)

Definition vadd3 (a b : vec3) : vec3 := V3 (vx a + vx b) (vy a + vy b) (vz a + vz b).
Definition vopp3 (a : vec3) : vec3 := V3 (- vx a) (- vy a) (- vz a).

(** The series moved as a whole by [t]. *)
Definition translate (t : vec3) (ipp : list vec3) : list vec3 :=
  map (fun p => vadd3 p t) ipp.

(** The averaged row and column directions are not the zero vector, so
    that [u /= ...] and [v /= ...] divide by a number that is not zero.
    On a zero vector the source computes [0/0], a NaN, which real numbers
    do not have: [Reconstructor.unit_u] and [Reconstructor.unit_v] stand
    for the source on oriented input only. *)
Definition oriented (iop : list Reconstructor.iop_row) : Prop :=
  Reconstructor.norm3 (Reconstructor.mean3 (map Reconstructor.iop_u iop)) <> 0 /\
  Reconstructor.norm3 (Reconstructor.mean3 (map Reconstructor.iop_v iop)) <> 0.

(** ** File discovery: [find_dicom_files] *)

Module Finder.

(** [name.endswith(s)] *)
Fixpoint ends_with (s name : string) : bool :=
  String.eqb s name ||
  match name with
  | EmptyString => false
  | String _ t => ends_with s t
  end.

(** [fnmatch] on a POSIX system, for the patterns the source uses: a [*]
    followed by literal characters matches the names that end with them,
    a pattern without [*] matches itself. *)
Definition fnmatch (name pat : string) : bool :=
  match pat with
  | String "*" lit => ends_with lit name
  | _ => String.eqb pat name
  end.

(** [glob._ishidden]: the name starts with a dot. *)
Definition ishidden (name : string) : bool :=
  match name with
  | String "." _ => true
  | _ => false
  end.

(** [glob.has_magic]: the text contains one of the wildcard characters
    [*], [?] and [[]. *)
Fixpoint has_magic (s : string) : bool :=
  match s with
  | EmptyString => false
  | String c t =>
      Ascii.eqb c "*" || Ascii.eqb c "?" || Ascii.eqb c "[" || has_magic t
  end.

(** A directory path that [glob] takes as it stands: it has no wildcard
    character, and no doubled separator at its end, which [glob] would
    strip from the paths it returns. *)
Definition literal (path : string) : bool :=
  negb (has_magic path) && negb (ends_with "//" path).

Section FileSystem.

(** [os.path.isdir], [os.path.isfile], [os.path.join], and the names
    [os.scandir] lists in a directory, in the order it lists them. *)
Variable isdir : string -> bool.
Variable isfile : string -> bool.
Variable join : string -> string -> string.
Variable listdir : string -> list string.

(** [glob.glob(os.path.join(path, pat))] for a pattern [pat] of one path
    component and a [path] that is taken as it stands
    ([literal path = true]): the entries of [path] that match, hidden
    ones left out unless the pattern starts with a dot, each joined to
    [path].  With wildcard characters in [path], [glob] reads the
    directory part as a pattern too; that search is not modelled, and
    the theorems about [find_dicom_files] are stated for a literal
    path. *)
Definition glob (path pat : string) : list string :=
  map (join path)
      (filter (fun name => (ishidden pat || negb (ishidden name)) && fnmatch name pat)
              (listdir path)).

Definition suffixes : list string := ["*.dcm"; "*.DCM"; "*.dc"; "*.DC"; "*.IMG"]%string.

(** The loop [for ext in (...): files = glob.glob(pattern); if files: break]:
    the value of [files] when the loop is left. *)
Fixpoint first_match (path : string) (exts : list string) : list string :=
  match exts with
  | [] => []
  | ext :: rest =>
      match glob path ext with
      | [] => first_match path rest
      | files => files
      end
  end.

Definition cannot_open (path : string) : string :=
  ("Cannot open " ++ path ++ newline)%string.

(** [find_dicom_files(path)]: the list returned and what was written to
    stderr. *)
Definition find_dicom_files (path : string) : list string * list string :=
  if isdir path then
    match first_match path suffixes with
    | [] => (filter isfile (glob path "*"), [])
    | files => (files, [])
    end
  else if isfile path then ([path], [])
  else ([], [cannot_open path]).

End FileSystem.

End Finder.

(** ** Exceptions of the functions around the conversion core *)

(** [Earlier e] is an exception of the functions above, [Other name] one
    that a library call raises and no model here names ([nib.save],
    [open]). *)
Inductive error : Type :=
  | Earlier (e : exn)
  | AttributeError
  | ValueError
  | OverflowError
  | Other (name : string).

Coercion Earlier : exn >-> error.

Inductive outcome (A : Type) : Type :=
  | Returns (a : A)
  | Raises (e : error).

Arguments Returns {A} a.
Arguments Raises {A} e.

(** ** Volume assembly: [dicom_to_volume] *)

Module Assembler.

(** A 2-D array with its [shape] attribute: [ds.pixel_array]. *)
Record image := Image {
  ishape : nat * nat;
  pixels : list (list R)
}.

(** [image[j, i]], [None] when an index is out of range. *)
Definition pixel (b : image) (j i : nat) : option R :=
  match nth_error (pixels b) j with
  | None => None
  | Some r => nth_error r i
  end.

(** The nested data has the extents the [shape] attribute announces. *)
Definition well_formed (b : image) : Prop :=
  length (pixels b) = fst (ishape b) /\
  Forall (fun r => length r = snd (ishape b)) (pixels b).

(** What [float(ds.RescaleSlope)] evaluates to inside the [try]: a number,
    an [AttributeError], a [ValueError], or the [TypeError] of
    [float(None)] for an attribute that is present and has no value. *)
Inductive float_attribute : Type :=
  | FloatValue (a : R)
  | FloatMissing
  | FloatUnparseable
  | FloatEmpty.

(** [try: x = float(...) except (AttributeError, ValueError): x = default];
    the [TypeError] is not among the exceptions it catches. *)
Definition float_or (a : float_attribute) (default : R) : outcome R :=
  match a with
  | FloatValue x => Returns x
  | FloatMissing => Returns default
  | FloatUnparseable => Returns default
  | FloatEmpty => Raises TypeError
  end.

(** [image*slope + intercept]: a product and a sum, each rounded to the
    type numpy computes it in (binary64 for integer pixel data), the
    rounding [rounded]. *)
Definition rescaled (rounded : R -> R) (b : image) (slope intercept : R) : image :=
  Image (ishape b)
        (map (map (fun p => rounded (rounded (p * slope) + intercept))) (pixels b)).

(** numpy broadcasting along one axis: an extent that agrees is kept, an
    extent of 1 is repeated, anything else does not fit. *)
Definition fits (have want : nat) : bool := (have =? want)%nat || (have =? 1)%nat.

Definition spread {A : Type} (have want : nat) (l : list A) : list A :=
  if (have =? want)%nat then l else concat (repeat l want).

(** The value stored by [vol[i,:,:] = b] into a slice of shape [(h, w)],
    [None] for the [ValueError] of shapes that cannot be broadcast. *)
Definition broadcast (h w : nat) (b : image) : option (list (list R)) :=
  let '(r, c) := ishape b in
  if fits r h && fits c w
  then Some (spread r h (map (spread c w) (pixels b)))
  else None.

(** The four arrays the loop fills, one entry per slice. *)
Record arrays := Arrays {
  vol_rows : list (list (list R));
  ps_rows : list (R * R);
  ipp_rows : list vec3;
  iop_rows : list Reconstructor.iop_row
}.

Section Datasets.

Variable dataset : Type.

(** The attributes the function reads.  A missing attribute is [None], an
    [AttributeError] in the source; one that is present has the number of
    values the DICOM standard gives it. *)
Variable pixel_array : dataset -> option image.
Variable RescaleSlope : dataset -> float_attribute.
Variable RescaleIntercept : dataset -> float_attribute.
Variable PixelSpacing : dataset -> option (R * R).
Variable ImagePositionPatient : dataset -> option vec3.
Variable ImageOrientationPatient : dataset -> option Reconstructor.iop_row.

(** The rounding of the arithmetic on the pixel data, and the conversion
    to float32 that storing into [vol] applies to a value. *)
Variable rounded : R -> R.
Variable float32 : R -> R.

Definition slope_of (ds : dataset) : outcome R := float_or (RescaleSlope ds) 1.
Definition intercept_of (ds : dataset) : outcome R := float_or (RescaleIntercept ds) 0.

(** The body of [for i, ds in enumerate(dicom_series):] and the rest of the
    loop, for a volume whose slices have shape [(h, w)]. *)
Fixpoint fill (h w : nat) (series : list dataset) : outcome arrays :=
  match series with
  | [] => Returns (Arrays [] [] [] [])
  | ds :: rest =>
      match pixel_array ds with
      | None => Raises AttributeError
      | Some image =>
          match slope_of ds with
          | Raises e => Raises e
          | Returns slope =>
              match intercept_of ds with
              | Raises e => Raises e
              | Returns intercept =>
                  match broadcast h w (rescaled rounded image slope intercept) with
                  | None => Raises ValueError
                  | Some slice =>
                      match PixelSpacing ds with
                      | None => Raises AttributeError
                      | Some ps =>
                          match ImagePositionPatient ds with
                          | None => Raises AttributeError
                          | Some ipp =>
                              match ImageOrientationPatient ds with
                              | None => Raises AttributeError
                              | Some iop =>
                                  match fill h w rest with
                                  | Raises e => Raises e
                                  | Returns a =>
                                      Returns (Arrays (map (map float32) slice :: vol_rows a)
                                                      (ps :: ps_rows a)
                                                      (ipp :: ipp_rows a)
                                                      (iop :: iop_rows a))
                                  end
                              end
                          end
                      end
                  end
              end
          end
      end
  end.

(** [dicom_to_volume(dicom_series)]: the volume, the pixdim, the affine and
    what [create_affine] wrote to stderr.  The value stored in [vol] is
    the rounded [image*slope + intercept] converted to float32. *)
Definition dicom_to_volume (series : list dataset)
  : outcome (volume * vec4 * mat4 * list string) :=
  match series with
  | [] => Raises (Earlier IndexError)
  | first :: _ =>
      match pixel_array first with
      | None => Raises AttributeError
      | Some image0 =>
          let '(h, w) := ishape image0 in
          match fill h w series with
          | Raises e => Raises e
          | Returns a =>
              match Reconstructor.create_affine (ipp_rows a) (iop_rows a) (ps_rows a) with
              | Raise e => Raises (Earlier e)
              | Ok (affine, pixdim, log) =>
                  Returns (Volume (length series, h, w) (vol_rows a), pixdim, affine, log)
              end
          end
      end
  end.

(** A slice the loop body accepts for a volume of slice shape [(h, w)]. *)
Definition complete (h w : nat) (ds : dataset) : Prop :=
  (exists b, pixel_array ds = Some b /\ ishape b = (h, w) /\ well_formed b) /\
  RescaleSlope ds <> FloatEmpty /\
  RescaleIntercept ds <> FloatEmpty /\
  PixelSpacing ds <> None /\
  ImagePositionPatient ds <> None /\
  ImageOrientationPatient ds <> None.

End Datasets.

End Assembler.

(** ** The conversion of a list of series: [write_nifti], [dicom_to_nifti] *)

Module Pipeline.

(** [vol.T]: the axes in reverse order, [vol.T[i, j, k] = vol[k, j, i]]. *)
Definition transpose (vol : volume) : volume :=
  let '(n, h, w) := shape vol in
  Volume (w, h, n)
    (map (fun i =>
       map (fun j =>
         map (fun k => nth i (nth j (nth k (voxels vol) []) []) 0) (seq 0 n))
           (seq 0 h))
         (seq 0 w)).

(** What [nib.Nifti1Image(dataobj, affine)] holds. *)
Record nifti := Nifti {
  dataobj : volume;
  affine : mat4
}.

(** What a call leaves behind: the text written to stderr, and the
    images that calls of [nib.save] have written, with their file names,
    each in the order of the calls (an image written later under the
    same name replaces the file of the earlier one). *)
Record world := World {
  err : list string;
  saved : list (string * nifti)
}.

Definition log (messages : list string) (w : world) : world :=
  World (err w ++ messages) (saved w).

(** [str.split(sep)] for a separator of one character. *)
Fixpoint split (sep : ascii) (s : string) : list string :=
  match s with
  | EmptyString => [EmptyString]
  | String c t =>
      if Ascii.eqb c sep then EmptyString :: split sep t
      else match split sep t with
           | [] => [String c EmptyString]
           | part :: parts => String c part :: parts
           end
  end.

(** A value used as a list index: an [int] or a [str]. *)
Inductive subscript : Type :=
  | IntIndex (i : Z)
  | StrIndex (s : string).

(** [l[i]]: a [str] is no list index ([TypeError]), a negative [int]
    counts from the end, an [int] out of range is an [IndexError]. *)
Definition getitem {A : Type} (l : list A) (i : subscript) : outcome A :=
  match i with
  | StrIndex _ => Raises TypeError
  | IntIndex i =>
      let n := Z.of_nat (length l) in
      let j := if (i <? 0)%Z then (i + n)%Z else i in
      if (j <? 0)%Z then Raises (Earlier IndexError)
      else match nth_error l (Z.to_nat j) with
           | Some a => Returns a
           | None => Raises (Earlier IndexError)
           end
  end.

(** How the body of the loop is left: on to the next value, or by the
    [return] that ends the function. *)
Inductive flow : Type :=
  | Continue
  | Return.

Section Environment.

Variable isdir : string -> bool.
Variable isfile : string -> bool.
Variable join : string -> string -> string.
Variable listdir : string -> list string.

Variable dataset : Type.
Variable dcmread : string -> result dataset.
Variable InstanceNumber : dataset -> Loader.instance_number.
Variable pixel_array : dataset -> option Assembler.image.
Variable RescaleSlope : dataset -> Assembler.float_attribute.
Variable RescaleIntercept : dataset -> Assembler.float_attribute.
Variable PixelSpacing : dataset -> option (R * R).
Variable ImagePositionPatient : dataset -> option vec3.
Variable ImageOrientationPatient : dataset -> option Reconstructor.iop_row.
Variable rounded : R -> R.
Variable float32 : R -> R.

(** [nib.save(output, filename)]: the exception it raises for this file
    name, if any (a directory that does not exist, a file that cannot be
    written). *)
Variable save_error : string -> option error.

(** [write_nifti(filename, vol, affine)] *)
Definition write_nifti (filename : string) (vol : volume) (mat : mat4) (w : world)
  : outcome unit * world :=
  match save_error filename with
  | Some e => (Raises e, w)
  | None => (Returns tt, World (err w) (saved w ++ [(filename, Nifti (transpose vol) mat)]))
  end.

(** The body of the loop of [dicom_to_nifti] from
    [files = find_dicom_files(dicom_path)] to [write_nifti(...)]. *)
Definition convert_series (dicom_path output_file : string) (w : world)
  : outcome flow * world :=
  let '(files, messages) := Finder.find_dicom_files isdir isfile join listdir dicom_path in
  let w := log messages w in
  match Loader.dicom_to_nifti_load dcmread InstanceNumber files with
  | Raise e => (Raises (Earlier e), w)
  | Ok (Loader.Stopped message) => (Returns Return, log [message] w)
  | Ok (Loader.Proceeds series) =>
      match Assembler.dicom_to_volume dataset pixel_array RescaleSlope RescaleIntercept
              PixelSpacing ImagePositionPatient ImageOrientationPatient rounded float32
              series with
      | Raises e => (Raises e, w)
      | Returns (vol, pixdim, mat, warnings) =>
          let w := log warnings w in
          let '(vol, mat) := Normalizer.convert_coords vol mat in
          match write_nifti output_file vol mat w with
          | (Raises e, w) => (Raises e, w)
          | (Returns _, w) => (Returns Continue, w)
          end
      end
  end.

(** The loop [for value in template_json:]. *)
Fixpoint convert_each (input_dir output_dir : string) (values : list string) (w : world)
  : outcome unit * world :=
  match values with
  | [] => (Returns tt, w)
  | value :: rest =>
      match getitem (split "_" value) (IntIndex 0) with
      | Raises e => (Raises e, w)
      | Returns p_id =>
          match getitem (split "_" value) (IntIndex 1) with
          | Raises e => (Raises e, w)
          | Returns index =>
              match getitem (Finder.glob join listdir (input_dir ++ "/" ++ p_id) "*")
                            (StrIndex index) with
              | Raises e => (Raises e, w)
              | Returns dicom_path =>
                  match getitem (Finder.glob join listdir dicom_path "*") (IntIndex 0) with
                  | Raises e => (Raises e, w)
                  | Returns dicom_path =>
                      let output_file :=
                        join output_dir (p_id ++ "_" ++ index ++ ".nii.gz") in
                      match convert_series dicom_path output_file w with
                      | (Raises e, w) => (Raises e, w)
                      | (Returns Return, w) => (Returns tt, w)
                      | (Returns Continue, w) => convert_each input_dir output_dir rest w
                      end
                  end
              end
          end
      end
  end.

(** [dicom_to_nifti(input_dir, output_dir, template_json)]; the default
    [template_json=None] cannot be iterated. *)
Definition dicom_to_nifti (input_dir output_dir : string)
    (template_json : option (list string)) (w : world) : outcome unit * world :=
  match template_json with
  | None => (Raises TypeError, w)
  | Some values => convert_each input_dir output_dir values w
  end.

End Environment.

End Pipeline.

(** ** The dataset list: [save_nifti_to_json] *)

Module Manifest.

(** [float(n)] for a list length [n]. *)
Definition float_of_nat (n : nat) : PrimFloat.float :=
  PrimFloat.of_uint63 (Uint63.of_Z (Z.of_nat n)).

(** [int(x)] for a binary64 [x]: the integer part, towards zero; a NaN is
    a [ValueError] and an infinity an [OverflowError]. *)
Definition py_int (x : PrimFloat.float) : outcome Z :=
  match FloatOps.Prim2SF x with
  | SpecFloat.S754_zero _ => Returns 0%Z
  | SpecFloat.S754_infinity _ => Raises OverflowError
  | SpecFloat.S754_nan => Raises ValueError
  | SpecFloat.S754_finite s m e =>
      let a := if (0 <=? e)%Z then (Z.pos m * 2 ^ e)%Z else (Z.pos m / 2 ^ (- e))%Z in
      Returns (if s then (- a)%Z else a)
  end.

(** The position a slice bound [k] stands for in a list of length [n]: a
    negative bound counts from the end, and the position is clipped to
    [0..n]. *)
Definition bound (n : nat) (k : Z) : nat :=
  let j := if (k <? 0)%Z then (k + Z.of_nat n)%Z else k in
  Z.to_nat (Z.min (Z.of_nat n) (Z.max 0 j)).

(** [l[:k]] and [l[k:]] *)
Definition slice_to {A : Type} (l : list A) (k : Z) : list A :=
  firstn (bound (length l) k) l.

Definition slice_from {A : Type} (l : list A) (k : Z) : list A :=
  skipn (bound (length l) k) l.

(** [{"image": img}] *)
Record image_entry := Entry { image : string }.

(** [{"training": [...], "validation": [...]}] *)
Record dataset := Dataset {
  training : list image_entry;
  validation : list image_entry
}.

Section Environment.

Variable join : string -> string -> string.
Variable listdir : string -> list string.

(** The order [random.shuffle] leaves a list in. *)
Variable random_shuffle : list string -> list string.

(** [open(path, "w")]: the exception it raises for this path, if any (a
    directory that does not exist). *)
Variable open_error : string -> option error.

(** [save_nifti_to_json(f_name, root_path, save_path, train_split, shuffle)]:
    the path of the file written and the object dumped into it. *)
Definition save_nifti_to_json (f_name root_path save_path : string)
    (train_split : PrimFloat.float) (shuffle : bool) : outcome (string * dataset) :=
  let nifti_files := Finder.glob join listdir root_path "*.nii.gz" in
  let nifti_files := if shuffle then random_shuffle nifti_files else nifti_files in
  let split := PrimFloat.mul (float_of_nat (length nifti_files)) train_split in
  match py_int split with
  | Raises e => Raises e
  | Returns k =>
      let train_imgs := slice_to nifti_files k in
      let val_imgs := slice_from nifti_files k in
      let path := join save_path (f_name ++ ".json") in
      match open_error path with
      | Some e => Raises e
      | None => Returns (path, Dataset (map Entry train_imgs) (map Entry val_imgs))
      end
  end.

End Environment.

End Manifest.

(** ** Concrete inputs used in the examples *)

(** Two voxels in one row of one slice. *)
Definition two_voxels : volume := Volume (1, 1, 2)%nat [[[1; 2]]].

(** The identity affine with the column direction along [-x]. *)
Definition mirrored_x : mat4 :=
  M4 (V4 (-1) 0 0 0) (V4 0 1 0 0) (V4 0 0 1 0) (V4 0 0 0 1).

(** Pixels of 1 by 10, rotated in the plane: columns 0 and 1 are
    [(-0.8, 0.6, 0)] and [10 * (-0.6, -0.8, 0)]. *)
Definition rotated_affine : mat4 :=
  M4 (V4 (-0.8) (-6) 0 0) (V4 0.6 (-8) 0 0) (V4 0 0 1 0) (V4 0 0 0 1).

(** A matrix whose columns 0 and 1 both point along [x]. *)
Definition degenerate_affine : mat4 :=
  M4 (V4 1 1 0 0) (V4 0 0 0 0) (V4 0 0 1 0) (V4 0 0 0 1).

(** The orientation of an axial slice, [(1,0,0,0,1,0)]. *)
Definition axial : Reconstructor.iop_row :=
  Reconstructor.IOP (V3 1 0 0) (V3 0 1 0).

(** A row direction tilted by two parts in a million. *)
Definition tilted : Reconstructor.iop_row :=
  Reconstructor.IOP (V3 1 2e-6 0) (V3 0 1 0).

(** A slice step of 0.9e-6 along every axis. *)
Definition tiny_step : vec3 := V3 9e-7 9e-7 9e-7.

(** Files named by numbers, each read as the dataset of the same number;
    datasets 0 and 1 have no usable InstanceNumber, 2 and 3 share one. *)
Definition sample_dcmread (f : nat) : result nat := Ok f.

Definition sample_InstanceNumber (ds : nat) : Loader.instance_number :=
  match ds with
  | 0%nat => Loader.Missing
  | 1%nat => Loader.Unparseable
  | 2%nat => Loader.Number 7
  | 3%nat => Loader.Number 7
  | 4%nat => Loader.Number 2
  | _ => Loader.Number 9
  end.

(** Dataset 0 has an InstanceNumber without a value, 1 has a negative
    one, 2 has none. *)
Definition edge_InstanceNumber (ds : nat) : Loader.instance_number :=
  match ds with
  | 0%nat => Loader.Empty
  | 1%nat => Loader.Number (-5)
  | 2%nat => Loader.Missing
  | _ => Loader.Number 3
  end.

(** A store holding the three input arrays of a two-slice series. *)
Definition sample_state : Heap.state :=
  Heap.State
    [[0; 0; 0; 0; 0; 2]; [1; 0; 0; 0; 1; 0; 1; 0; 0; 0; 1; 0]; [1; 1; 1; 1]] [].

Definition sample_ipp : Heap.view := Heap.View 0 0 1 6.
Definition sample_iop : Heap.view := Heap.View 1 0 1 12.
Definition sample_ps : Heap.view := Heap.View 2 0 1 4.

(** A directory [scan] holding two DICOM files among other entries, and a
    directory [out] of converted volumes. *)
Definition sample_join (a b : string) : string := (a ++ "/" ++ b)%string.

Definition sample_listdir (p : string) : list string :=
  if String.eqb p "scan" then ["2.dcm"; ".cache.dcm"; "notes.txt"; "1.dcm"; "3.DCM"]%string
  else if String.eqb p "out" then ["a.nii.gz"; "b.nii.gz"; "log.txt"; "c.nii.gz"]%string
  else [].

Definition sample_isdir (p : string) : bool := String.eqb p "scan" || String.eqb p "out".

Definition sample_isfile (p : string) : bool :=
  existsb (String.eqb p)
    (map (sample_join "scan") (sample_listdir "scan") ++
     map (sample_join "out") (sample_listdir "out")).

(** Slices named by numbers: slice 0 has no pixel data, slice 3 no
    orientation; no slice has rescale attributes. *)
Definition slice_dcmread (f : string) : result nat :=
  if String.eqb f "scan/1.dcm" then Ok 1%nat
  else if String.eqb f "scan/2.dcm" then Ok 2%nat
  else Raise InvalidDicomError.

Definition slice_InstanceNumber (k : nat) : Loader.instance_number :=
  Loader.Number (Z.of_nat k).

Definition slice_pixel_array (k : nat) : option Assembler.image :=
  match k with
  | 0%nat => None
  | _ => Some (Assembler.Image (1, 2)%nat [[INR k; 0]])
  end.

Definition slice_rescale (k : nat) : Assembler.float_attribute := Assembler.FloatMissing.

Definition slice_PixelSpacing (k : nat) : option (R * R) := Some (1, 1).

Definition slice_position (k : nat) : option vec3 := Some (V3 0 0 (INR k)).

Definition slice_orientation (k : nat) : option Reconstructor.iop_row :=
  match k with
  | 3%nat => None
  | _ => Some axial
  end.

(** The samples hold small integers, which a rounding leaves as they
    are. *)
Definition sample_rounding (x : R) : R := x.

(** A file system on which [nib.save] and [open] raise nothing. *)
Definition sample_save_error (path : string) : option error := None.
Definition sample_open_error (path : string) : option error := None.

(** One half, as a binary64. *)
Definition one_half : PrimFloat.float := PrimFloat.div PrimFloat.one PrimFloat.two.

(** * Proofs *)

(** ** Tactics *)
Ltac break_vec v :=
  let a := fresh "a" in let b := fresh "b" in
  let c := fresh "c" in let d := fresh "d" in
  destruct v as [a b c d].

Ltac break_mat m :=
  let p := fresh "p" in let q := fresh "q" in
  let r := fresh "r" in let s := fresh "s" in
  destruct m as [p q r s]; break_vec p; break_vec q; break_vec r; break_vec s.

Ltac mat_compute :=
  cbv beta iota zeta delta
    [set_col col vadd4 vscale4 vopp4 vabs4 set4 nth4 row entry dot4 matmul mat_vec
     row0 row1 row2 row3 x0 x1 x2 x3 fst snd].

Ltac mat_ring :=
  mat_compute; cbv beta iota delta [shape1 shape2 shape flip1 flip2 fst snd];
  apply (f_equal4 M4); apply (f_equal4 V4); ring.

Ltac break_index i := destruct i as [|[|[|i]]].

(** ** The coordinate normalizer *)

Section NormalizerFacts.

Import Normalizer.

Lemma matmul_convmat (m : mat4) :
  matmul convmat m = M4 (vopp4 (row0 m)) (vopp4 (row1 m)) (row2 m) (row3 m).
Proof.
  break_mat m. unfold matmul, convmat, vopp4, dot4, col; simpl.
  mat_ring.
Qed.

Lemma zero_fix_id (a : R) : zero_fix a = a.
Proof. unfold zero_fix. destruct (Req_dec_T a 0); congruence. Qed.

Lemma eliminate_negative_zero_id (m : mat4) : eliminate_negative_zero m = m.
Proof.
  break_mat m. unfold eliminate_negative_zero, zero_fix4; simpl.
  now rewrite !zero_fix_id.
Qed.

Lemma argmax4_lt (v : vec4) : (argmax (to_list4 v) < 4)%nat.
Proof.
  destruct v as [a b c d]. unfold argmax, to_list4; simpl.
  repeat destruct (Rlt_dec _ _); lia.
Qed.

Lemma vabs4_col_convmat (m : mat4) (j : nat) :
  vabs4 (col (matmul convmat m) j) = vabs4 (col m j).
Proof.
  rewrite matmul_convmat. break_mat m. break_index j; unfold vabs4, col; simpl;
    now rewrite !Rabs_Ropp.
Qed.

Lemma xmaxi_of_convmat (m : mat4) : xmaxi_of (matmul convmat m) = xmaxi_of m.
Proof. unfold xmaxi_of. now rewrite vabs4_col_convmat. Qed.

Lemma ymaxi_of_convmat (m : mat4) : ymaxi_of (matmul convmat m) = ymaxi_of m.
Proof. unfold ymaxi_of. now rewrite vabs4_col_convmat, xmaxi_of_convmat. Qed.

Lemma xmaxi_of_lt (m : mat4) : (xmaxi_of m < 4)%nat.
Proof. apply argmax4_lt. Qed.

Lemma ymaxi_of_lt (m : mat4) : (ymaxi_of m < 4)%nat.
Proof. apply argmax4_lt. Qed.

Lemma flip_x_entry0 s r : entry (snd (flip_x s)) r 0 = - entry (snd s) r 0.
Proof. destruct s as [vol m]. break_mat m. break_index r; reflexivity. Qed.

Lemma flip_x_entry1 s r : entry (snd (flip_x s)) r 1 = entry (snd s) r 1.
Proof. destruct s as [vol m]. break_mat m. break_index r; reflexivity. Qed.

Lemma flip_y_entry0 s r : entry (snd (flip_y s)) r 0 = entry (snd s) r 0.
Proof. destruct s as [vol m]. break_mat m. break_index r; reflexivity. Qed.

Lemma flip_y_entry1 s r : entry (snd (flip_y s)) r 1 = - entry (snd s) r 1.
Proof. destruct s as [vol m]. break_mat m. break_index r; reflexivity. Qed.

Lemma flip_x_abs s j : (j < 2)%nat ->
  vabs4 (col (snd (flip_x s)) j) = vabs4 (col (snd s) j).
Proof.
  intros Hj. destruct s as [vol m]. break_mat m.
  destruct j as [|[|j]]; try lia; unfold vabs4; simpl; now rewrite ?Rabs_Ropp.
Qed.

Lemma flip_y_abs s j : (j < 2)%nat ->
  vabs4 (col (snd (flip_y s)) j) = vabs4 (col (snd s) j).
Proof.
  intros Hj. destruct s as [vol m]. break_mat m.
  destruct j as [|[|j]]; try lia; unfold vabs4; simpl; now rewrite ?Rabs_Ropp.
Qed.

Lemma xmaxi_of_flip_x s : xmaxi_of (snd (flip_x s)) = xmaxi_of (snd s).
Proof. unfold xmaxi_of. now rewrite flip_x_abs by lia. Qed.

Lemma xmaxi_of_flip_y s : xmaxi_of (snd (flip_y s)) = xmaxi_of (snd s).
Proof. unfold xmaxi_of. now rewrite flip_y_abs by lia. Qed.

Lemma ymaxi_of_flip_x s : ymaxi_of (snd (flip_x s)) = ymaxi_of (snd s).
Proof. unfold ymaxi_of. now rewrite flip_x_abs, xmaxi_of_flip_x by lia. Qed.

Lemma ymaxi_of_flip_y s : ymaxi_of (snd (flip_y s)) = ymaxi_of (snd s).
Proof. unfold ymaxi_of. now rewrite flip_y_abs, xmaxi_of_flip_y by lia. Qed.

(** The state after the first and after the second conditional. *)
Lemma convert_coords_unfold (vol : volume) (mat : mat4) :
  convert_coords vol mat =
  let m1 := matmul convmat mat in
  let s1 := if Rlt_dec (entry m1 (xmaxi_of mat) 0) 0 then flip_x (vol, m1) else (vol, m1) in
  if Rlt_dec (entry (snd s1) (ymaxi_of mat) 1) 0 then flip_y s1 else s1.
Proof.
  unfold convert_coords. rewrite xmaxi_of_convmat, ymaxi_of_convmat.
  rewrite eliminate_negative_zero_id. cbv zeta. simpl fst. simpl snd.
  now destruct (if Rlt_dec _ _ then flip_y _ else _).
Qed.

Lemma nth4_col (m : mat4) (j r : nat) : nth4 (col m j) r = entry m r j.
Proof. break_index r; reflexivity. Qed.

Lemma nth4_vabs4 (v : vec4) (r : nat) : nth4 (vabs4 v) r = Rabs (nth4 v r).
Proof. break_index r; reflexivity. Qed.

Lemma argmax4_max (v : vec4) (r : nat) :
  nth4 v r <= nth4 v (argmax (to_list4 v)).
Proof.
  destruct v as [a b c d]. unfold argmax, to_list4; simpl.
  break_index r; repeat destruct (Rlt_dec _ _); simpl; lra.
Qed.

Lemma argmax4_masked_max (v : vec4) (i r : nat) :
  (i < 4)%nat -> (r < 4)%nat -> r <> i ->
  0 <= x0 v -> 0 <= x1 v -> 0 <= x2 v -> 0 <= x3 v ->
  nth4 v r <= nth4 v (argmax (to_list4 (set4 v i 0))).
Proof.
  intros Hi Hr Hne H0 H1 H2 H3. destruct v as [a b c d]. simpl in *.
  break_index i; try lia; break_index r; try lia;
    unfold argmax, to_list4; simpl;
    repeat destruct (Rlt_dec _ _); simpl; lra.
Qed.

Lemma argmax4_masked_distinct (v : vec4) (i : nat) :
  (i < 4)%nat -> 0 <= x0 v -> 0 <= x1 v -> 0 <= x2 v -> 0 <= x3 v ->
  argmax (to_list4 (set4 v i 0)) <> i \/
  (i = 0%nat /\ x1 v = 0 /\ x2 v = 0 /\ x3 v = 0).
Proof.
  intros Hi H0 H1 H2 H3. destruct v as [a b c d]. simpl in *.
  break_index i; try lia; unfold argmax, to_list4; simpl;
    repeat destruct (Rlt_dec _ _);
    first [ left; lia | right; repeat split; lra | exfalso; lra ].
Qed.

Lemma convmat_entry_abs (m : mat4) (r j : nat) :
  Rabs (entry (matmul convmat m) r j) = Rabs (entry m r j).
Proof.
  rewrite <- !nth4_col, <- !nth4_vabs4. now rewrite vabs4_col_convmat.
Qed.

Ltac norm_entries :=
  repeat first
    [ rewrite flip_y_entry0 | rewrite flip_y_entry1
    | rewrite flip_x_entry0 | rewrite flip_x_entry1
    | progress cbn [snd fst] ].

Ltac split_cond :=
  match goal with
  | |- context [Rlt_dec ?a ?b] =>
      lazymatch a with
      | context [Rlt_dec _ _] => fail
      | _ => destruct (Rlt_dec a b); try (exfalso; lra)
      end
  end.

(** The dominant entries of the result are not negative. *)
Lemma convert_coords_canonical (vol : volume) (mat : mat4) :
  0 <= entry (snd (convert_coords vol mat)) (xmaxi_of mat) 0 /\
  0 <= entry (snd (convert_coords vol mat)) (ymaxi_of mat) 1.
Proof.
  rewrite convert_coords_unfold. cbv zeta.
  split; repeat (norm_entries; split_cond); norm_entries; lra.
Qed.


Ltac decide_reals :=
  repeat match goal with
  | |- context [Rlt_dec ?a ?b] => destruct (Rlt_dec a b); try lra
  | |- context [Rcase_abs ?a] => destruct (Rcase_abs a); try lra
  | H : context [Rcase_abs ?a] |- _ => destruct (Rcase_abs a); try lra
  end.

Lemma flip2_involutive (vol : volume) : flip2 (flip2 vol) = vol.
Proof.
  destruct vol as [sh v]. unfold flip2; simpl. f_equal.
  rewrite map_map. rewrite <- (map_id v) at 2. apply map_ext. intros s.
  rewrite map_map. rewrite <- (map_id s) at 2. apply map_ext. intros r.
  apply rev_involutive.
Qed.

Lemma flip1_involutive (vol : volume) : flip1 (flip1 vol) = vol.
Proof.
  destruct vol as [sh v]. unfold flip1; simpl. f_equal.
  rewrite map_map. rewrite <- (map_id v) at 2. apply map_ext. intros s.
  apply rev_involutive.
Qed.

Lemma flip1_flip2 (vol : volume) : flip1 (flip2 vol) = flip2 (flip1 vol).
Proof.
  destruct vol as [sh v]. unfold flip1, flip2; simpl. f_equal.
  rewrite !map_map. apply map_ext. intros s. symmetry. apply map_rev.
Qed.

Lemma xmaxi_of_convert_coords vol mat :
  xmaxi_of (snd (convert_coords vol mat)) = xmaxi_of mat.
Proof.
  rewrite convert_coords_unfold. cbv zeta.
  repeat destruct (Rlt_dec _ _);
    rewrite ?xmaxi_of_flip_y, ?xmaxi_of_flip_x; simpl snd; apply xmaxi_of_convmat.
Qed.

Lemma ymaxi_of_convert_coords vol mat :
  ymaxi_of (snd (convert_coords vol mat)) = ymaxi_of mat.
Proof.
  rewrite convert_coords_unfold. cbv zeta.
  repeat destruct (Rlt_dec _ _);
    rewrite ?ymaxi_of_flip_y, ?ymaxi_of_flip_x; simpl snd; apply ymaxi_of_convmat.
Qed.

(** The algebra of the three state transformers. *)
Lemma matmul_convmat_involutive (m : mat4) : matmul convmat (matmul convmat m) = m.
Proof.
  rewrite !matmul_convmat. break_mat m. mat_compute.
  now rewrite !Ropp_involutive.
Qed.

Lemma convmat_entry_cases (m : mat4) (r c : nat) :
  entry (matmul convmat m) r c = entry m r c \/
  entry (matmul convmat m) r c = - entry m r c.
Proof.
  rewrite matmul_convmat. break_mat m.
  break_index r; break_index c; simpl; auto.
Qed.

Lemma flip_x_involutive (s : volume * mat4) : flip_x (flip_x s) = s.
Proof.
  destruct s as [vol m]. unfold flip_x. rewrite flip2_involutive. f_equal.
  break_mat m. mat_ring.
Qed.

Lemma flip_y_involutive (s : volume * mat4) : flip_y (flip_y s) = s.
Proof.
  destruct s as [vol m]. unfold flip_y. rewrite flip1_involutive. f_equal.
  break_mat m. mat_ring.
Qed.

Lemma flip_x_flip_y (s : volume * mat4) : flip_x (flip_y s) = flip_y (flip_x s).
Proof.
  destruct s as [vol m]. unfold flip_x, flip_y. rewrite flip1_flip2. f_equal.
  break_mat m. mat_ring.
Qed.

Lemma convmat_flip_x (s : volume * mat4) :
  (fst (flip_x s), matmul convmat (snd (flip_x s))) =
  flip_x (fst s, matmul convmat (snd s)).
Proof.
  destruct s as [vol m]. unfold flip_x. simpl fst. simpl snd. f_equal.
  rewrite !matmul_convmat. break_mat m. mat_ring.
Qed.

Lemma convmat_flip_y (s : volume * mat4) :
  (fst (flip_y s), matmul convmat (snd (flip_y s))) =
  flip_y (fst s, matmul convmat (snd s)).
Proof.
  destruct s as [vol m]. unfold flip_y. simpl fst. simpl snd. f_equal.
  rewrite !matmul_convmat. break_mat m. mat_ring.
Qed.

Lemma convert_coords_state (s : volume * mat4) :
  convert_coords (fst s) (snd s) =
  let d := (fst s, matmul convmat (snd s)) in
  let s1 := if Rlt_dec (entry (snd d) (xmaxi_of (snd s)) 0) 0 then flip_x d else d in
  if Rlt_dec (entry (snd s1) (ymaxi_of (snd s)) 1) 0 then flip_y s1 else s1.
Proof. apply convert_coords_unfold. Qed.

(** Only such matrices come back: a pair that two calls reproduce is a
    result of [convert_coords]. *)
Lemma convert_coords_twice_only_canonical (vol : volume) (mat : mat4) :
  convert_coords (fst (convert_coords vol mat)) (snd (convert_coords vol mat)) = (vol, mat) ->
  0 <= entry mat (xmaxi_of mat) 0 /\ 0 <= entry mat (ymaxi_of mat) 1.
Proof.
  intros H.
  pose proof (convert_coords_canonical (fst (convert_coords vol mat))
                (snd (convert_coords vol mat))) as C.
  rewrite H, xmaxi_of_convert_coords, ymaxi_of_convert_coords in C. exact C.
Qed.

(** C3 (amended).  In exact arithmetic (real numbers): for a matrix whose
    entries at [(xmaxi, 0)] and [(ymaxi, 1)] are already non-negative, as
    every output of [convert_coords] is, applying [convert_coords] twice
    gives back the voxel array and the matrix it started from. *)
Theorem convert_coords_twice (vol : volume) (mat : mat4) :
  0 <= entry mat (xmaxi_of mat) 0 ->
  0 <= entry mat (ymaxi_of mat) 1 ->
  convert_coords (fst (convert_coords vol mat)) (snd (convert_coords vol mat)) = (vol, mat).
Proof.
  intros Hx Hy.
  remember (convert_coords vol mat) as s' eqn:E.
  assert (Hxm : xmaxi_of (snd s') = xmaxi_of mat)
    by (subst; apply xmaxi_of_convert_coords).
  assert (Hym : ymaxi_of (snd s') = ymaxi_of mat)
    by (subst; apply ymaxi_of_convert_coords).
  rewrite convert_coords_unfold in E. cbv zeta in E.
  destruct (convmat_entry_cases mat (xmaxi_of mat) 0) as [Ex|Ex];
  destruct (convmat_entry_cases mat (ymaxi_of mat) 1) as [Ey|Ey].
  all: revert E; repeat (norm_entries; split_cond); intros E; subst s'.
  all: rewrite convert_coords_state; cbv zeta; rewrite Hxm, Hym;
    rewrite ?convmat_flip_y, ?convmat_flip_x; cbn [fst snd];
    rewrite matmul_convmat_involutive.
  all: repeat (norm_entries; split_cond).
  all: rewrite ?(flip_x_flip_y (flip_x _)), ?flip_x_involutive, ?flip_y_involutive;
    reflexivity.
Qed.

Lemma extent_minus_1_INR (n : nat) : extent_minus_1 n = INR n - 1.
Proof. unfold extent_minus_1. rewrite minus_IZR, <- INR_IZR_INZ. reflexivity. Qed.

Lemma mirror_lt (n i : nat) : (i < n)%nat -> (mirror n i < n)%nat.
Proof. unfold mirror. lia. Qed.

Lemma mirror_involutive (n i : nat) : (i < n)%nat -> mirror n (mirror n i) = i.
Proof. unfold mirror. lia. Qed.

Lemma INR_mirror (n i : nat) : (i < n)%nat -> INR (mirror n i) = INR n - 1 - INR i.
Proof.
  intros H. unfold mirror. rewrite !minus_INR by lia. simpl. ring.
Qed.

Lemma nth_error_rev_mirror {A : Type} (l : list A) (i : nat) :
  (i < length l)%nat -> nth_error (rev l) (mirror (length l) i) = nth_error l i.
Proof.
  intros H. rewrite nth_error_rev. unfold mirror.
  destruct (Nat.ltb_spec (length l - 1 - i) (length l)); [|lia].
  f_equal. lia.
Qed.

Lemma Permutation_concat_pointwise {A : Type} (f : list A -> list A) (l : list (list A)) :
  (forall x, Permutation (f x) x) -> Permutation (concat (map f l)) (concat l).
Proof.
  intros H. induction l as [|x l IH]; simpl.
  - constructor.
  - apply Permutation_app; auto.
Qed.

Lemma Permutation_concat_rev {A : Type} (l : list (list A)) :
  Permutation (concat (rev l)) (concat l).
Proof.
  induction l as [|x l IH]; simpl.
  - constructor.
  - rewrite concat_app. simpl. rewrite app_nil_r.
    rewrite Permutation_app_comm. now apply Permutation_app_head.
Qed.

Lemma flat_flip2 (vol : volume) : Permutation (flat (flip2 vol)) (flat vol).
Proof.
  unfold flat, flip2; simpl. induction (voxels vol) as [|s l IH]; simpl.
  - constructor.
  - rewrite !concat_app. apply Permutation_app; auto.
    apply Permutation_concat_pointwise. intros r. symmetry. apply Permutation_rev.
Qed.

Lemma flat_flip1 (vol : volume) : Permutation (flat (flip1 vol)) (flat vol).
Proof.
  unfold flat, flip1; simpl. induction (voxels vol) as [|s l IH]; simpl.
  - constructor.
  - rewrite !concat_app. apply Permutation_app; auto.
    apply Permutation_concat_rev.
Qed.

Lemma well_shaped_flip2 (vol : volume) : well_shaped vol -> well_shaped (flip2 vol).
Proof.
  unfold well_shaped, flip2; simpl. destruct (shape vol) as [[n h] w].
  intros [Hn Hs]. split.
  - now rewrite length_map.
  - apply Forall_map. eapply Forall_impl; [|exact Hs]. simpl.
    intros s [Hh Hr]. split.
    + now rewrite length_map.
    + apply Forall_map. eapply Forall_impl; [|exact Hr]. simpl.
      intros r Hw. now rewrite length_rev.
Qed.

Lemma well_shaped_flip1 (vol : volume) : well_shaped vol -> well_shaped (flip1 vol).
Proof.
  unfold well_shaped, flip1; simpl. destruct (shape vol) as [[n h] w].
  intros [Hn Hs]. split.
  - now rewrite length_map.
  - apply Forall_map. eapply Forall_impl; [|exact Hs]. simpl.
    intros s [Hh Hr]. split.
    + now rewrite length_rev.
    + apply Forall_rev. exact Hr.
Qed.

(** In a well-shaped volume every index in range holds a value. *)
Lemma well_shaped_lookup (vol : volume) (n h w k j i : nat) :
  shape vol = (n, h, w) -> well_shaped vol ->
  (k < n)%nat -> (j < h)%nat -> (i < w)%nat ->
  exists s r a,
    nth_error (voxels vol) k = Some s /\ length s = h /\
    nth_error s j = Some r /\ length r = w /\
    nth_error r i = Some a.
Proof.
  unfold well_shaped. intros -> [Hn Hs] Hk Hj Hi.
  destruct (nth_error (voxels vol) k) as [s|] eqn:Es.
  2:{ apply nth_error_None in Es. exfalso; lia. }
  pose proof (proj1 (Forall_forall _ _) Hs s (nth_error_In _ _ Es)) as [Hh Hr].
  destruct (nth_error s j) as [r|] eqn:Er.
  2:{ apply nth_error_None in Er. exfalso; lia. }
  pose proof (proj1 (Forall_forall _ _) Hr r (nth_error_In _ _ Er)) as Hw.
  cbv beta in Hw.
  destruct (nth_error r i) as [a|] eqn:Ea.
  2:{ apply nth_error_None in Ea. exfalso; lia. }
  exists s, r, a. auto.
Qed.

Lemma voxel_flip2 (vol : volume) (n h w k j i : nat) :
  shape vol = (n, h, w) -> well_shaped vol ->
  (k < n)%nat -> (j < h)%nat -> (i < w)%nat ->
  exists a, voxel vol k j i = Some a /\ voxel (flip2 vol) k j (mirror w i) = Some a.
Proof.
  intros Hsh Hws Hk Hj Hi.
  destruct (well_shaped_lookup vol n h w k j i Hsh Hws Hk Hj Hi)
    as (s & r & a & Es & Hh & Er & Hw & Ea).
  exists a. unfold voxel, flip2; simpl.
  rewrite Es, Er, Ea. split; [reflexivity|].
  rewrite nth_error_map, Es. simpl. rewrite nth_error_map, Er. simpl.
  rewrite <- Hw. rewrite nth_error_rev_mirror by lia. exact Ea.
Qed.

Lemma voxel_flip1 (vol : volume) (n h w k j i : nat) :
  shape vol = (n, h, w) -> well_shaped vol ->
  (k < n)%nat -> (j < h)%nat -> (i < w)%nat ->
  exists a, voxel vol k j i = Some a /\ voxel (flip1 vol) k (mirror h j) i = Some a.
Proof.
  intros Hsh Hws Hk Hj Hi.
  destruct (well_shaped_lookup vol n h w k j i Hsh Hws Hk Hj Hi)
    as (s & r & a & Es & Hh & Er & Hw & Ea).
  exists a. unfold voxel, flip1; simpl.
  rewrite Es, Er, Ea. split; [reflexivity|].
  rewrite nth_error_map, Es. simpl.
  rewrite <- Hh. rewrite nth_error_rev_mirror by lia. rewrite Er. exact Ea.
Qed.

Lemma physical_flip_x (vol : volume) (mat : mat4) (w i j k : nat) :
  shape2 vol = w -> (i < w)%nat ->
  physical (snd (flip_x (vol, mat))) (mirror w i) j k = physical mat i j k.
Proof.
  intros Hw Hi. unfold physical, flip_x. cbn [snd].
  change (shape2 (flip2 vol)) with (shape2 vol). rewrite Hw.
  rewrite extent_minus_1_INR, INR_mirror by assumption.
  generalize (INR w) (INR i) (INR j) (INR k). intros W I J K.
  break_mat mat. mat_compute. apply (f_equal4 V4); ring.
Qed.

Lemma physical_flip_y (vol : volume) (mat : mat4) (h i j k : nat) :
  shape1 vol = h -> (j < h)%nat ->
  physical (snd (flip_y (vol, mat))) i (mirror h j) k = physical mat i j k.
Proof.
  intros Hh Hj. unfold physical, flip_y. cbn [snd].
  change (shape1 (flip1 vol)) with (shape1 vol). rewrite Hh.
  rewrite extent_minus_1_INR, INR_mirror by assumption.
  generalize (INR h) (INR i) (INR j) (INR k). intros H I J K.
  break_mat mat. mat_compute. apply (f_equal4 V4); ring.
Qed.

Lemma convert_coords_branches (vol : volume) (mat : mat4) :
  exists bx b_y : bool,
    convert_coords vol mat =
    (if b_y then flip_y else fun s => s)
      ((if bx then flip_x else fun s => s) (vol, matmul convmat mat)).
Proof.
  rewrite convert_coords_unfold. cbv zeta.
  destruct (Rlt_dec (entry (matmul convmat mat) (xmaxi_of mat) 0) 0);
    [exists true|exists false];
    (destruct (Rlt_dec _ _); [exists true|exists false]); reflexivity.
Qed.

(** C2 (amended).  Each flip branch of [convert_coords] keeps the shape,
    keeps the voxel values up to their order, and moves the value at
    column [i] (row [j]) to the mirrored column (row); in exact
    arithmetic (real numbers) the updated matrix maps the mirrored index
    to the physical point the old matrix gave to the old index.
    [convert_coords] is the sign change of the matrix followed by the
    branches it takes. *)
Theorem flips_preserve_geometry (vol : volume) (mat : mat4) (n h w : nat) :
  shape vol = (n, h, w) ->
  well_shaped vol ->
  (let s := flip_x (vol, mat) in
   shape (fst s) = shape vol /\ well_shaped (fst s) /\
   Permutation (flat (fst s)) (flat vol) /\
   forall k j i, (k < n)%nat -> (j < h)%nat -> (i < w)%nat ->
     (mirror w i < w)%nat /\ mirror w (mirror w i) = i /\
     (exists a, voxel vol k j i = Some a /\ voxel (fst s) k j (mirror w i) = Some a) /\
     physical (snd s) (mirror w i) j k = physical mat i j k) /\
  (let s := flip_y (vol, mat) in
   shape (fst s) = shape vol /\ well_shaped (fst s) /\
   Permutation (flat (fst s)) (flat vol) /\
   forall k j i, (k < n)%nat -> (j < h)%nat -> (i < w)%nat ->
     (mirror h j < h)%nat /\ mirror h (mirror h j) = j /\
     (exists a, voxel vol k j i = Some a /\ voxel (fst s) k (mirror h j) i = Some a) /\
     physical (snd s) i (mirror h j) k = physical mat i j k) /\
  (exists bx b_y : bool,
     convert_coords vol mat =
     (if b_y then flip_y else fun s => s)
       ((if bx then flip_x else fun s => s) (vol, matmul convmat mat))).
Proof.
  intros Hsh Hws. split; [|split].
  - cbv zeta. change (fst (flip_x (vol, mat))) with (flip2 vol).
    split; [reflexivity|]. split; [now apply well_shaped_flip2|].
    split; [apply flat_flip2|].
    intros k j i Hk Hj Hi.
    split; [now apply mirror_lt|]. split; [now apply mirror_involutive|].
    split; [now apply (voxel_flip2 vol n h w)|].
    apply physical_flip_x; [|assumption]. unfold shape2. now rewrite Hsh.
  - cbv zeta. change (fst (flip_y (vol, mat))) with (flip1 vol).
    split; [reflexivity|]. split; [now apply well_shaped_flip1|].
    split; [apply flat_flip1|].
    intros k j i Hk Hj Hi.
    split; [now apply mirror_lt|]. split; [now apply mirror_involutive|].
    split; [now apply (voxel_flip1 vol n h w)|].
    apply physical_flip_y; [|assumption]. unfold shape1. now rewrite Hsh.
  - apply convert_coords_branches.
Qed.

(** *** The translation update on binary64 *)

(** On binary64 the flip of x is taken on [head_scan_lps] (its entry
    [(0, 0)] is [-0.9375]) and stores [fl(59.3 - 239.0625)] as the
    translation: the matrix before the flip gives column 0 the point
    x = 59.3 ([8345733059470950 * 2^-47]), the matrix after it gives the
    mirrored column 255 the point x = [8345733059470952 * 2^-47], two
    units in the last place away. *)
Lemma flip_x_binary64_moves_point :
  PrimFloat.ltb (Binary64.entry head_scan_lps 0 0) PrimFloat.zero = true /\
  map FloatOps.Prim2SF (Binary64.physical head_scan_lps 0 0 0) =
    [SpecFloat.S754_finite false 8345733059470950 (-47);
     SpecFloat.S754_finite false 8345733059470950 (-47);
     SpecFloat.S754_zero false;
     SpecFloat.S754_finite false 4503599627370496 (-52)] /\
  map FloatOps.Prim2SF (Binary64.physical (Binary64.flip 0 256 head_scan_lps) 255 0 0) =
    [SpecFloat.S754_finite false 8345733059470952 (-47);
     SpecFloat.S754_finite false 8345733059470950 (-47);
     SpecFloat.S754_zero false;
     SpecFloat.S754_finite false 4503599627370496 (-52)] /\
  PrimFloat.eqb
    (nth 0 (Binary64.physical (Binary64.flip 0 256 head_scan_lps) 255 0 0) PrimFloat.zero)
    (nth 0 (Binary64.physical head_scan_lps 0 0 0) PrimFloat.zero) = false.
Proof. repeat split; vm_compute; reflexivity. Qed.

(** On binary64 two calls of [convert_coords] on [head_scan], whose
    entries [(0, 0)] and [(1, 1)] are positive, give back every entry
    but the translation: [-59.3] comes back as
    [fl(fl(59.3 - 239.0625) + 239.0625)], two units in the last place
    below. *)
Lemma convert_coords_twice_binary64_drift :
  let once := Binary64.convert_coords 256 256 head_scan in
  let twice := Binary64.convert_coords 256 256 once in
  (forall i j, (j < 3)%nat -> Binary64.entry twice i j = Binary64.entry head_scan i j) /\
  Binary64.entry twice 2 3 = Binary64.entry head_scan 2 3 /\
  Binary64.entry twice 3 3 = Binary64.entry head_scan 3 3 /\
  FloatOps.Prim2SF (Binary64.entry head_scan 0 3) =
    SpecFloat.S754_finite true 8345733059470950 (-47) /\
  FloatOps.Prim2SF (Binary64.entry twice 0 3) =
    SpecFloat.S754_finite true 8345733059470952 (-47) /\
  FloatOps.Prim2SF (Binary64.entry twice 1 3) =
    SpecFloat.S754_finite true 8345733059470952 (-47) /\
  PrimFloat.eqb (Binary64.entry twice 0 3) (Binary64.entry head_scan 0 3) = false.
Proof.
  cbv zeta. split; [|repeat split; vm_compute; reflexivity].
  intros i j Hj.
  destruct j as [|[|[|j]]]; [| | |lia];
    (destruct i as [|[|[|[|i]]]]; [vm_compute; reflexivity..|]);
    unfold Binary64.entry; rewrite !(nth_overflow _ (n := S (S (S (S i)))));
    try reflexivity; vm_compute; lia.
Qed.

Ltac eval_argmax :=
  unfold xmaxi_of, ymaxi_of, argmax, to_list4; mat_compute; cbn [argmax_from];
  unfold Rabs; decide_reals; try reflexivity.

Lemma xmaxi_of_diag (a b c : R) :
  a <> 0 -> xmaxi_of (M4 (V4 a 0 0 0) (V4 0 b 0 0) (V4 0 0 c 0) (V4 0 0 0 1)) = 0%nat.
Proof. intros Ha. eval_argmax. Qed.

Lemma ymaxi_of_diag (a b c : R) :
  a <> 0 -> b <> 0 ->
  ymaxi_of (M4 (V4 a 0 0 0) (V4 0 b 0 0) (V4 0 0 c 0) (V4 0 0 0 1)) = 1%nat.
Proof.
  intros Ha Hb. unfold ymaxi_of. rewrite xmaxi_of_diag by assumption. eval_argmax.
Qed.

Tactic Notation "entry_compute" "in" hyp(H) :=
  cbv beta iota delta [entry row nth4 row0 row1 row2 row3 x0 x1 x2 x3 vopp4] in H.

Ltac split_cond_eval :=
  match goal with
  | |- context [Rlt_dec ?a ?b] =>
      lazymatch a with
      | context [Rlt_dec _ _] => fail
      | _ =>
          let H := fresh "C" in
          destruct (Rlt_dec a b) as [H|H]; entry_compute in H; try (exfalso; lra)
      end
  end.

(** Evaluate [convert_coords] once the dominant rows are known. *)
Ltac eval_convert :=
  cbv zeta; rewrite ?matmul_convmat;
  repeat (norm_entries; split_cond_eval);
  unfold flip_x, flip_y, flip1, flip2, extent_minus_1, shape1, shape2;
  cbn [fst snd shape voxels map rev app];
  mat_compute;
  apply (f_equal2 (@pair volume mat4));
    [ reflexivity
    | unfold eye4; apply (f_equal4 M4); apply (f_equal4 V4); simpl; lra ].

Lemma convert_coords_mirrored_x :
  convert_coords two_voxels mirrored_x = (two_voxels, eye4).
Proof.
  unfold mirrored_x, two_voxels.
  rewrite convert_coords_unfold, xmaxi_of_diag, ymaxi_of_diag by lra.
  eval_convert.
Qed.

Lemma convert_coords_eye4 :
  convert_coords two_voxels eye4 =
  (Volume (1, 1, 2)%nat [[[2; 1]]],
   M4 (V4 1 0 0 (-1)) (V4 0 1 0 0) (V4 0 0 1 0) (V4 0 0 0 1)).
Proof.
  unfold eye4, two_voxels.
  rewrite convert_coords_unfold, xmaxi_of_diag, ymaxi_of_diag by lra.
  eval_convert.
Qed.

(** The matrix of five axial slices 2 mm apart, with a 5x4x4 volume of
    constant intensity: both axes are flipped and the origin moves to the
    opposite corner of the slice. *)
Example convert_coords_axial_stack :
  convert_coords (Volume (5, 4, 4)%nat (repeat (repeat (repeat 10 4) 4) 5))
                 (M4 (V4 1 0 0 0) (V4 0 1 0 0) (V4 0 0 2 0) (V4 0 0 0 1)) =
  (Volume (5, 4, 4)%nat (repeat (repeat (repeat 10 4) 4) 5),
   M4 (V4 1 0 0 (-3)) (V4 0 1 0 (-3)) (V4 0 0 2 0) (V4 0 0 0 1)).
Proof.
  rewrite convert_coords_unfold, xmaxi_of_diag, ymaxi_of_diag by lra.
  eval_convert.
Qed.

Lemma xmaxi_of_rotated : xmaxi_of rotated_affine = 0%nat.
Proof. unfold rotated_affine. eval_argmax. Qed.

Lemma ymaxi_of_rotated : ymaxi_of rotated_affine = 1%nat.
Proof. unfold ymaxi_of. rewrite xmaxi_of_rotated. unfold rotated_affine. eval_argmax. Qed.

Lemma convert_coords_rotated :
  convert_coords two_voxels rotated_affine =
  (two_voxels, M4 (V4 0.8 6 0 0) (V4 (-0.6) 8 0 0) (V4 0 0 1 0) (V4 0 0 0 1)).
Proof.
  rewrite convert_coords_unfold, xmaxi_of_rotated, ymaxi_of_rotated.
  unfold rotated_affine, two_voxels. eval_convert.
Qed.


Lemma convert_coords_twice_counterexample :
  convert_coords (fst (convert_coords two_voxels mirrored_x))
                 (snd (convert_coords two_voxels mirrored_x)) =
  (Volume (1, 1, 2)%nat [[[2; 1]]],
   M4 (V4 1 0 0 (-1)) (V4 0 1 0 0) (V4 0 0 1 0) (V4 0 0 0 1)) /\
  convert_coords (fst (convert_coords two_voxels mirrored_x))
                 (snd (convert_coords two_voxels mirrored_x)) <>
  (two_voxels, mirrored_x).
Proof.
  rewrite convert_coords_mirrored_x. cbn [fst snd]. rewrite convert_coords_eye4.
  split; [reflexivity|].
  intros H. apply (f_equal (fun s => x0 (row0 (snd s)))) in H. simpl in H. lra.
Qed.

Lemma convert_coords_twice_witness :
  (0 <= entry eye4 (xmaxi_of eye4) 0 /\ 0 <= entry eye4 (ymaxi_of eye4) 1) /\
  convert_coords (fst (convert_coords two_voxels eye4))
                 (snd (convert_coords two_voxels eye4)) = (two_voxels, eye4).
Proof.
  assert (Hx : 0 <= entry eye4 (xmaxi_of eye4) 0).
  { unfold eye4. rewrite xmaxi_of_diag by lra. simpl. lra. }
  assert (Hy : 0 <= entry eye4 (ymaxi_of eye4) 1).
  { unfold eye4. rewrite ymaxi_of_diag by lra. simpl. lra. }
  split; [split; assumption|].
  exact (convert_coords_twice two_voxels eye4 Hx Hy).
Defined.

Lemma flips_preserve_geometry_witness :
  (shape two_voxels = (1, 1, 2)%nat /\ well_shaped two_voxels) /\
  physical (snd (flip_x (two_voxels, eye4))) (mirror 2 0) 0 0 = physical eye4 0 0 0 /\
  voxel (fst (flip_x (two_voxels, eye4))) 0 0 (mirror 2 0) = Some 1.
Proof.
  assert (Hs : shape two_voxels = (1, 1, 2)%nat) by reflexivity.
  assert (Hw : well_shaped two_voxels).
  { unfold well_shaped, two_voxels; simpl. repeat constructor. }
  split; [split; assumption|].
  destruct (flips_preserve_geometry two_voxels eye4 1 1 2 Hs Hw) as [Hx _].
  destruct Hx as (_ & _ & _ & Hi).
  destruct (Hi 0%nat 0%nat 0%nat ltac:(lia) ltac:(lia) ltac:(lia)) as (_ & _ & (a & Ha & Hb) & Hp).
  split; [exact Hp|].
  rewrite Hb, <- Ha. reflexivity.
Defined.

End NormalizerFacts.

(** ** The volume reconstructor *)

Section ReconstructorFacts.

Import Reconstructor.

Lemma Rabs_bound (a b : R) : Rabs a <= b -> - b <= a <= b.
Proof. unfold Rabs. destruct (Rcase_abs a); lra. Qed.

Lemma tol_pos : 0 < tol.
Proof. unfold tol. lra. Qed.

Lemma snap_cases (a : R) : (snap a = 0 /\ Rabs a < tol) \/ (snap a = a /\ tol <= Rabs a).
Proof. unfold snap. destruct (Rlt_dec (Rabs a) tol); [left|right]; split; lra. Qed.

(** After [snap], a value of magnitude below [1e-6] is exactly zero. *)
Lemma snap_small_zero (a : R) : Rabs (snap a) < tol -> snap a = 0.
Proof. destruct (snap_cases a) as [[E H]|[E H]]; rewrite E; [reflexivity|lra]. Qed.

Lemma snap_0 : snap 0 = 0.
Proof. unfold snap. destruct (Rlt_dec _ _); reflexivity. Qed.

Lemma sign_cases (a : R) :
  (sign a = -1 /\ a < 0) \/ (sign a = 0 /\ a = 0) \/ (sign a = 1 /\ 0 < a).
Proof.
  unfold sign. destruct (Rlt_dec a 0); [left; split; lra|].
  destruct (Rlt_dec 0 a); [right; right; split; lra|right; left; split; lra].
Qed.

(** [rint] is within one half of its argument. *)
Lemma rint_close (a : R) : Rabs (IZR (rint a) - a) <= 1 / 2.
Proof.
  unfold rint. destruct (base_Int_part a) as [H1 H2].
  set (f := Int_part a) in *.
  destruct (Rlt_dec (a - IZR f) (1 / 2)).
  - apply Rabs_le. lra.
  - destruct (Rlt_dec (1 / 2) (a - IZR f)).
    + rewrite plus_IZR. apply Rabs_le. lra.
    + destruct (Z.even f); [|rewrite plus_IZR]; apply Rabs_le; lra.
Qed.

Lemma round7_close (a : R) : Rabs (round7 a - a) <= 5e-8.
Proof.
  unfold round7. pose proof (rint_close (a * 1e7)) as H.
  apply Rabs_bound in H. apply Rabs_le. lra.
Qed.

Lemma rint_IZR (z : Z) : rint (IZR z) = z.
Proof.
  unfold rint. replace (Int_part (IZR z)) with z.
  - destruct (Rlt_dec (IZR z - IZR z) (1 / 2)); [reflexivity|lra].
  - apply Int_part_spec. lra.
Qed.

Lemma round7_0 : round7 0 = 0.
Proof.
  unfold round7. replace (0 * 1e7) with (IZR 0) by (simpl; lra).
  rewrite rint_IZR. simpl. lra.
Qed.

Lemma norm3_nonneg (v : vec3) : 0 <= norm3 v.
Proof. apply sqrt_pos. Qed.

Lemma norm3_sqr (v : vec3) :
  norm3 v * norm3 v = vx v * vx v + vy v * vy v + vz v * vz v.
Proof. unfold norm3. apply sqrt_sqrt. nra. Qed.

Lemma norm3_zero : norm3 (V3 0 0 0) = 0.
Proof. unfold norm3; simpl. replace (0 * 0 + 0 * 0 + 0 * 0) with 0 by ring. apply sqrt_0. Qed.

Lemma snap_sqr_gap (a : R) : 0 <= a * a - snap a * snap a < tol * tol.
Proof.
  pose proof tol_pos.
  destruct (snap_cases a) as [[E H']|[E H']]; rewrite E.
  - unfold Rabs in H'. destruct (Rcase_abs a); nra.
  - nra.
Qed.

Lemma root_gap (A B qa qb : R) :
  0 <= A -> 0 <= B -> A * A = qa -> B * B = qb -> 0 <= qa - qb < 3e-12 ->
  B <= A /\ A - B <= 1.74e-6.
Proof.
  intros HA HB EA EB Hq.
  assert (HBA : B <= A).
  { destruct (Rle_dec B A) as [|N]; [assumption|exfalso].
    assert (0 < (B - A) * (B + A)) by (apply Rmult_lt_0_compat; lra).
    nra. }
  split; [exact HBA|].
  destruct (Rle_dec (A - B) 1.74e-6) as [|N]; [assumption|exfalso].
  assert (0 <= (A - B) * (2 * B)) by (apply Rmult_le_pos; lra).
  assert (1.74e-6 * 1.74e-6 < (A - B) * (A - B)) by (apply Rmult_le_0_lt_compat; lra).
  nra.
Qed.

(** Snapping shortens a vector by less than [sqrt 3 * 1e-6]. *)
Lemma norm3_snap3 (v : vec3) :
  norm3 (snap3 v) <= norm3 v /\ norm3 v - norm3 (snap3 v) <= 1.74e-6.
Proof.
  apply (root_gap _ _ _ _ (norm3_nonneg v) (norm3_nonneg (snap3 v))
           (norm3_sqr v) (norm3_sqr (snap3 v))).
  destruct v as [a b c]. simpl.
  pose proof (snap_sqr_gap a). pose proof (snap_sqr_gap b). pose proof (snap_sqr_gap c).
  unfold tol in *. lra.
Qed.

Lemma create_affine_value ipp iop p0 rest :
  create_affine ipp iop (p0 :: rest) =
  Ok (M4 (V4 (vx (unit_u iop) * fst p0) (vx (unit_v iop) * snd p0)
             (vx (fit_vec ipp)) (vx (fit_pos ipp)))
         (V4 (vy (unit_u iop) * fst p0) (vy (unit_v iop) * snd p0)
             (vy (fit_vec ipp)) (vy (fit_pos ipp)))
         (V4 (vz (unit_u iop) * fst p0) (vz (unit_v iop) * snd p0)
             (vz (fit_vec ipp)) (vz (fit_pos ipp)))
         (V4 0 0 0 1),
      V4 (sign (handedness ipp iop)) (fst p0) (snd p0) (slice_spacing ipp),
      (if Rlt_dec (fst p0 * tol) (spacing_deviation (p0 :: rest) p0)
       then [warn_spacing] else []) ++
      (if Rlt_dec tol (Rabs (sign (handedness ipp iop) * handedness ipp iop
                             - slice_spacing ipp))
       then [warn_orthogonal] else [])).
Proof. reflexivity. Qed.

(** *** Sums over a column *)

Lemma sum_idx_ext (f g : nat -> R -> R) (k : nat) (l : list R) :
  (forall i y, f i y = g i y) -> sum_idx f k l = sum_idx g k l.
Proof.
  intros H. revert k. induction l as [|y l IH]; intros k; simpl; [reflexivity|].
  now rewrite H, IH.
Qed.

Lemma sum_idx_linear (f g : nat -> R -> R) (c d : R) (k : nat) (l : list R) :
  sum_idx (fun i y => c * f i y + d * g i y) k l =
  c * sum_idx f k l + d * sum_idx g k l.
Proof.
  revert k. induction l as [|y l IH]; intros k; simpl; [ring|].
  rewrite IH. ring.
Qed.

Lemma sum_idx_one (k : nat) (l : list R) :
  sum_idx (fun _ _ => 1) k l = INR (length l).
Proof.
  revert k. induction l as [|y l IH]; intros k; [reflexivity|].
  cbn [sum_idx length]. rewrite IH, S_INR. ring.
Qed.

Lemma sum_idx_index (k : nat) (l : list R) :
  sum_idx (fun i _ => INR i) k l =
  INR (length l) * INR k + INR (length l) * (INR (length l) - 1) / 2.
Proof.
  revert k. induction l as [|y l IH]; intros k.
  - simpl. field.
  - cbn [sum_idx length]. rewrite IH, !S_INR. field.
Qed.

Lemma sum_idx_index_sqr (k : nat) (l : list R) :
  sum_idx (fun i _ => INR i * INR i) k l =
  INR (length l) * INR k * INR k + INR k * INR (length l) * (INR (length l) - 1)
  + (INR (length l) - 1) * INR (length l) * (2 * INR (length l) - 1) / 6.
Proof.
  revert k. induction l as [|y l IH]; intros k.
  - simpl. field.
  - cbn [sum_idx length]. rewrite IH, !S_INR. field.
Qed.

(** The determinant of the normal equations is positive from two slices on. *)
Lemma normal_det_pos (l : list R) :
  (2 <= length l)%nat ->
  0 < INR (length l) * sum_idx (fun i _ => INR i * INR i) 0 l
      - sum_idx (fun i _ => INR i) 0 l * sum_idx (fun i _ => INR i) 0 l.
Proof.
  intros H. rewrite sum_idx_index, sum_idx_index_sqr. simpl (INR 0).
  apply le_INR in H. simpl in H. set (n := INR (length l)) in *.
  replace (n * (n * 0 * 0 + 0 * n * (n - 1) + (n - 1) * n * (2 * n - 1) / 6) -
           (n * 0 + n * (n - 1) / 2) * (n * 0 + n * (n - 1) / 2))
    with (n * n * ((n - 1) * (n + 1)) / 12) by field.
  assert (0 < n * n) by nra. assert (0 < (n - 1) * (n + 1)) by nra.
  assert (0 < n * n * ((n - 1) * (n + 1))) by (apply Rmult_lt_0_compat; assumption).
  lra.
Qed.

Lemma sq_residual_expand (a b : R) (k : nat) (l : list R) :
  sum_idx (fun i y => (a * INR i + b - y) * (a * INR i + b - y)) k l =
  a * a * sum_idx (fun i _ => INR i * INR i) k l
  + 2 * a * b * sum_idx (fun i _ => INR i) k l
  + INR (length l) * b * b
  - 2 * a * sum_idx (fun i y => INR i * y) k l
  - 2 * b * sum_idx (fun _ y => y) k l
  + sum_idx (fun _ y => y * y) k l.
Proof.
  revert k. induction l as [|y l IH]; intros k.
  - simpl. ring.
  - cbn [sum_idx length]. rewrite IH, S_INR. ring.
Qed.

(** A quadratic whose gradient vanishes at [(ah, bh)] is smallest there. *)
Lemma quadratic_minimum (n s1 s2 sy sxy syy a b ah bh : R) :
  0 < n -> 0 <= n * s2 - s1 * s1 ->
  ah * s1 + n * bh = sy -> ah * s2 + bh * s1 = sxy ->
  ah * ah * s2 + 2 * ah * bh * s1 + n * bh * bh - 2 * ah * sxy - 2 * bh * sy + syy
  <= a * a * s2 + 2 * a * b * s1 + n * b * b - 2 * a * sxy - 2 * b * sy + syy.
Proof.
  intros Hn Hd E1 E2. subst sy sxy.
  assert (E : n * ((a * a * s2 + 2 * a * b * s1 + n * b * b
                    - 2 * a * (ah * s2 + bh * s1) - 2 * b * (ah * s1 + n * bh) + syy)
                   - (ah * ah * s2 + 2 * ah * bh * s1 + n * bh * bh
                      - 2 * ah * (ah * s2 + bh * s1) - 2 * bh * (ah * s1 + n * bh) + syy))
              = (n * (b - bh) + s1 * (a - ah)) * (n * (b - bh) + s1 * (a - ah))
                + (n * s2 - s1 * s1) * ((a - ah) * (a - ah))) by ring.
  assert (S1 : 0 <= (n * (b - bh) + s1 * (a - ah)) * (n * (b - bh) + s1 * (a - ah)))
    by apply Rle_0_sqr.
  assert (S2 : 0 <= (n * s2 - s1 * s1) * ((a - ah) * (a - ah)))
    by (apply Rmult_le_pos; [lra|apply Rle_0_sqr]).
  match goal with
  | |- ?x <= ?y =>
      assert (P : 0 <= n * (y - x)) by (rewrite E; lra);
      destruct (Rle_dec x y) as [|N]; [assumption|exfalso];
      assert (n * (y - x) < 0) by (apply Rmult_pos_neg; lra); lra
  end.
Qed.

Lemma lstsq_line_ge2 (ys : list R) :
  (2 <= length ys)%nat ->
  lstsq_line ys =
  (let n := INR (length ys) in
   let sx := sum_idx (fun i _ => INR i) 0 ys in
   let sxx := sum_idx (fun i _ => INR i * INR i) 0 ys in
   let sy := sum_idx (fun _ y => y) 0 ys in
   let sxy := sum_idx (fun i y => INR i * y) 0 ys in
   let slope := (n * sxy - sx * sy) / (n * sxx - sx * sx) in
   (slope, (sy - slope * sx) / n)).
Proof.
  intros H. destruct ys as [|a [|b t]]; simpl in H; try lia. reflexivity.
Qed.

(** [lstsq_line] returns a least-squares solution. *)
Lemma lstsq_line_minimises (ys : list R) (a b : R) :
  sq_residual (fst (lstsq_line ys)) (snd (lstsq_line ys)) ys <= sq_residual a b ys.
Proof.
  destruct (le_lt_dec 2 (length ys)) as [H|H].
  - rewrite lstsq_line_ge2 by assumption. cbv zeta. cbn [fst snd].
    pose proof (normal_det_pos ys H) as Hd.
    assert (Hn : 0 < INR (length ys)) by (apply lt_0_INR; lia).
    unfold sq_residual. rewrite !sq_residual_expand.
    set (n := INR (length ys)) in *.
    set (s1 := sum_idx (fun i _ => INR i) 0 ys) in *.
    set (s2 := sum_idx (fun i _ => INR i * INR i) 0 ys) in *.
    set (sy := sum_idx (fun _ y => y) 0 ys).
    set (sxy := sum_idx (fun i y => INR i * y) 0 ys).
    clearbody n s1 s2 sy sxy.
    apply quadratic_minimum; try lra; field; repeat split; nra.
  - unfold sq_residual. destruct ys as [|y [|z t]]; simpl in H; try lia.
    + simpl. lra.
    + simpl. replace (0 * 0 + y - y) with 0 by ring.
      pose proof (Rle_0_sqr (a * 0 + b - y)) as P. unfold Rsqr in P. lra.
Qed.

(** *** The fit of a perfectly regular series *)

Lemma sum_idx_map_seq (f : nat -> R -> R) (g : nat -> R) (k m : nat) :
  sum_idx f k (map g (seq k m)) =
  sum_idx (fun i _ => f i (g i)) k (map g (seq k m)).
Proof.
  revert k. induction m as [|m IH]; intros k; simpl; [reflexivity|].
  now rewrite IH.
Qed.

Lemma lstsq_line_regular (p q : R) (n : nat) :
  (2 <= n)%nat ->
  lstsq_line (map (fun i => p + INR i * q) (seq 0 n)) = (q, p).
Proof.
  intros H.
  set (l := map (fun i => p + INR i * q) (seq 0 n)).
  assert (Hl : length l = n) by (unfold l; now rewrite length_map, length_seq).
  rewrite lstsq_line_ge2 by lia. cbv zeta.
  pose proof (normal_det_pos l ltac:(lia)) as Hd.
  assert (Hn : 0 < INR (length l)) by (apply lt_0_INR; lia).
  assert (Ey : sum_idx (fun _ y => y) 0 l =
               p * INR (length l) + q * sum_idx (fun i _ => INR i) 0 l).
  { unfold l at 1. rewrite sum_idx_map_seq. fold l.
    rewrite <- (sum_idx_one 0 l).
    rewrite <- sum_idx_linear. apply sum_idx_ext. intros; ring. }
  assert (Exy : sum_idx (fun i y => INR i * y) 0 l =
                p * sum_idx (fun i _ => INR i) 0 l
                + q * sum_idx (fun i _ => INR i * INR i) 0 l).
  { unfold l at 1. rewrite sum_idx_map_seq. fold l.
    rewrite <- sum_idx_linear. apply sum_idx_ext. intros; ring. }
  rewrite Ey, Exy.
  set (m := INR (length l)) in *.
  set (s1 := sum_idx (fun i _ => INR i) 0 l) in *.
  set (s2 := sum_idx (fun i _ => INR i * INR i) 0 l) in *.
  clearbody m s1 s2.
  f_equal; field; repeat split; nra.
Qed.

Lemma lstsq_regular (p0 d : vec3) (n : nat) :
  (2 <= n)%nat -> lstsq (regular_series p0 d n) = (d, p0).
Proof.
  intros H. unfold lstsq, regular_series. rewrite !map_map. cbn [vx vy vz].
  rewrite !lstsq_line_regular by assumption. cbn [fst snd].
  destruct d, p0; reflexivity.
Qed.

Lemma snap3_keeps (d : vec3) :
  (forall c, In c [vx d; vy d; vz d] -> c = 0 \/ tol <= Rabs c) -> snap3 d = d.
Proof.
  intros H. destruct d as [a b c]. unfold snap3; simpl in *.
  assert (K : forall x, x = 0 \/ tol <= Rabs x -> snap x = x).
  { intros x [->|Hx]; [apply snap_0|].
    unfold snap. destruct (Rlt_dec (Rabs x) tol); [lra|reflexivity]. }
  rewrite !K; auto.
Qed.

(** C1 (amended).  For a series of [n >= 2] slices at [p0 + i * d] the
    least-squares slope and intercept are [d] and [p0]; [create_affine]
    puts them, snapped, in columns 2 and 3, and its slice spacing is the
    norm of the snapped [d] rounded to 7 digits.  That spacing is within
    [2e-6] of the norm of [d], and within [1e-6] when every component of
    [d] is zero or at least [1e-6] in magnitude.  In general [lstsq_line]
    returns a line of least squared residual. *)
Theorem create_affine_regular_spacing
    (p0 d : vec3) (n : nat) (iop : list iop_row) (ps0 : R * R) (rest : list (R * R)) :
  (2 <= n)%nat ->
  let ipp := regular_series p0 d n in
  lstsq ipp = (d, p0) /\
  (forall ys a b,
     sq_residual (fst (lstsq_line ys)) (snd (lstsq_line ys)) ys <= sq_residual a b ys) /\
  (exists mat qfac log,
     create_affine ipp iop (ps0 :: rest) =
       Ok (mat, V4 qfac (fst ps0) (snd ps0) (round7 (norm3 (snap3 d))), log) /\
     col mat 2 = V4 (snap (vx d)) (snap (vy d)) (snap (vz d)) 0 /\
     col mat 3 = V4 (snap (vx p0)) (snap (vy p0)) (snap (vz p0)) 1) /\
  Rabs (round7 (norm3 (snap3 d)) - norm3 d) <= 2e-6 /\
  ((forall c, In c [vx d; vy d; vz d] -> c = 0 \/ tol <= Rabs c) ->
   Rabs (round7 (norm3 (snap3 d)) - norm3 d) <= 1e-6).
Proof.
  intros Hn ipp.
  assert (E : lstsq ipp = (d, p0)) by now apply lstsq_regular.
  split; [exact E|]. split; [intros; apply lstsq_line_minimises|].
  split; [|split].
  - rewrite create_affine_value. unfold slice_spacing, fit_vec, fit_pos. rewrite E.
    cbn [fst snd]. eexists _, _, _. split; [reflexivity|].
    split; reflexivity.
  - pose proof (round7_close (norm3 (snap3 d))) as Hr. apply Rabs_bound in Hr.
    destruct (norm3_snap3 d). apply Rabs_le. lra.
  - intros Hk. rewrite (snap3_keeps d Hk).
    pose proof (round7_close (norm3 d)) as Hr. apply Rabs_bound in Hr.
    apply Rabs_le. lra.
Qed.

Lemma create_affine_regular_spacing_witness :
  (2 <= 5)%nat /\
  lstsq (regular_series (V3 0 0 0) (V3 0 0 2) 5) = (V3 0 0 2, V3 0 0 0) /\
  Rabs (round7 (norm3 (snap3 (V3 0 0 2))) - norm3 (V3 0 0 2)) <= 2e-6.
Proof.
  assert (H : (2 <= 5)%nat) by lia.
  split; [exact H|].
  destruct (create_affine_regular_spacing (V3 0 0 0) (V3 0 0 2) 5 [axial] (1, 1) [] H)
    as (E & _ & _ & B & _).
  split; [exact E|exact B].
Defined.

(** A series stepping by 0.9e-6 along every axis: the fitted step is snapped
    to zero and the spacing is 0, the true step is about 1.56e-6 long. *)
Lemma create_affine_tiny_step :
  (exists mat qfac log,
     create_affine (regular_series (V3 0 0 0) tiny_step 2) [axial; axial] [(1, 1); (1, 1)]
     = Ok (mat, V4 qfac 1 1 0, log)) /\
  1e-6 < Rabs (0 - norm3 tiny_step).
Proof.
  split.
  - rewrite create_affine_value. unfold slice_spacing, fit_vec.
    rewrite lstsq_regular by lia. cbn [fst snd].
    assert (Es : snap3 tiny_step = V3 0 0 0).
    { unfold snap3, tiny_step, snap, tol; simpl. unfold Rabs.
      repeat (destruct (Rcase_abs _); try lra);
        repeat (destruct (Rlt_dec _ _); try lra); reflexivity. }
    rewrite Es, norm3_zero, round7_0. eexists _, _, _. reflexivity.
  - assert (H : 1e-6 < norm3 tiny_step).
    { replace 1e-6 with (sqrt (1e-6 * 1e-6)) by (apply sqrt_square; lra).
      unfold norm3, tiny_step; simpl. apply sqrt_lt_1; lra. }
    unfold Rabs. destruct (Rcase_abs _); lra.
Qed.

(** *** qfac *)

(** C6 (amended).  When the averaged row and column directions are not
    the zero vector, [create_affine] returns the pixdim
    [(qfac, ps[0,0], ps[0,1], slice spacing)] with [qfac = sign(dv)],
    [dv = vec . (u x v)]: [qfac] is [-1], [0] or [1] and it is [0] exactly
    when [dv = 0]. *)
Theorem create_affine_pixdim
    (ipp : list vec3) (iop : list iop_row) (ps0 : R * R) (rest : list (R * R)) :
  oriented iop ->
  exists mat log,
    create_affine ipp iop (ps0 :: rest) =
      Ok (mat,
          V4 (sign (handedness ipp iop)) (fst ps0) (snd ps0) (slice_spacing ipp),
          log) /\
    (sign (handedness ipp iop) = -1 /\ handedness ipp iop < 0 \/
     sign (handedness ipp iop) = 0 /\ handedness ipp iop = 0 \/
     sign (handedness ipp iop) = 1 /\ 0 < handedness ipp iop).
Proof.
  intros _. rewrite create_affine_value. eexists _, _. split; [reflexivity|].
  apply sign_cases.
Qed.

(** On binary64 a zero averaged direction is divided by its length zero:
    every component becomes a NaN and the snapping of small components
    leaves it, since no comparison with a NaN holds.  With it [dv] and
    [qfac = np.sign(dv)] are NaN, here for the slice step [(0, 0, 1)] and
    the column direction [(0, 1, 0)]. *)
Lemma zero_direction_binary64 :
  let zero3 := [Binary64.of_Z 0; Binary64.of_Z 0; Binary64.of_Z 0] in
  let vec := [Binary64.of_Z 0; Binary64.of_Z 0; Binary64.of_Z 1] in
  let u := Binary64.snap (Binary64.normalized zero3) in
  let v := Binary64.snap (Binary64.normalized
                            [Binary64.of_Z 0; Binary64.of_Z 1; Binary64.of_Z 0]) in
  u = [PrimFloat.nan; PrimFloat.nan; PrimFloat.nan] /\
  v = [Binary64.of_Z 0; Binary64.of_Z 1; Binary64.of_Z 0] /\
  PrimFloat.is_nan (Binary64.sign (Binary64.dot vec (Binary64.cross u v))) = true.
Proof. cbv zeta. repeat split; vm_compute; reflexivity. Qed.

Lemma fit_vec_single (p : vec3) : fit_vec [p] = V3 0 0 0.
Proof. unfold fit_vec, lstsq, snap3; simpl. now rewrite snap_0. Qed.

Lemma handedness_single (p : vec3) (iop : list iop_row) : handedness [p] iop = 0.
Proof. unfold handedness. rewrite fit_vec_single. unfold dot3; simpl. ring. Qed.

Lemma sign_0 : sign 0 = 0.
Proof. destruct (sign_cases 0) as [[_ H]|[[H _]|[_ H]]]; lra. Qed.

(** A series of one slice: [qfac] is 0. *)
Lemma create_affine_single_slice_qfac :
  exists mat s0 s1 s2 log,
    create_affine [V3 0 0 0] [axial] [(1, 1)] = Ok (mat, V4 0 s0 s1 s2, log).
Proof.
  rewrite create_affine_value, handedness_single, sign_0.
  eexists _, _, _, _, _. reflexivity.
Qed.

(** *** The two warnings *)

Lemma warn_strings_differ : warn_spacing <> warn_orthogonal.
Proof. intros H. vm_compute in H. discriminate. Qed.


(** *** Signed zeros on binary64 *)

Lemma binary64_zero_fix (a : PrimFloat.float) :
  Binary64.zero_fix a <> PrimFloat.neg_zero /\
  (PrimFloat.eqb (Binary64.zero_fix a) PrimFloat.zero = true ->
   Binary64.zero_fix a = PrimFloat.zero).
Proof.
  unfold Binary64.zero_fix.
  destruct (PrimFloat.eqb a PrimFloat.zero) eqn:E.
  - split; [|reflexivity].
    intros H. apply (f_equal PrimFloat.classify) in H. vm_compute in H. discriminate.
  - split; [|congruence].
    intros H. subst a. vm_compute in E. discriminate.
Qed.

Lemma binary64_neg_zero_replaced :
  Binary64.eliminate_negative_zero [[PrimFloat.neg_zero; PrimFloat.one]]
  = [[PrimFloat.zero; PrimFloat.one]].
Proof. vm_compute. reflexivity. Qed.

(** *** Small components *)

Lemma mean3_single (v : vec3) : mean3 [v] = v.
Proof. destruct v as [a b c]. unfold mean3; simpl. f_equal; field. Qed.

(** C5 (amended).  In the matrix of [create_affine] every entry of columns
    2 and 3 ([vec] and [pos]) with magnitude below [1e-6] is zero, and so
    is every such component of the unit vectors [u] and [v]; columns 0 and
    1 hold [u] and [v] scaled by the pixel spacing.  On binary64,
    [mat[mat == 0.0] = 0.0] leaves no entry that is negative zero: every
    entry that compares equal to zero is [+0.0]. *)
Theorem small_components_are_zero
    (ipp : list vec3) (iop : list iop_row) (ps0 : R * R) (rest : list (R * R)) :
  (exists mat pixdim log,
     create_affine ipp iop (ps0 :: rest) = Ok (mat, pixdim, log) /\
     (forall r, Rabs (entry mat r 2) < 1e-6 -> entry mat r 2 = 0) /\
     (forall r, Rabs (entry mat r 3) < 1e-6 -> entry mat r 3 = 0) /\
     col mat 0 = V4 (vx (unit_u iop) * fst ps0) (vy (unit_u iop) * fst ps0)
                    (vz (unit_u iop) * fst ps0) 0 /\
     col mat 1 = V4 (vx (unit_v iop) * snd ps0) (vy (unit_v iop) * snd ps0)
                    (vz (unit_v iop) * snd ps0) 0 /\
     (forall c, In c [vx (unit_u iop); vy (unit_u iop); vz (unit_u iop);
                      vx (unit_v iop); vy (unit_v iop); vz (unit_v iop)] ->
                Rabs c < 1e-6 -> c = 0)) /\
  (forall (m : list (list PrimFloat.float)) (r : list PrimFloat.float) (a : PrimFloat.float),
     In r (Binary64.eliminate_negative_zero m) -> In a r ->
     a <> PrimFloat.neg_zero /\
     (PrimFloat.eqb a PrimFloat.zero = true -> a = PrimFloat.zero)).
Proof.
  split.
  - rewrite create_affine_value. eexists _, _, _. split; [reflexivity|].
    fold tol.
    split; [|split; [|split; [reflexivity|split; [reflexivity|]]]].
    + intros r. unfold fit_vec, snap3.
      break_index r; cbn [entry row nth4 row0 row1 row2 row3 x0 x1 x2 x3 vx vy vz];
        try apply snap_small_zero; reflexivity.
    + intros r. unfold fit_pos, snap3.
      break_index r; cbn [entry row nth4 row0 row1 row2 row3 x0 x1 x2 x3 vx vy vz];
        try apply snap_small_zero.
      unfold tol, Rabs. destruct (Rcase_abs 1); lra.
    + intros c Hc. unfold unit_u, unit_v, snap3 in Hc. cbn [vx vy vz] in Hc.
      simpl in Hc.
      repeat (destruct Hc as [<-|Hc]; [apply snap_small_zero|]).
      destruct Hc.
  - intros m r a Hr Ha. unfold Binary64.eliminate_negative_zero in Hr.
    apply in_map_iff in Hr. destruct Hr as (r0 & <- & _).
    apply in_map_iff in Ha. destruct Ha as (a0 & <- & _).
    apply binary64_zero_fix.
Qed.

(** A slice whose row direction is tilted by two parts in a million, with
    0.4 mm pixels. *)
Lemma create_affine_small_entry :
  exists mat pixdim log,
    create_affine [V3 0 0 0] [tilted] [(0.4, 0.4)] = Ok (mat, pixdim, log) /\
    0 < Rabs (entry mat 1 0) < 1e-6.
Proof.
  rewrite create_affine_value. eexists _, _, _. split; [reflexivity|].
  cbn [entry row nth4 row0 row1 row2 row3 x0 x1 x2 x3 fst snd].
  unfold unit_u. cbn [map iop_u tilted]. rewrite mean3_single.
  set (N := norm3 (V3 1 2e-6 0)).
  assert (HN : 1 <= N <= 2).
  { unfold N, norm3; cbn [vx vy vz]. split.
    - rewrite <- sqrt_1 at 1. apply sqrt_le_1; lra.
    - apply Rle_trans with (sqrt (2 * 2)).
      + apply sqrt_le_1; lra.
      + rewrite sqrt_square; lra. }
  clearbody N.
  assert (HI : / 2 <= / N <= 1).
  { split.
    - apply Rinv_le_contravar; lra.
    - rewrite <- Rinv_1. apply Rinv_le_contravar; lra. }
  unfold snap3, vdiv3. cbn [vx vy vz]. change (2e-6 / N) with (2e-6 * / N).
  assert (Hy : 1e-6 <= 2e-6 * / N <= 2e-6) by lra.
  unfold snap, tol.
  destruct (Rlt_dec (Rabs (2e-6 * / N)) 1e-6) as [H|H].
  - exfalso. unfold Rabs in H. destruct (Rcase_abs _); lra.
  - unfold Rabs. destruct (Rcase_abs _); lra.
Qed.

Lemma sum_list_repeat (a : R) (n : nat) : sum_list (repeat a n) = INR n * a.
Proof.
  induction n as [|n IH].
  - simpl. ring.
  - cbn [repeat sum_list fold_right]. fold (sum_list (repeat a n)).
    rewrite IH, S_INR. ring.
Qed.

Lemma mean3_repeat (v : vec3) (n : nat) : mean3 (repeat v (S n)) = v.
Proof.
  unfold mean3. rewrite !map_repeat, !sum_list_repeat, repeat_length.
  assert (INR (S n) <> 0) by (apply not_0_INR; lia).
  destruct v as [a b c]; cbn [vx vy vz]. f_equal; field; assumption.
Qed.

Lemma snap_large (a : R) : tol <= Rabs a -> snap a = a.
Proof. intros H. unfold snap. destruct (Rlt_dec (Rabs a) tol); [lra|reflexivity]. Qed.

Lemma round7_integer (z : Z) : round7 (IZR z) = IZR z.
Proof.
  unfold round7. replace (IZR z * 1e7) with (IZR (z * 10000000)).
  - rewrite rint_IZR, mult_IZR. field.
  - rewrite mult_IZR. lra.
Qed.

(** The scenario of five axial slices, 2 mm apart, with 1 mm pixels. *)
Example create_affine_axial_stack :
  create_affine (regular_series (V3 0 0 0) (V3 0 0 2) 5) (repeat axial 5) (repeat (1, 1) 5)
  = Ok (M4 (V4 1 0 0 0) (V4 0 1 0 0) (V4 0 0 2 0) (V4 0 0 0 1), V4 1 1 1 2, []).
Proof.
  cbn [repeat]. rewrite create_affine_value.
  assert (T : tol <= Rabs 1 /\ tol <= Rabs 2).
  { unfold tol, Rabs. split; destruct (Rcase_abs _); lra. }
  destruct T as [T1 T2].
  assert (Ev : fit_vec (regular_series (V3 0 0 0) (V3 0 0 2) 5) = V3 0 0 2).
  { unfold fit_vec. rewrite lstsq_regular by lia. unfold snap3; cbn [fst vx vy vz].
    now rewrite snap_0, snap_large. }
  assert (Ep : fit_pos (regular_series (V3 0 0 0) (V3 0 0 2) 5) = V3 0 0 0).
  { unfold fit_pos. rewrite lstsq_regular by lia. unfold snap3; cbn [snd vx vy vz].
    now rewrite snap_0. }
  assert (N1 : sqrt (1 * 1 + 0 * 0 + 0 * 0) = 1).
  { replace (1 * 1 + 0 * 0 + 0 * 0) with 1 by ring. apply sqrt_1. }
  assert (N2 : sqrt (0 * 0 + 1 * 1 + 0 * 0) = 1).
  { replace (0 * 0 + 1 * 1 + 0 * 0) with 1 by ring. apply sqrt_1. }
  assert (Eu : unit_u [axial; axial; axial; axial; axial] = V3 1 0 0).
  { unfold unit_u. change (map iop_u _) with (repeat (V3 1 0 0) 5).
    rewrite mean3_repeat. unfold norm3, vdiv3, snap3; cbn [vx vy vz].
    rewrite N1. replace (1 / 1) with 1 by field. replace (0 / 1) with 0 by field.
    now rewrite snap_0, snap_large. }
  assert (Ew : unit_v [axial; axial; axial; axial; axial] = V3 0 1 0).
  { unfold unit_v. change (map iop_v _) with (repeat (V3 0 1 0) 5).
    rewrite mean3_repeat. unfold norm3, vdiv3, snap3; cbn [vx vy vz].
    rewrite N2. replace (1 / 1) with 1 by field. replace (0 / 1) with 0 by field.
    now rewrite snap_0, snap_large. }
  assert (Es : slice_spacing (regular_series (V3 0 0 0) (V3 0 0 2) 5) = 2).
  { unfold slice_spacing. rewrite Ev. unfold norm3; cbn [vx vy vz].
    replace (0 * 0 + 0 * 0 + 2 * 2) with (2 * 2) by ring.
    rewrite sqrt_square by lra. apply (round7_integer 2). }
  assert (Eh : handedness (regular_series (V3 0 0 0) (V3 0 0 2) 5)
                 [axial; axial; axial; axial; axial] = 2).
  { unfold handedness. rewrite Ev, Eu, Ew. unfold dot3, cross; cbn [vx vy vz]. ring. }
  rewrite Ev, Ep, Eu, Ew, Es, Eh. cbn [vx vy vz fst snd].
  assert (Eq : sign 2 = 1).
  { destruct (sign_cases 2) as [[_ H]|[[_ H]|[H _]]]; [lra|lra|exact H]. }
  rewrite Eq.
  assert (Ed : spacing_deviation [(1, 1); (1, 1); (1, 1); (1, 1); (1, 1)] (1, 1) = 0).
  { unfold spacing_deviation, sum_list; cbn [map fold_right fst snd].
    replace (1 - 1) with 0 by ring. rewrite Rabs_R0. ring. }
  rewrite Ed.
  destruct (Rlt_dec (1 * tol) 0) as [H|_]; [unfold tol in H; lra|].
  destruct (Rlt_dec tol (Rabs (1 * 2 - 2))) as [H|_].
  { replace (1 * 2 - 2) with 0 in H by ring. rewrite Rabs_R0 in H. unfold tol in H. lra. }
  cbn [app]. repeat f_equal; ring.
Qed.

End ReconstructorFacts.

(** ** The series loader *)

Section LoaderFacts.

Import Loader.

Context {filename dataset : Type}.
Variable dcmread : filename -> result dataset.
Variable InstanceNumber : dataset -> instance_number.

Local Notation "'key'" := (sort_key InstanceNumber).
Local Notation "'keyed'" := (Forall (fun u : Z * dataset => key (snd u) = Ok (fst u))).

Lemma sort_key_ok (ds : dataset) : InstanceNumber ds <> Empty -> exists k, key ds = Ok k.
Proof.
  unfold sort_key. destruct (InstanceNumber ds); intros H; try (eexists; reflexivity).
  now contradiction H.
Qed.

Lemma read_all_readable (files : list filename) (datasets : list dataset) :
  Forall2 (fun f ds => dcmread f = Ok ds) files datasets ->
  Forall (fun ds => InstanceNumber ds <> Empty) datasets ->
  exists l, read_all dcmread InstanceNumber files = Ok l /\ map snd l = datasets /\ keyed l.
Proof.
  induction 1 as [|f ds files datasets Hf _ IH]; intros Hne.
  - exists []. repeat split. constructor.
  - destruct (IH (Forall_inv_tail Hne)) as (l & El & Es & Hk).
    destruct (sort_key_ok ds (Forall_inv Hne)) as [k Ek].
    exists ((k, ds) :: l). cbn [read_all]. rewrite Hf, Ek, El.
    split; [reflexivity|]. split; [simpl; now rewrite Es|].
    constructor; assumption.
Qed.

Lemma insert_by_key_perm (t : Z * dataset) (l : list (Z * dataset)) :
  Permutation (insert_by_key t l) (t :: l).
Proof.
  induction l as [|h r IH]; simpl.
  - reflexivity.
  - destruct (fst t <=? fst h)%Z.
    + reflexivity.
    + rewrite IH. apply perm_swap.
Qed.

Lemma sort_by_key_perm (l : list (Z * dataset)) : Permutation (sort_by_key l) l.
Proof.
  induction l as [|t l IH]; simpl.
  - reflexivity.
  - rewrite insert_by_key_perm. now constructor.
Qed.

Lemma insert_by_key_sorted (t : Z * dataset) (l : list (Z * dataset)) :
  StronglySorted (fun a b => (fst a <= fst b)%Z) l ->
  StronglySorted (fun a b => (fst a <= fst b)%Z) (insert_by_key t l).
Proof.
  induction 1 as [|h r Hs IH Hh]; simpl.
  - repeat constructor.
  - destruct (Z.leb_spec (fst t) (fst h)) as [Hle|Hgt].
    + constructor; [now constructor|].
      constructor; [assumption|].
      eapply Forall_impl; [|exact Hh]. simpl. intros; lia.
    + constructor; [assumption|].
      eapply Permutation_Forall; [symmetry; apply insert_by_key_perm|].
      constructor; [lia|assumption].
Qed.

Lemma sort_by_key_sorted (l : list (Z * dataset)) :
  StronglySorted (fun a b => (fst a <= fst b)%Z) (sort_by_key l).
Proof.
  induction l as [|t l IH]; simpl.
  - constructor.
  - now apply insert_by_key_sorted.
Qed.

(** Insertion never moves an entry past one with the same key. *)
Lemma insert_by_key_stable (k : Z) (t : Z * dataset) (l : list (Z * dataset)) :
  filter (fun u => (fst u =? k)%Z) (insert_by_key t l) =
  filter (fun u => (fst u =? k)%Z) (t :: l).
Proof.
  induction l as [|h r IH]; [reflexivity|].
  cbn [insert_by_key]. destruct (Z.leb_spec (fst t) (fst h)) as [Hle|Hgt].
  - reflexivity.
  - cbn [filter] in *. rewrite IH.
    destruct (Z.eqb_spec (fst t) k), (Z.eqb_spec (fst h) k); try reflexivity; lia.
Qed.

Lemma sort_by_key_stable (k : Z) (l : list (Z * dataset)) :
  filter (fun u => (fst u =? k)%Z) (sort_by_key l) =
  filter (fun u => (fst u =? k)%Z) l.
Proof.
  induction l as [|t l IH]; [reflexivity|].
  cbn [sort_by_key fold_right]. fold (sort_by_key l).
  rewrite insert_by_key_stable. cbn [filter]. now rewrite IH.
Qed.

(** Sortedness and stability leave a sort no choice: two lists in
    ascending key order that agree, key by key, on the order of their
    entries are equal. *)
Lemma stable_sorted_unique (l1 l2 : list (Z * dataset)) :
  StronglySorted (fun a b => (fst a <= fst b)%Z) l1 ->
  StronglySorted (fun a b => (fst a <= fst b)%Z) l2 ->
  (forall k, filter (fun u => (fst u =? k)%Z) l1 = filter (fun u => (fst u =? k)%Z) l2) ->
  l1 = l2.
Proof.
  intros S1. revert l2. induction S1 as [|x t1 S1 IH H1]; intros l2 S2 E.
  - destruct l2 as [|y t2]; [reflexivity|].
    specialize (E (fst y)). simpl in E. rewrite Z.eqb_refl in E. discriminate.
  - destruct S2 as [|y t2 S2 H2].
    + specialize (E (fst x)). simpl in E. rewrite Z.eqb_refl in E. discriminate.
    + assert (K : fst x = fst y).
      { destruct (Z.lt_trichotomy (fst x) (fst y)) as [L|[L|L]]; [|exact L|].
        - pose proof (E (fst x)) as Ex. simpl in Ex. rewrite Z.eqb_refl in Ex.
          destruct (Z.eqb_spec (fst y) (fst x)); [lia|].
          assert (In x (filter (fun u => (fst u =? fst x)%Z) t2))
            by (rewrite <- Ex; now left).
          apply filter_In in H. destruct H as [Hin _].
          rewrite Forall_forall in H2. specialize (H2 x Hin). lia.
        - pose proof (E (fst y)) as Ey. simpl in Ey. rewrite Z.eqb_refl in Ey.
          destruct (Z.eqb_spec (fst x) (fst y)); [lia|].
          assert (In y (filter (fun u => (fst u =? fst y)%Z) t1))
            by (rewrite Ey; now left).
          apply filter_In in H. destruct H as [Hin _].
          rewrite Forall_forall in H1. specialize (H1 y Hin). lia. }
      pose proof (E (fst x)) as Ex. simpl in Ex.
      rewrite Z.eqb_refl, <- K, Z.eqb_refl in Ex. injection Ex as Exy Et.
      subst y. f_equal. apply IH; [assumption|].
      intros k. specialize (E k). simpl in E.
      destruct (Z.eqb_spec (fst x) k); [|exact E].
      now injection E.
Qed.

(** Any stable ascending sort of [l] returns [sort_by_key l]. *)
Lemma sort_by_key_unique (l sorted : list (Z * dataset)) :
  StronglySorted (fun a b => (fst a <= fst b)%Z) sorted ->
  (forall k, filter (fun u => (fst u =? k)%Z) sorted = filter (fun u => (fst u =? k)%Z) l) ->
  sorted = sort_by_key l.
Proof.
  intros S E. apply stable_sorted_unique; [assumption|apply sort_by_key_sorted|].
  intros k. now rewrite E, sort_by_key_stable.
Qed.

Lemma keyed_perm (l l' : list (Z * dataset)) : Permutation l l' -> keyed l -> keyed l'.
Proof. intros P H. eapply Permutation_Forall; eassumption. Qed.

Lemma filter_map_snd (p : dataset -> bool) (l : list (Z * dataset)) :
  filter p (map snd l) = map snd (filter (fun u => p (snd u)) l).
Proof.
  induction l as [|u l IH]; simpl; [reflexivity|].
  destruct (p (snd u)); simpl; now rewrite IH.
Qed.

Lemma has_key_keyed (k : Z) (l : list (Z * dataset)) :
  keyed l ->
  filter (has_key InstanceNumber k) (map snd l) =
  map snd (filter (fun u => (fst u =? k)%Z) l).
Proof.
  intros Hk. rewrite filter_map_snd. f_equal. apply filter_ext_in.
  intros u Hu. rewrite Forall_forall in Hk. unfold has_key. now rewrite (Hk u Hu).
Qed.

Lemma keyed_keys (l : list (Z * dataset)) :
  keyed l -> Forall2 (fun ds k => key ds = Ok k) (map snd l) (map fst l).
Proof. induction 1; simpl; constructor; assumption. Qed.

Lemma sorted_keys (l : list (Z * dataset)) :
  StronglySorted (fun a b => (fst a <= fst b)%Z) l -> StronglySorted Z.le (map fst l).
Proof.
  induction 1 as [|h r Hs IH Hh]; simpl; constructor; [assumption|].
  apply Forall_map. exact Hh.
Qed.

(** In a sorted list everything before an element is below it. *)
Lemma sorted_prefix {A : Type} (le : A -> A -> Prop) (before after : list A) (x : A) :
  StronglySorted le (before ++ x :: after) -> Forall (fun d => le d x) before.
Proof.
  induction before as [|a before IH]; simpl; intros H; [constructor|].
  inversion H as [|? ? Hs Ha]; subst. constructor.
  - rewrite Forall_forall in Ha. apply Ha. apply in_elt.
  - now apply IH.
Qed.

(** In the sorted series every dataset before one with key [k] has a key
    that is no larger. *)
Lemma sorted_series_prefix (l : list (Z * dataset)) (before after : list dataset)
    (ds : dataset) (k : Z) :
  keyed l -> StronglySorted (fun a b => (fst a <= fst b)%Z) l ->
  map snd l = before ++ ds :: after -> key ds = Ok k ->
  Forall (fun d => exists j, key d = Ok j /\ (j <= k)%Z) before.
Proof.
  intros Hk Hs E Ek.
  apply map_eq_app in E. destruct E as (lb & lr & -> & Eb & Er).
  apply map_eq_cons in Er. destruct Er as (u & la & -> & Eu & Ea).
  pose proof (sorted_prefix _ _ _ _ Hs) as Hp.
  rewrite Forall_forall in Hk.
  assert (fst u = k).
  { pose proof (Hk u ltac:(apply in_elt)) as Ku. rewrite Eu in Ku. congruence. }
  subst k before. apply Forall_map. rewrite Forall_forall in Hp |- *.
  intros d Hd. exists (fst d). split; [|now apply Hp].
  apply Hk. apply in_or_app. now left.
Qed.


End LoaderFacts.

Lemma load_dicom_series_example :
  Loader.load_dicom_series sample_dcmread sample_InstanceNumber [3; 1; 4; 2; 0]%nat
  = Ok [1; 0; 4; 3; 2]%nat.
Proof. reflexivity. Qed.

Lemma sample_InstanceNumber_valued (ds : nat) : sample_InstanceNumber ds <> Loader.Empty.
Proof. destruct ds as [|[|[|[|[|ds]]]]]; discriminate. Qed.



Lemma load_dicom_series_no_files :
  Loader.load_dicom_series sample_dcmread sample_InstanceNumber [] = Ok [] /\
  ~ (exists e, Loader.load_dicom_series sample_dcmread sample_InstanceNumber [] = Raise e).
Proof.
  split; [reflexivity|]. intros [e H]. discriminate.
Qed.

(** ** [create_affine] on the store *)

Section HeapFacts.

Import Heap.

Lemma update_app_fresh {A : Type} (h fr : list A) (k : nat) (a : A) :
  update (h ++ fr) (length h + k) a = h ++ update fr k a.
Proof.
  induction h as [|x h IH]; simpl.
  - reflexivity.
  - destruct fr; simpl; now rewrite IH.
Qed.

Lemma nth_app_fresh {A : Type} (h fr : list A) (k : nat) (d : A) :
  nth (length h + k) (h ++ fr) d = nth k fr d.
Proof. apply app_nth2_plus. Qed.

Lemma bind_ret {A B : Type} (a : A) (k : A -> M B) (s : state) :
  bind (ret a) k s = k a s.
Proof. reflexivity. Qed.

Lemma bind_read {B : Type} (v : view) (k : list R -> M B) (s : state) :
  bind (read v) k s = k (peek s v) s.
Proof. reflexivity. Qed.

Lemma bind_warn {B : Type} (msg : string) (k : unit -> M B) (h : list buffer) (e : list string) :
  bind (warn msg) k (State h e) = k tt (State h (e ++ [msg])).
Proof. reflexivity. Qed.

Lemma bind_alloc {B : Type} (b : buffer) (k : nat -> M B)
    (h fr : list buffer) (e : list string) :
  bind (alloc b) k (State (h ++ fr) e) =
  k (length h + length fr)%nat (State (h ++ (fr ++ [b])) e).
Proof.
  unfold bind, alloc. cbn [bufs stderr]. now rewrite length_app, app_assoc.
Qed.

Lemma bind_write_fresh {B : Type} (j o st c : nat) (vals : list R) (k : unit -> M B)
    (h fr : list buffer) (e : list string) :
  bind (write (View (length h + j) o st c) vals) k (State (h ++ fr) e) =
  k tt (State (h ++ update fr j
                 (poke_all (nth j fr []) (View (length h + j) o st c) 0 (firstn c vals)))
              e).
Proof.
  unfold bind, write. cbn [bufs stderr base count].
  now rewrite update_app_fresh, nth_app_fresh.
Qed.

Lemma peek_fresh (j o st c : nat) (h fr : list buffer) (e : list string) :
  peek (State (h ++ fr) e) (View (length h + j) o st c) =
  map (fun k => nth (o + k * st) (nth j fr []) 0) (seq 0 c).
Proof. unfold peek. cbn [bufs base count]. now rewrite nth_app_fresh. Qed.

Lemma peek_old (v : view) (h fr : list buffer) (e e' : list string) :
  (base v < length h)%nat ->
  peek (State (h ++ fr) e) v = peek (State h e') v.
Proof. intros H. unfold peek. cbn [bufs]. now rewrite app_nth1. Qed.

Lemma frame_app (h fr : list buffer) (l : nat) (b : buffer) :
  nth_error h l = Some b -> nth_error (h ++ fr) l = Some b.
Proof.
  intros H. rewrite nth_error_app1; [assumption|].
  apply nth_error_Some. congruence.
Qed.

Lemma bind_alloc_first {B : Type} (b : buffer) (k : nat -> M B)
    (h : list buffer) (e : list string) :
  bind (alloc b) k (State h e) = k (length h + 0)%nat (State (h ++ [b]) e).
Proof. unfold bind, alloc. cbn [bufs stderr]. now rewrite Nat.add_0_r. Qed.

Ltac heap_compute :=
  cbn [length app update nth map seq firstn poke_all index offset stride count base
       Nat.add Nat.mul list3 list4 list16 vec3_of fst snd
       vx vy vz x0 x1 x2 x3 row0 row1 row2 row3 eye4].

(** C10.  Running [create_affine] on a store leaves every buffer that
    existed before the call as it was, in particular those of [ipp], [iop]
    and [ps]; its in-place updates land in buffers it allocated itself.
    The arrays it returns hold what the functional [create_affine]
    computes from the inputs. *)
Theorem create_affine_leaves_inputs (s : state) (ipp iop ps : view) :
  (base ipp < length (bufs s))%nat ->
  (base iop < length (bufs s))%nat ->
  (base ps < length (bufs s))%nat ->
  let '(r, s') := create_affine ipp iop ps s in
  (forall l b, nth_error (bufs s) l = Some b -> nth_error (bufs s') l = Some b) /\
  peek s' ipp = peek s ipp /\ peek s' iop = peek s iop /\ peek s' ps = peek s ps /\
  match r,
        Reconstructor.create_affine
          (rows3 (peek s ipp)) (rows6 (peek s iop)) (rows2 (peek s ps)) with
  | Ok (mat, pixdim), Ok (m, p, log) =>
      peek s' mat = list16 m /\ peek s' pixdim = list4 p /\
      stderr s' = stderr s ++ log /\
      (length (bufs s) <= base mat)%nat /\ (length (bufs s) <= base pixdim)%nat
  | Raise e, Raise e' => e = e' /\ stderr s' = stderr s
  | _, _ => False
  end.
Proof.
  destruct s as [h e]. cbn [bufs stderr]. intros Hipp Hiop Hps.
  unfold create_affine.
  rewrite bind_read.
  set (ippb := peek (State h e) ipp).
  rewrite bind_alloc_first. heap_compute.
  rewrite bind_read, peek_fresh. heap_compute.
  rewrite bind_write_fresh. heap_compute.
  rewrite bind_alloc. heap_compute.
  rewrite bind_read. rewrite (peek_old ps h _ e e Hps).
  set (psb := peek (State h e) ps).
  destruct (rows2 psb) as [|[a b] rest] eqn:Eps.
  - cbn [raise]. split; [intros l0 b0; apply frame_app|].
    rewrite !(peek_old _ h _ e e) by assumption.
    repeat split; reflexivity.
  - rewrite create_affine_value.
    rewrite bind_write_fresh. heap_compute.
    rewrite bind_read, peek_fresh. heap_compute.
    unfold Reconstructor.handedness, Reconstructor.slice_spacing,
      Reconstructor.fit_vec, Reconstructor.fit_pos,
      Reconstructor.unit_u, Reconstructor.unit_v,
      Reconstructor.snap3, Reconstructor.vdiv3, Reconstructor.vscale3,
      Reconstructor.norm3.
    cbn [vx vy vz].
    destruct (Rlt_dec (a * Reconstructor.tol) _) as [C1|C1];
      [rewrite bind_warn|rewrite bind_ret].
    all: rewrite bind_read, peek_fresh; heap_compute.
    all: rewrite bind_write_fresh; heap_compute.
    all: rewrite bind_read; rewrite (peek_old iop h _ _ e Hiop).
    all: set (iopb := peek (State h e) iop).
    all: rewrite bind_alloc; heap_compute.
    all: repeat (rewrite bind_read, peek_fresh; heap_compute;
                 rewrite bind_write_fresh; heap_compute).
    all: rewrite bind_alloc; heap_compute.
    all: rewrite bind_read, peek_fresh; heap_compute.
    all: rewrite bind_read, peek_fresh; heap_compute.
    all: rewrite bind_write_fresh; heap_compute.
    all: repeat (rewrite bind_read, peek_fresh; heap_compute;
                 rewrite bind_write_fresh; heap_compute).
    all: destruct (Rlt_dec Reconstructor.tol _) as [C2|C2];
      [rewrite bind_warn|rewrite bind_ret].
    all: rewrite bind_alloc; heap_compute.
    all: unfold ret.
    all: split; [intros l0 b0; apply frame_app|].
    all: rewrite !(peek_old _ h _ _ e) by assumption.
    all: split; [reflexivity|split; [reflexivity|split; [reflexivity|]]].
    all: rewrite !peek_fresh; heap_compute.
    all: cbn [stderr bufs base].
    all: repeat split; try reflexivity; try lia.
    all: rewrite <- ?app_assoc, ?app_nil_r; reflexivity.
Qed.

Lemma create_affine_leaves_inputs_witness :
  ((base sample_ipp < length (bufs sample_state))%nat /\
   (base sample_iop < length (bufs sample_state))%nat /\
   (base sample_ps < length (bufs sample_state))%nat) /\
  peek (snd (create_affine sample_ipp sample_iop sample_ps sample_state)) sample_iop
  = [1; 0; 0; 0; 1; 0; 1; 0; 0; 0; 1; 0].
Proof.
  assert (H0 : (base sample_ipp < length (bufs sample_state))%nat) by (simpl; lia).
  assert (H1 : (base sample_iop < length (bufs sample_state))%nat) by (simpl; lia).
  assert (H2 : (base sample_ps < length (bufs sample_state))%nat) by (simpl; lia).
  split; [auto|].
  pose proof (create_affine_leaves_inputs sample_state sample_ipp sample_iop sample_ps
                H0 H1 H2) as T.
  destruct (create_affine sample_ipp sample_iop sample_ps sample_state) as [r s'].
  destruct T as (_ & _ & T & _). cbn [snd]. rewrite T. reflexivity.
Defined.

End HeapFacts.

(** ** The coordinate normalizer as a whole *)

Section NormalizerGeometry.

Import Normalizer.

Lemma physical_convmat (mat : mat4) (i j k : nat) :
  physical (matmul convmat mat) i j k = mat_vec convmat (physical mat i j k).
Proof.
  unfold physical. generalize (INR i) (INR j) (INR k). intros I J K.
  break_mat mat. unfold convmat, eye4. mat_compute. apply (f_equal4 V4); ring.
Qed.

Lemma voxel_in_range (vol : volume) (n h w k j i : nat) :
  shape vol = (n, h, w) -> well_shaped vol ->
  (k < n)%nat -> (j < h)%nat -> (i < w)%nat ->
  exists a, voxel vol k j i = Some a.
Proof.
  intros Hsh Hws Hk Hj Hi.
  destruct (well_shaped_lookup vol n h w k j i Hsh Hws Hk Hj Hi)
    as (s & r & a & Es & Hh & Er & Hw & Ea).
  exists a. unfold voxel. now rewrite Es, Er, Ea.
Qed.

Lemma convert_coords_geometry (vol : volume) (mat : mat4) (n h w : nat) :
  shape vol = (n, h, w) ->
  well_shaped vol ->
  let s := convert_coords vol mat in
  shape (fst s) = shape vol /\ well_shaped (fst s) /\
  exists reversed_x reversed_y : bool,
    forall k j i, (k < n)%nat -> (j < h)%nat -> (i < w)%nat ->
      let i' := if reversed_x then mirror w i else i in
      let j' := if reversed_y then mirror h j else j in
      (i' < w)%nat /\ (j' < h)%nat /\
      (exists a, voxel vol k j i = Some a /\ voxel (fst s) k j' i' = Some a) /\
      physical (snd s) i' j' k = mat_vec convmat (physical mat i j k).
Proof.
  intros Hsh Hws. cbv zeta.
  destruct (convert_coords_branches vol mat) as (bx & b_y & E). rewrite E. clear E.
  assert (H2 : shape2 vol = w) by (unfold shape2; now rewrite Hsh).
  assert (H1 : shape1 vol = h) by (unfold shape1; now rewrite Hsh).
  destruct bx, b_y.
  - change (fst (flip_y (flip_x (vol, matmul convmat mat)))) with (flip1 (flip2 vol)).
    split; [reflexivity|].
    split; [now apply well_shaped_flip1, well_shaped_flip2|].
    exists true, true. intros k j i Hk Hj Hi.
    split; [now apply mirror_lt|]. split; [now apply mirror_lt|]. split.
    + destruct (voxel_flip2 vol n h w k j i Hsh Hws Hk Hj Hi) as (a & Ea & Eb).
      exists a. split; [exact Ea|].
      destruct (voxel_flip1 (flip2 vol) n h w k j (mirror w i)) as (b & Ec & Ed);
        try assumption; [now apply well_shaped_flip2|now apply mirror_lt|].
      congruence.
    + change (flip_x (vol, matmul convmat mat))
        with (flip2 vol, snd (flip_x (vol, matmul convmat mat))).
      rewrite physical_flip_y by (try assumption; exact H1).
      rewrite physical_flip_x by assumption. apply physical_convmat.
  - change (fst (flip_x (vol, matmul convmat mat))) with (flip2 vol).
    split; [reflexivity|]. split; [now apply well_shaped_flip2|].
    exists true, false. intros k j i Hk Hj Hi.
    split; [now apply mirror_lt|]. split; [assumption|]. split.
    + now apply (voxel_flip2 vol n h w).
    + rewrite physical_flip_x by assumption. apply physical_convmat.
  - change (fst (flip_y (vol, matmul convmat mat))) with (flip1 vol).
    split; [reflexivity|]. split; [now apply well_shaped_flip1|].
    exists false, true. intros k j i Hk Hj Hi.
    split; [assumption|]. split; [now apply mirror_lt|]. split.
    + now apply (voxel_flip1 vol n h w).
    + rewrite physical_flip_y by assumption. apply physical_convmat.
  - cbn [fst snd]. split; [reflexivity|]. split; [assumption|].
    exists false, false. intros k j i Hk Hj Hi.
    split; [assumption|]. split; [assumption|]. split.
    + destruct (voxel_in_range vol n h w k j i Hsh Hws Hk Hj Hi) as (a & Ea).
      exists a. split; assumption.
    + apply physical_convmat.
Qed.

(** X1.  [convert_coords] as a whole, on a volume whose data has the
    extents of its shape: the shape is kept and the values are kept up to
    their order.  Each of the two axes is either reversed for every voxel
    or for none; the value at slice [k], row [j], column [i] is found at
    the index so obtained, and the returned matrix sends that index to the
    physical point the input matrix gave to [(i, j, k)] with its x and y
    coordinates negated, the change from DICOM to NIfTI coordinates. *)
Theorem convert_coords_relocates (vol : volume) (mat : mat4) (n h w : nat) :
  shape vol = (n, h, w) ->
  well_shaped vol ->
  let s := convert_coords vol mat in
  shape (fst s) = shape vol /\ well_shaped (fst s) /\
  Permutation (flat (fst s)) (flat vol) /\
  exists reversed_x reversed_y : bool,
    forall k j i, (k < n)%nat -> (j < h)%nat -> (i < w)%nat ->
      let i' := if reversed_x then mirror w i else i in
      let j' := if reversed_y then mirror h j else j in
      (i' < w)%nat /\ (j' < h)%nat /\
      (exists a, voxel vol k j i = Some a /\ voxel (fst s) k j' i' = Some a) /\
      physical (snd s) i' j' k = mat_vec convmat (physical mat i j k).
Proof.
  intros Hsh Hws. cbv zeta.
  destruct (convert_coords_geometry vol mat n h w Hsh Hws) as (Hs & Hw & Hg).
  split; [exact Hs|]. split; [exact Hw|]. split; [|exact Hg].
  destruct (convert_coords_branches vol mat) as (bx & b_y & ->).
  destruct bx, b_y.
  - change (fst (flip_y (flip_x (vol, matmul convmat mat)))) with (flip1 (flip2 vol)).
    now rewrite flat_flip1, flat_flip2.
  - apply flat_flip2.
  - apply flat_flip1.
  - reflexivity.
Qed.

Ltac name_extents :=
  repeat match goal with
  | |- context [extent_minus_1 ?a] =>
      let e := fresh "e" in generalize (extent_minus_1 a); intro e
  end.

Lemma convert_coords_affine_form (vol : volume) (mat : mat4) :
  row3 mat = V4 0 0 0 1 ->
  let m := snd (convert_coords vol mat) in
  row3 m = V4 0 0 0 1 /\ col m 2 = mat_vec convmat (col mat 2).
Proof.
  intros Hrow. cbv zeta.
  destruct (convert_coords_branches vol mat) as (bx & b_y & E). rewrite E. clear E.
  break_mat mat. cbn [row3] in Hrow. injection Hrow as -> -> -> ->.
  destruct bx, b_y; unfold flip_x, flip_y, convmat, eye4.
  all: cbv beta iota zeta delta [fst snd]; name_extents.
  all: split; mat_compute; apply (f_equal4 V4); ring.
Qed.


End NormalizerGeometry.

(** ** Symmetries of the volume reconstructor *)

Section ReconstructorSymmetry.

Import Reconstructor.

Lemma sum_idx_map (f : nat -> R -> R) (g : R -> R) (k : nat) (l : list R) :
  sum_idx f k (map g l) = sum_idx (fun i y => f i (g y)) k l.
Proof.
  revert k. induction l as [|y l IH]; intros k; simpl; [reflexivity|].
  now rewrite IH.
Qed.

Lemma sum_idx_app (f : nat -> R -> R) (k : nat) (l : list R) (a : R) :
  sum_idx f k (l ++ [a]) = sum_idx f k l + f (k + length l)%nat a.
Proof.
  revert k. induction l as [|y l IH]; intros k; simpl.
  - rewrite Nat.add_0_r. ring.
  - rewrite IH. replace (S k + length l)%nat with (k + S (length l))%nat by lia. ring.
Qed.

Lemma sum_idx_values (k : nat) (l : list R) :
  sum_idx (fun _ y => y) k l = sum_list l.
Proof.
  revert k. induction l as [|y l IH]; intros k; simpl; [reflexivity|].
  now rewrite IH.
Qed.

Lemma sum_list_app (l : list R) (a : R) : sum_list (l ++ [a]) = sum_list l + a.
Proof. induction l as [|y l IH]; simpl; [ring|]. rewrite IH. ring. Qed.

Lemma sum_list_rev (l : list R) : sum_list (rev l) = sum_list l.
Proof.
  induction l as [|y l IH]; [reflexivity|].
  simpl rev. rewrite sum_list_app, IH. simpl. ring.
Qed.

Lemma sum_idx_shift (k : nat) (l : list R) :
  sum_idx (fun i y => INR i * y) k l =
  INR k * sum_list l + sum_idx (fun i y => INR i * y) 0 l.
Proof.
  revert k. induction l as [|y l IH]; intros k.
  - simpl. ring.
  - cbn [sum_idx sum_list fold_right]. fold (sum_list l).
    rewrite (IH (S k)), (IH 1%nat), S_INR. simpl INR. ring.
Qed.

Lemma sum_idx_weighted_rev (l : list R) :
  sum_idx (fun i y => INR i * y) 0 (rev l) =
  (INR (length l) - 1) * sum_list l - sum_idx (fun i y => INR i * y) 0 l.
Proof.
  induction l as [|y l IH].
  - simpl. ring.
  - simpl rev. rewrite sum_idx_app, IH, length_rev.
    cbn [sum_idx sum_list fold_right length]. fold (sum_list l).
    rewrite (sum_idx_shift 1), S_INR. simpl INR. ring.
Qed.

Lemma sum_idx_blind (f : nat -> R) (k : nat) (l l' : list R) :
  length l = length l' ->
  sum_idx (fun i _ => f i) k l = sum_idx (fun i _ => f i) k l'.
Proof.
  revert k l'. induction l as [|y l IH]; intros k [|y' l'] H; simpl in *;
    try discriminate; [reflexivity|].
  f_equal. apply IH. lia.
Qed.

(** Moving every position by [t] moves the fitted intercept by [t] and
    leaves the slope alone. *)
Lemma lstsq_line_translate (t : R) (ys : list R) :
  ys <> [] ->
  lstsq_line (map (fun y => y + t) ys) =
  (fst (lstsq_line ys), snd (lstsq_line ys) + t).
Proof.
  intros Hne.
  destruct (le_lt_dec 2 (length ys)) as [H|H].
  - rewrite !lstsq_line_ge2 by (rewrite ?length_map; assumption). cbv zeta.
    cbn [fst snd]. rewrite length_map.
    pose proof (normal_det_pos ys H) as Hd.
    assert (Hn : 0 < INR (length ys)) by (apply lt_0_INR; lia).
    rewrite (sum_idx_blind (fun i => INR i) 0 (map (fun y => y + t) ys) ys)
      by apply length_map.
    rewrite (sum_idx_blind (fun i => INR i * INR i) 0 (map (fun y => y + t) ys) ys)
      by apply length_map.
    rewrite !sum_idx_map.
    rewrite (sum_idx_ext (fun _ y => y + t) (fun i y => 1 * y + t * 1))
      by (intros; ring).
    rewrite (sum_idx_ext (fun i y => INR i * (y + t))
                         (fun i y => 1 * (INR i * y) + t * INR i))
      by (intros; ring).
    rewrite (sum_idx_linear (fun _ y => y) (fun _ _ => 1)).
    rewrite (sum_idx_linear (fun i y => INR i * y) (fun i _ => INR i)).
    rewrite sum_idx_one.
    set (n := INR (length ys)) in *.
    set (s1 := sum_idx (fun i _ => INR i) 0 ys) in *.
    set (s2 := sum_idx (fun i _ => INR i * INR i) 0 ys) in *.
    set (sy := sum_idx (fun _ y => y) 0 ys).
    set (sxy := sum_idx (fun i y => INR i * y) 0 ys).
    clearbody n s1 s2 sy sxy.
    f_equal; field; repeat split; lra.
  - destruct ys as [|y [|z r]]; simpl in H; try lia; [congruence|reflexivity].
Qed.

(** Reading the column backwards negates the slope; the intercept becomes
    the fitted value at the last index. *)
Lemma lstsq_line_rev (ys : list R) :
  lstsq_line (rev ys) =
  (- fst (lstsq_line ys),
   snd (lstsq_line ys) + (INR (length ys) - 1) * fst (lstsq_line ys)).
Proof.
  destruct (le_lt_dec 2 (length ys)) as [H|H].
  - rewrite !lstsq_line_ge2 by (rewrite ?length_rev; assumption). cbv zeta.
    cbn [fst snd]. rewrite length_rev.
    pose proof (normal_det_pos ys H) as Hd.
    assert (Hn : 0 < INR (length ys)) by (apply lt_0_INR; lia).
    rewrite (sum_idx_blind (fun i => INR i) 0 (rev ys) ys) by apply length_rev.
    rewrite (sum_idx_blind (fun i => INR i * INR i) 0 (rev ys) ys) by apply length_rev.
    rewrite sum_idx_weighted_rev, !sum_idx_values, sum_list_rev.
    pose proof (sum_idx_index 0 ys) as E1. simpl (INR 0) in E1.
    set (n := INR (length ys)) in *.
    set (s1 := sum_idx (fun i _ => INR i) 0 ys) in *.
    set (s2 := sum_idx (fun i _ => INR i * INR i) 0 ys) in *.
    set (sy := sum_list ys).
    set (sxy := sum_idx (fun i y => INR i * y) 0 ys).
    clearbody n s1 s2 sy sxy.
    assert (E : s1 = n * (n - 1) / 2) by lra. clear E1.
    assert (Hd' : n * s2 - s1 * s1 <> 0) by lra.
    subst s1.
    f_equal; field; repeat split; lra.
  - destruct ys as [|y [|z r]]; simpl in H; try lia; simpl; f_equal; ring.
Qed.

Lemma lstsq_translate (t : vec3) (ipp : list vec3) :
  ipp <> [] ->
  lstsq (translate t ipp) = (fst (lstsq ipp), vadd3 (snd (lstsq ipp)) t).
Proof.
  intros H. unfold lstsq, translate. rewrite !map_map. cbn [vadd3 vx vy vz].
  rewrite <- (map_map vx (fun y => y + vx t)), <- (map_map vy (fun y => y + vy t)),
          <- (map_map vz (fun y => y + vz t)).
  rewrite !lstsq_line_translate by (destruct ipp; [congruence|discriminate]).
  reflexivity.
Qed.

(** X3.  In exact arithmetic (real numbers, the least-squares fit being
    the least-squares solution itself) and for averaged directions that
    are not the zero vector: moving every slice position by the same
    vector [t] changes only column 3 of the matrix [create_affine]
    returns: it becomes the fitted intercept moved by [t] (and snapped);
    the other columns, the pixdim and the warnings are the same. *)
Theorem create_affine_translation (t : vec3) (ipp : list vec3) (iop : list iop_row)
    (ps : list (R * R)) (m : mat4) (pixdim : vec4) (log : list string) :
  ipp <> [] ->
  oriented iop ->
  create_affine ipp iop ps = Ok (m, pixdim, log) ->
  create_affine (translate t ipp) iop ps =
  Ok (set_col3 m 3 (snap3 (vadd3 (snd (lstsq ipp)) t)), pixdim, log).
Proof.
  intros Hne _. destruct ps as [|p0 rest]; [discriminate|].
  rewrite !create_affine_value.
  unfold slice_spacing, handedness, fit_vec, fit_pos.
  rewrite (lstsq_translate t ipp Hne). cbn [fst snd].
  intros E. injection E as <- <- <-. reflexivity.
Qed.

Lemma snap_opp (a : R) : snap (- a) = - snap a.
Proof.
  unfold snap. rewrite Rabs_Ropp. destruct (Rlt_dec (Rabs a) tol); ring.
Qed.

Lemma sign_opp (a : R) : sign (- a) = - sign a.
Proof.
  unfold sign.
  destruct (Rlt_dec (- a) 0), (Rlt_dec a 0), (Rlt_dec 0 (- a)), (Rlt_dec 0 a);
    try lra.
Qed.

Lemma mean3_rev (l : list vec3) : mean3 (rev l) = mean3 l.
Proof.
  unfold mean3. rewrite length_rev, !map_rev, !sum_list_rev. reflexivity.
Qed.

Lemma lstsq_rev (ipp : list vec3) :
  lstsq (rev ipp) =
  (vopp3 (fst (lstsq ipp)),
   vadd3 (snd (lstsq ipp)) (vscale3 (fst (lstsq ipp)) (INR (length ipp) - 1))).
Proof.
  unfold lstsq. rewrite !map_rev, !lstsq_line_rev, !length_map. cbn [fst snd].
  unfold vopp3, vadd3, vscale3. cbn [vx vy vz].
  f_equal; f_equal; ring.
Qed.

Lemma fit_vec_rev (ipp : list vec3) : fit_vec (rev ipp) = vopp3 (fit_vec ipp).
Proof.
  unfold fit_vec. rewrite lstsq_rev. cbn [fst].
  unfold snap3, vopp3. cbn [vx vy vz]. now rewrite !snap_opp.
Qed.

Lemma norm3_opp (v : vec3) : norm3 (vopp3 v) = norm3 v.
Proof. unfold norm3, vopp3. cbn [vx vy vz]. f_equal. ring. Qed.

Lemma unit_u_rev (iop : list iop_row) : unit_u (rev iop) = unit_u iop.
Proof. unfold unit_u. now rewrite map_rev, mean3_rev. Qed.

Lemma unit_v_rev (iop : list iop_row) : unit_v (rev iop) = unit_v iop.
Proof. unfold unit_v. now rewrite map_rev, mean3_rev. Qed.

Lemma handedness_rev (ipp : list vec3) (iop : list iop_row) :
  handedness (rev ipp) (rev iop) = - handedness ipp iop.
Proof.
  unfold handedness. rewrite fit_vec_rev, unit_u_rev, unit_v_rev.
  unfold dot3, vopp3. cbn [vx vy vz]. ring.
Qed.

Lemma In_warn_orthogonal (c : bool) (l2 : list string) :
  In warn_orthogonal ((if c then [warn_spacing] else []) ++ l2) <->
  In warn_orthogonal l2.
Proof.
  rewrite in_app_iff. split; [|now right].
  intros [H|H]; [|exact H]. destruct c; simpl in H; [|contradiction].
  destruct H as [H|[]]. exfalso. now apply warn_strings_differ.
Qed.

Lemma Ok_inj {A : Type} (a b : A) : Ok a = Ok b -> a = b.
Proof. intros H. now injection H. Qed.

Ltac split_triple E :=
  apply Ok_inj in E; apply pair_equal_spec in E;
  let E1 := fresh "E" in let E2 := fresh "E" in let E3 := fresh "E" in
  destruct E as [E E3]; apply pair_equal_spec in E; destruct E as [E1 E2];
  subst.

(** X4.  In exact arithmetic (real numbers, the least-squares fit being
    the least-squares solution itself) and for averaged directions that
    are not the zero vector: handing the slices to [create_affine] in
    reverse order negates column 2 (the slice step) and qfac, keeps the
    slice spacing and the presence of the non-orthogonality warning, and
    puts in column 3 the fitted position of the last slice; columns 0
    and 1 and the two pixel spacings are the same when the first and the
    last slice have the same pixel spacing. *)
Theorem create_affine_reversed (ipp : list vec3) (iop : list iop_row) (ps : list (R * R))
    (m m' : mat4) (pixdim pixdim' : vec4) (log log' : list string) :
  oriented iop ->
  create_affine ipp iop ps = Ok (m, pixdim, log) ->
  create_affine (rev ipp) (rev iop) (rev ps) = Ok (m', pixdim', log') ->
  col m' 2 = vopp4 (col m 2) /\
  x0 pixdim' = - x0 pixdim /\
  x3 pixdim' = x3 pixdim /\
  (In warn_orthogonal log' <-> In warn_orthogonal log) /\
  (let q := snap3 (vadd3 (snd (lstsq ipp))
                         (vscale3 (fst (lstsq ipp)) (INR (length ipp) - 1))) in
   col m' 3 = V4 (vx q) (vy q) (vz q) 1) /\
  (hd_error (rev ps) = hd_error ps ->
   col m' 0 = col m 0 /\ col m' 1 = col m 1 /\
   x1 pixdim' = x1 pixdim /\ x2 pixdim' = x2 pixdim).
Proof.
  intros _. destruct ps as [|p0 rest]; [discriminate|].
  destruct (rev (p0 :: rest)) as [|q0 rest'] eqn:Er; [discriminate|].
  rewrite !create_affine_value.
  intros E E'. split_triple E. split_triple E'.
  unfold slice_spacing, fit_pos.
  rewrite handedness_rev, fit_vec_rev, norm3_opp, sign_opp, unit_u_rev, unit_v_rev,
          lstsq_rev.
  cbn [fst snd].
  split; [|split; [|split; [|split; [|split]]]].
  - mat_compute. unfold vopp3. cbn [vx vy vz]. apply (f_equal4 V4); ring.
  - reflexivity.
  - reflexivity.
  - set (c := Rlt_dec (fst q0 * tol) _). set (c' := Rlt_dec (fst p0 * tol) _).
    replace (- sign (handedness ipp iop) * - handedness ipp iop)
      with (sign (handedness ipp iop) * handedness ipp iop) by ring.
    transitivity (In warn_orthogonal
      (if Rlt_dec tol (Rabs (sign (handedness ipp iop) * handedness ipp iop
                             - round7 (norm3 (fit_vec ipp))))
       then [warn_orthogonal] else [])).
    + destruct c; [apply (In_warn_orthogonal true)|apply (In_warn_orthogonal false)].
    + symmetry.
      destruct c'; [apply (In_warn_orthogonal true)|apply (In_warn_orthogonal false)].
  - cbv zeta. reflexivity.
  - cbn [hd_error]. intros Eh. injection Eh as ->. repeat split; reflexivity.
Qed.

Lemma norm3_vscale3 (v : vec3) (k : R) : norm3 (vscale3 v k) = Rabs k * norm3 v.
Proof.
  unfold norm3, vscale3. cbn [vx vy vz].
  replace (vx v * k * (vx v * k) + vy v * k * (vy v * k) + vz v * k * (vz v * k))
    with (Rsqr k * (vx v * vx v + vy v * vy v + vz v * vz v)) by (unfold Rsqr; ring).
  rewrite sqrt_mult; [|apply Rle_0_sqr|nra].
  now rewrite sqrt_Rsqr_abs.
Qed.

Lemma norm3_vdiv3 (v : vec3) : norm3 v <> 0 -> norm3 (vdiv3 v (norm3 v)) = 1.
Proof.
  intros H. pose proof (norm3_nonneg v) as Hp.
  replace (vdiv3 v (norm3 v)) with (vscale3 v (/ norm3 v)) by reflexivity.
  rewrite norm3_vscale3. rewrite Rabs_right.
  - now field.
  - apply Rle_ge. left. apply Rinv_0_lt_compat. lra.
Qed.

Lemma unit_length (v : vec3) :
  norm3 v <> 0 ->
  1 - 1.74e-6 <= norm3 (snap3 (vdiv3 v (norm3 v))) <= 1.
Proof.
  intros H. pose proof (norm3_snap3 (vdiv3 v (norm3 v))) as [H1 H2].
  rewrite (norm3_vdiv3 v H) in *. lra.
Qed.

(** X5.  For averaged row and column directions that are not the zero
    vector, column 0 of the matrix (rows 0..2) has the length of the
    first pixel spacing up to a tolerance: below, the snapping of small
    components takes at most the factor [1 - 1.74e-6]; above, the length
    is at most the spacing in exact arithmetic, stated here with a
    relative slack of [1e-9].  The same holds for column 1 and the second
    pixel spacing. *)
Theorem create_affine_pixel_columns (ipp : list vec3) (iop : list iop_row)
    (ps : list (R * R)) (m : mat4) (pixdim : vec4) (log : list string) :
  oriented iop ->
  create_affine ipp iop ps = Ok (m, pixdim, log) ->
  (Rabs (x1 pixdim) * (1 - 1.74e-6)
     <= norm3 (V3 (entry m 0 0) (entry m 1 0) (entry m 2 0))
     <= Rabs (x1 pixdim) * (1 + 1e-9)) /\
  (Rabs (x2 pixdim) * (1 - 1.74e-6)
     <= norm3 (V3 (entry m 0 1) (entry m 1 1) (entry m 2 1))
     <= Rabs (x2 pixdim) * (1 + 1e-9)).
Proof.
  intros [Hu Hv]. destruct ps as [|p0 rest]; [discriminate|].
  rewrite create_affine_value.
  intros E. split_triple E. cbn [x1 x2].
  change (V3 (entry _ 0 0) (entry _ 1 0) (entry _ 2 0))
    with (vscale3 (unit_u iop) (fst p0)).
  change (V3 (entry _ 0 1) (entry _ 1 1) (entry _ 2 1))
    with (vscale3 (unit_v iop) (snd p0)).
  rewrite !norm3_vscale3. unfold unit_u, unit_v.
  pose proof (unit_length _ Hu) as [Lu Uu].
  pose proof (unit_length _ Hv) as [Lv Uv].
  pose proof (Rabs_pos (fst p0)). pose proof (Rabs_pos (snd p0)).
  split; split; nra.
Qed.

End ReconstructorSymmetry.

(** ** The series loader: errors and the order of the files *)

Section LoaderOrder.

Import Loader.

Context {filename dataset : Type}.
Variable dcmread : filename -> result dataset.
Variable InstanceNumber : dataset -> instance_number.

Local Notation "'key'" := (sort_key InstanceNumber).
Local Notation "'loads'" :=
  (fun g => exists ds, dcmread g = Ok ds /\ InstanceNumber ds <> Empty).

Lemma sort_key_raises (ds : dataset) (e : exn) :
  key ds = Raise e <-> InstanceNumber ds = Empty /\ e = TypeError.
Proof.
  unfold sort_key. destruct (InstanceNumber ds); split; try discriminate.
  - now intros [H _].
  - now intros [H _].
  - now intros [H _].
  - intros H. injection H as <-. now split.
  - now intros [_ ->].
Qed.

Lemma read_all_first_error (before after : list filename) (f : filename) :
  Forall loads before ->
  (forall e, dcmread f = Raise e ->
     read_all dcmread InstanceNumber (before ++ f :: after) = Raise e) /\
  (forall ds, dcmread f = Ok ds -> InstanceNumber ds = Empty ->
     read_all dcmread InstanceNumber (before ++ f :: after) = Raise TypeError).
Proof.
  intros Hb. induction Hb as [|g before (d & Hg & Hd) _ [IH1 IH2]]; simpl.
  - split.
    + intros e Hf. now rewrite Hf.
    + intros ds Hf He. rewrite Hf. unfold sort_key. now rewrite He.
  - destruct (sort_key_ok InstanceNumber d Hd) as [k Ek]. rewrite Hg, Ek. split.
    + intros e Hf. now rewrite (IH1 e Hf).
    + intros ds Hf He. now rewrite (IH2 ds Hf He).
Qed.

Lemma read_all_ok (files : list filename) (l : list (Z * dataset)) :
  read_all dcmread InstanceNumber files = Ok l ->
  Forall loads files /\ length l = length files.
Proof.
  revert l. induction files as [|f files IH]; simpl; intros l H.
  - injection H as <-. split; [constructor|reflexivity].
  - destruct (dcmread f) as [ds|e] eqn:Ef; [|discriminate].
    destruct (key ds) as [k|e] eqn:Ek; [|discriminate].
    destruct (read_all dcmread InstanceNumber files) as [l0|e]; [|discriminate].
    injection H as <-. destruct (IH l0 eq_refl) as [Hf Hl].
    split; [|simpl; now rewrite Hl].
    constructor; [|assumption]. exists ds. split; [exact Ef|].
    intros He. unfold sort_key in Ek. rewrite He in Ek. discriminate.
Qed.

(** X6.  [load_dicom_series] returns a series, one dataset per file,
    exactly when [dcmread] reads every file and no dataset has an
    InstanceNumber without a value.  Otherwise it ends at the first file,
    in the order given, for which this fails, whatever the files after
    it are: with the exception of [dcmread] when the file cannot be read,
    with [TypeError] when its InstanceNumber has no value. *)
Theorem load_dicom_series_first_error (files : list filename) :
  ((exists series, load_dicom_series dcmread InstanceNumber files = Ok series /\
                   length series = length files) <->
   Forall loads files) /\
  (forall before f after,
     files = before ++ f :: after ->
     Forall loads before ->
     (forall e, dcmread f = Raise e ->
        load_dicom_series dcmread InstanceNumber files = Raise e) /\
     (forall ds, dcmread f = Ok ds -> InstanceNumber ds = Empty ->
        load_dicom_series dcmread InstanceNumber files = Raise TypeError)).
Proof.
  split; [split|].
  - intros (series & E & _). unfold load_dicom_series in E.
    destruct (read_all dcmread InstanceNumber files) as [l|e] eqn:El; [|discriminate].
    now apply read_all_ok in El.
  - intros H.
    assert (exists datasets,
              Forall2 (fun f ds => dcmread f = Ok ds) files datasets /\
              Forall (fun ds => InstanceNumber ds <> Empty) datasets)
      as (datasets & Hd & Hn).
    { induction H as [|g files (ds & Hg & Hv) _ (datasets & IH1 & IH2)].
      - exists []. split; constructor.
      - exists (ds :: datasets). split; now constructor. }
    destruct (read_all_readable dcmread InstanceNumber _ _ Hd Hn) as (l & El & Es & _).
    unfold load_dicom_series. rewrite El.
    eexists. split; [reflexivity|].
    rewrite length_map, (Permutation_length (sort_by_key_perm _)).
    rewrite <- (length_map snd l), Es.
    symmetry. eapply Forall2_length. exact Hd.
  - intros before f after -> Hb. unfold load_dicom_series.
    destruct (read_all_first_error before after f Hb) as [H1 H2]. split.
    + intros e Hf. now rewrite (H1 e Hf).
    + intros ds Hf He. now rewrite (H2 ds Hf He).
Qed.

Lemma read_all_perm (files files' : list filename) :
  Permutation files files' ->
  forall l, read_all dcmread InstanceNumber files = Ok l ->
  exists l', read_all dcmread InstanceNumber files' = Ok l' /\ Permutation l l'.
Proof.
  induction 1 as [|f a b P IH|f g a|a b c P1 IH1 P2 IH2]; intros l E.
  - exists l. split; [exact E|reflexivity].
  - simpl in *. destruct (dcmread f) as [ds|e]; [|discriminate].
    destruct (key ds) as [k|e]; [|discriminate].
    destruct (read_all dcmread InstanceNumber a) as [la|e]; [|discriminate].
    injection E as <-. destruct (IH la eq_refl) as (lb & -> & Pl).
    eexists. split; [reflexivity|now constructor].
  - simpl in *. destruct (dcmread g) as [dg|e]; [|discriminate].
    destruct (key dg) as [kg|e]; [|discriminate].
    destruct (dcmread f) as [df|e]; [|discriminate].
    destruct (key df) as [kf|e]; [|discriminate].
    destruct (read_all dcmread InstanceNumber a) as [la|e]; [|discriminate].
    injection E as <-. eexists. split; [reflexivity|apply perm_swap].
  - destruct (IH1 l E) as (lb & Eb & Pb). destruct (IH2 lb Eb) as (lc & Ec & Pc).
    exists lc. split; [exact Ec|now transitivity lb].
Qed.

Lemma filter_perm {A : Type} (p : A -> bool) (l l' : list A) :
  Permutation l l' -> Permutation (filter p l) (filter p l').
Proof.
  induction 1 as [|x a b P IH|x y a|a b c P1 IH1 P2 IH2]; simpl.
  - constructor.
  - destruct (p x); [now constructor|assumption].
  - destruct (p x), (p y); try reflexivity. apply perm_swap.
  - now transitivity (filter p b).
Qed.

Lemma filter_key_short (k : Z) (l : list (Z * dataset)) :
  NoDup (map fst l) -> (length (filter (fun u => (fst u =? k)%Z) l) <= 1)%nat.
Proof.
  induction l as [|u l IH]; simpl; intros H; [lia|].
  inversion H as [|? ? Hn Hd]; subst.
  destruct (Z.eqb_spec (fst u) k) as [E|E]; [|now apply IH].
  simpl. destruct (filter (fun u => (fst u =? k)%Z) l) as [|v r] eqn:Ef; [simpl; lia|].
  exfalso. apply Hn.
  assert (Hv : In v (filter (fun u => (fst u =? k)%Z) l)) by (rewrite Ef; now left).
  apply filter_In in Hv. destruct Hv as [Hv Hk].
  apply Z.eqb_eq in Hk. rewrite E, <- Hk. now apply in_map.
Qed.

Lemma short_perm_eq {A : Type} (l l' : list A) :
  (length l <= 1)%nat -> Permutation l l' -> l = l'.
Proof.
  destruct l as [|a [|b r]]; simpl; intros H P; try lia.
  - apply Permutation_nil in P. now subst.
  - apply Permutation_length_1_inv in P. now subst.
Qed.

Lemma read_all_keys (files : list filename) (l : list (Z * dataset)) :
  read_all dcmread InstanceNumber files = Ok l ->
  map (@Ok Z) (map fst l) = map key (map snd l).
Proof.
  revert l. induction files as [|f files IH]; simpl; intros l H.
  - now injection H as <-.
  - destruct (dcmread f) as [ds|e]; [|discriminate].
    destruct (key ds) as [k|e] eqn:Ek; [|discriminate].
    destruct (read_all dcmread InstanceNumber files) as [l0|e]; [|discriminate].
    injection H as <-. simpl. rewrite Ek. f_equal. now apply IH.
Qed.

(** X7.  When the datasets of a series have pairwise different sort keys,
    the result of [load_dicom_series] does not depend on the order of the
    files: every rearrangement of the file list loads to the same
    series. *)
Theorem load_dicom_series_order_independent
    (files files' : list filename) (series : list dataset) :
  load_dicom_series dcmread InstanceNumber files = Ok series ->
  NoDup (map key series) ->
  Permutation files files' ->
  load_dicom_series dcmread InstanceNumber files' = Ok series.
Proof.
  unfold load_dicom_series. intros E Hk P.
  destruct (read_all dcmread InstanceNumber files) as [l|e] eqn:El; [|discriminate].
  injection E as <-.
  destruct (read_all_perm files files' P l El) as (l' & -> & Pl).
  f_equal. f_equal.
  assert (Hl : NoDup (map fst l)).
  { apply (NoDup_map_inv (@Ok Z)). rewrite (read_all_keys _ _ El).
    eapply Permutation_NoDup; [|exact Hk].
    apply Permutation_map, Permutation_map, sort_by_key_perm. }
  apply stable_sorted_unique; try apply sort_by_key_sorted.
  intros k. rewrite !sort_by_key_stable.
  symmetry. apply short_perm_eq; [now apply filter_key_short|now apply filter_perm].
Qed.

End LoaderOrder.

(** ** File discovery *)

Section FinderFacts.

Import Finder.

Variable isdir : string -> bool.
Variable isfile : string -> bool.
Variable join : string -> string -> string.
Variable listdir : string -> list string.

Local Notation "'find'" := (find_dicom_files isdir isfile join listdir).
Local Notation "'globbed'" := (glob join listdir).

Lemma ends_with_spec (s name : string) :
  ends_with s name = true <-> exists stem, name = (stem ++ s)%string.
Proof.
  induction name as [|c t IH]; simpl.
  - rewrite orb_false_r, String.eqb_eq. split.
    + intros ->. now exists EmptyString.
    + intros [stem E]. destruct stem; simpl in E; [now symmetry|discriminate].
  - rewrite orb_true_iff, String.eqb_eq, IH. split.
    + intros [->|[stem ->]]; [now exists EmptyString|now exists (String c stem)].
    + intros [stem E]. destruct stem as [|d stem]; simpl in E.
      * left. now symmetry.
      * right. injection E as _ ->. now exists stem.
Qed.

Lemma glob_suffix (path lit f : string) :
  In f (globbed path (String "*" lit)) <->
  exists stem, In (stem ++ lit)%string (listdir path) /\
               ishidden (stem ++ lit) = false /\ f = join path (stem ++ lit).
Proof.
  unfold glob. rewrite in_map_iff. split.
  - intros (name & <- & H). apply filter_In in H. destruct H as [Hin H].
    apply andb_true_iff in H. destruct H as [Hh Hm].
    cbn [ishidden fnmatch] in Hh, Hm. cbn [orb] in Hh.
    apply ends_with_spec in Hm. destruct Hm as [stem ->].
    exists stem. repeat split; [assumption|].
    now destruct (ishidden (stem ++ lit)).
  - intros (stem & Hin & Hh & ->). exists (stem ++ lit)%string. split; [reflexivity|].
    apply filter_In. split; [assumption|].
    cbn [ishidden fnmatch orb]. rewrite Hh. simpl.
    apply ends_with_spec. now exists stem.
Qed.

Lemma first_match_split (path : string) (earlier later : list string) (ext : string) :
  Forall (fun e => globbed path e = []) earlier ->
  globbed path ext <> [] ->
  first_match join listdir path (earlier ++ ext :: later) = globbed path ext.
Proof.
  intros He Hn. induction He as [|e earlier E _ IH]; simpl.
  - destruct (globbed path ext); [congruence|reflexivity].
  - now rewrite E.
Qed.

Lemma first_match_nil (path : string) (exts : list string) :
  first_match join listdir path exts = [] <-> Forall (fun e => globbed path e = []) exts.
Proof.
  induction exts as [|e exts IH]; simpl.
  - split; [constructor|reflexivity].
  - destruct (globbed path e) eqn:E.
    + rewrite IH. split; [now constructor|now inversion 1].
    + split; [discriminate|]. inversion 1; subst. congruence.
Qed.

Lemma first_match_some (path : string) (exts : list string) :
  first_match join listdir path exts <> [] ->
  exists ext, In ext exts /\ first_match join listdir path exts = globbed path ext.
Proof.
  induction exts as [|e exts IH]; simpl; [congruence|].
  destruct (globbed path e) eqn:E.
  - intros H. destruct (IH H) as (ext & Hin & Eq). exists ext. split; [now right|exact Eq].
  - intros _. exists e. split; [now left|now symmetry].
Qed.

(** X8.  On a directory whose path is literal (no wildcard character,
    no doubled separator at its end), the first of the five patterns
    [*.dcm], [*.DCM], [*.dc], [*.DC], [*.IMG] that matches anything
    decides the result: [find_dicom_files] returns exactly the entries
    that are not hidden and end with that suffix, whether they are
    regular files or not, and writes nothing.  Entries with one of the
    later suffixes are left out. *)
Theorem find_dicom_files_first_suffix
    (path : string) (earlier later : list string) (lit : string) :
  literal path = true ->
  isdir path = true ->
  suffixes = earlier ++ String "*" lit :: later ->
  Forall (fun e => globbed path e = []) earlier ->
  globbed path (String "*" lit) <> [] ->
  find path = (globbed path (String "*" lit), []) /\
  forall f, In f (fst (find path)) <->
    exists stem, In (stem ++ lit)%string (listdir path) /\
                 ishidden (stem ++ lit) = false /\ f = join path (stem ++ lit).
Proof.
  intros _ Hd Hs He Hn.
  assert (E : find path = (globbed path (String "*" lit), [])).
  { unfold find_dicom_files. rewrite Hd, Hs, (first_match_split path earlier later _ He Hn).
    destruct (globbed path (String "*" lit)); [congruence|reflexivity]. }
  split; [exact E|]. intros f. rewrite E. cbn [fst]. apply glob_suffix.
Qed.


Lemma ends_with_empty (name : string) : ends_with EmptyString name = true.
Proof. apply ends_with_spec. exists name. induction name; simpl; congruence. Qed.

Lemma map_filter_nil {A B : Type} (g : A -> B) (p : A -> bool) (l : list A) :
  map g (filter p l) = [] <-> forall a, In a l -> p a = false.
Proof.
  induction l as [|a l IH]; simpl.
  - split; [intros _ ? []|reflexivity].
  - destruct (p a) eqn:E; simpl.
    + split; [discriminate|]. intros H. specialize (H a (or_introl eq_refl)). congruence.
    + rewrite IH. split.
      * intros H b [<-|Hb]; [exact E|now apply H].
      * intros H b Hb. apply H. now right.
Qed.

Lemma glob_nil (path lit : string) :
  globbed path (String "*" lit) = [] <->
  forall name, In name (listdir path) -> ishidden name = false ->
               ~ exists stem, name = (stem ++ lit)%string.
Proof.
  unfold glob. rewrite map_filter_nil. cbn [ishidden fnmatch orb].
  split; intros H name Hin.
  - intros Hh. specialize (H name Hin). rewrite Hh in H. simpl in H.
    rewrite <- ends_with_spec. congruence.
  - destruct (ishidden name) eqn:Hh; [reflexivity|]. simpl.
    specialize (H name Hin Hh). rewrite <- ends_with_spec in H.
    now destruct (ends_with lit name).
Qed.

Lemma glob_star (path f : string) :
  In f (globbed path "*") <->
  exists name, In name (listdir path) /\ ishidden name = false /\ f = join path name.
Proof.
  unfold glob. rewrite in_map_iff. cbn [ishidden fnmatch orb]. split.
  - intros (name & <- & H). apply filter_In in H. destruct H as [Hin H].
    exists name. repeat split; [assumption|].
    now destruct (ishidden name).
  - intros (name & Hin & Hh & ->). exists name. split; [reflexivity|].
    apply filter_In. split; [assumption|]. rewrite Hh. apply ends_with_empty.
Qed.

Lemma suffixes_star (ext : string) :
  In ext suffixes -> exists lit, ext = String "*" lit.
Proof.
  unfold suffixes. simpl. intros [<-|[<-|[<-|[<-|[<-|[]]]]]]; eexists; reflexivity.
Qed.

(** X9.  On a directory whose path is literal (no wildcard character,
    no doubled separator at its end), [find_dicom_files] writes nothing
    to stderr, and every path it returns is an entry of the directory,
    joined to the directory, whose name does not start with a dot; the
    name ends with one of the five DICOM suffixes, or no entry that is
    not hidden has such a suffix and the path is a regular file. *)
Theorem find_dicom_files_sound (path f : string) :
  literal path = true ->
  isdir path = true ->
  In f (fst (find path)) ->
  snd (find path) = [] /\
  exists name,
    In name (listdir path) /\ f = join path name /\ ishidden name = false /\
    ((exists lit stem, In (String "*" lit) suffixes /\ name = (stem ++ lit)%string) \/
     ((forall lit, In (String "*" lit) suffixes ->
         forall other, In other (listdir path) -> ishidden other = false ->
           ~ exists stem, other = (stem ++ lit)%string) /\
      isfile f = true)).
Proof.
  intros _ Hd. unfold find_dicom_files. rewrite Hd.
  destruct (first_match join listdir path suffixes) as [|g files] eqn:E.
  - cbn [fst snd]. intros Hf. split; [reflexivity|].
    apply filter_In in Hf. destruct Hf as [Hf Hfile].
    apply glob_star in Hf. destruct Hf as (name & Hin & Hh & ->).
    exists name. repeat split; try assumption. right. split; [|exact Hfile].
    intros lit Hl. apply glob_nil.
    apply first_match_nil in E. rewrite Forall_forall in E. now apply E.
  - cbn [fst snd]. intros Hf. split; [reflexivity|].
    destruct (first_match_some path suffixes) as (ext & Hext & Eg); [now rewrite E|].
    destruct (suffixes_star ext Hext) as [lit ->].
    rewrite E in Eg. rewrite Eg in Hf. apply glob_suffix in Hf.
    destruct Hf as (stem & Hin & Hh & ->).
    exists (stem ++ lit)%string. repeat split; try assumption.
    left. exists lit, stem. split; [exact Hext|reflexivity].
Qed.

(** X10.  For a path that is literal (no wildcard character, no
    doubled separator at its end), [find_dicom_files] returns the empty
    list in two cases only: the path is neither a directory nor a file,
    or it is a directory in which every entry that is not hidden has
    none of the five suffixes and is not a regular file.  It writes to
    stderr exactly when the path is neither a directory nor a file; the
    message is [Cannot open] with the path, and the list returned is
    then empty. *)
Theorem find_dicom_files_empty (path : string) :
  literal path = true ->
  (fst (find path) = [] <->
   (isdir path = false /\ isfile path = false) \/
   (isdir path = true /\
    forall name, In name (listdir path) -> ishidden name = false ->
      isfile (join path name) = false /\
      forall lit, In (String "*" lit) suffixes ->
        ~ exists stem, name = (stem ++ lit)%string)) /\
  (snd (find path) = [] <-> isdir path = true \/ isfile path = true) /\
  (snd (find path) <> [] -> fst (find path) = [] /\ snd (find path) = [cannot_open path]).
Proof.
  intros _. unfold find_dicom_files.
  destruct (isdir path) eqn:Hd.
  - destruct (first_match join listdir path suffixes) as [|g files] eqn:E; cbn [fst snd].
    + split; [|split; [split; auto|congruence]].
      apply first_match_nil in E. rewrite Forall_forall in E.
      split.
      * intros Hn. right. split; [reflexivity|]. intros name Hin Hh. split.
        -- destruct (isfile (join path name)) eqn:Hf; [|reflexivity]. exfalso.
           assert (K : In (join path name) (filter isfile (globbed path "*"))).
           { apply filter_In. split; [|exact Hf]. apply glob_star. now exists name. }
           now rewrite Hn in K.
        -- intros lit Hl. exact (proj1 (glob_nil path lit) (E _ Hl) name Hin Hh).
      * intros [[H _]|[_ H]]; [discriminate|].
        destruct (filter isfile (globbed path "*")) as [|f r] eqn:Ef; [reflexivity|].
        exfalso. assert (K : In f (filter isfile (globbed path "*"))) by (rewrite Ef; now left).
        apply filter_In in K. destruct K as [K Hf].
        apply glob_star in K. destruct K as (name & Hin & Hh & ->).
        destruct (H name Hin Hh) as [Hf' _]. congruence.
    + split; [|split; [split; auto|congruence]].
      split; [discriminate|]. intros [[H _]|[_ H]]; [discriminate|]. exfalso.
      destruct (first_match_some path suffixes) as (ext & Hext & Eg); [now rewrite E|].
      destruct (suffixes_star ext Hext) as [lit ->].
      assert (K : In g (globbed path (String "*" lit))) by (rewrite <- Eg, E; now left).
      apply glob_suffix in K. destruct K as (stem & Hin & Hh & _).
      destruct (H _ Hin Hh) as [_ Hno]. apply (Hno lit Hext). now exists stem.
  - destruct (isfile path) eqn:Hf; cbn [fst snd].
    + split; [|split; [split; auto|congruence]].
      split; [discriminate|]. intros [[_ H]|[H _]]; discriminate.
    + split; [|split].
      * split; [now left|reflexivity].
      * split; [discriminate|]. intros [H|H]; discriminate.
      * intros _. split; reflexivity.
Qed.

End FinderFacts.

(** ** Volume assembly *)

Section AssemblerFacts.

Import Assembler.

Context {dataset : Type}.
Variable pixel_array : dataset -> option image.
Variable RescaleSlope : dataset -> float_attribute.
Variable RescaleIntercept : dataset -> float_attribute.
Variable PixelSpacing : dataset -> option (R * R).
Variable ImagePositionPatient : dataset -> option vec3.
Variable ImageOrientationPatient : dataset -> option Reconstructor.iop_row.
Variable rounded : R -> R.
Variable float32 : R -> R.

Local Notation "'filled'" :=
  (fill dataset pixel_array RescaleSlope RescaleIntercept PixelSpacing
        ImagePositionPatient ImageOrientationPatient rounded float32).
Local Notation "'to_volume'" :=
  (dicom_to_volume dataset pixel_array RescaleSlope RescaleIntercept PixelSpacing
                   ImagePositionPatient ImageOrientationPatient rounded float32).
Local Notation "'whole'" :=
  (complete dataset pixel_array RescaleSlope RescaleIntercept PixelSpacing
            ImagePositionPatient ImageOrientationPatient).
Local Notation "'slope'" := (slope_of dataset RescaleSlope).
Local Notation "'intercept'" := (intercept_of dataset RescaleIntercept).

Lemma fits_refl (n : nat) : fits n n = true.
Proof. unfold fits. now rewrite Nat.eqb_refl. Qed.

Lemma spread_refl {A : Type} (n : nat) (l : list A) : spread n n l = l.
Proof. unfold spread. now rewrite Nat.eqb_refl. Qed.

Lemma broadcast_same (h w : nat) (b : image) (s t : R) :
  ishape b = (h, w) ->
  broadcast h w (rescaled rounded b s t) =
  Some (map (map (fun p => rounded (rounded (p * s) + t))) (pixels b)).
Proof.
  intros E. unfold broadcast, rescaled. cbn [ishape pixels]. rewrite E.
  rewrite !fits_refl, spread_refl. cbn [andb]. f_equal.
  rewrite <- (map_id (map (map _) (pixels b))) at 2.
  rewrite map_map. rewrite map_map. apply map_ext. intros r. now rewrite spread_refl.
Qed.

Lemma float_or_returns (a : float_attribute) (default : R) :
  a <> FloatEmpty ->
  exists x, float_or a default = Returns x /\
            ((forall y, a <> FloatValue y) -> x = default).
Proof.
  destruct a as [x| | |]; intros H; try (now contradiction H).
  - exists x. split; [reflexivity|]. intros K. now contradiction (K x).
  - exists default. now split.
  - exists default. now split.
Qed.

Lemma float_or_raises (a : float_attribute) (default : R) (e : error) :
  float_or a default = Raises e -> a = FloatEmpty /\ e = Earlier TypeError.
Proof. destruct a; try discriminate. intros H. injection H as <-. now split. Qed.

Lemma fill_errors (h w : nat) (series : list dataset) (e : error) :
  filled h w series = Raises e ->
  e = AttributeError \/ e = ValueError \/ e = Earlier TypeError.
Proof.
  induction series as [|ds rest IH]; simpl; [discriminate|].
  destruct (pixel_array ds) as [b|]; [|intros H; injection H as <-; now left].
  destruct (slope ds) as [s|e1] eqn:Es.
  2:{ intros H. injection H as <-. right; right. now apply float_or_raises in Es. }
  destruct (intercept ds) as [t|e1] eqn:Et.
  2:{ intros H. injection H as <-. right; right. now apply float_or_raises in Et. }
  destruct (broadcast h w _) as [sl|]; [|intros H; injection H as <-; right; now left].
  destruct (PixelSpacing ds); [|intros H; injection H as <-; now left].
  destruct (ImagePositionPatient ds); [|intros H; injection H as <-; now left].
  destruct (ImageOrientationPatient ds); [|intros H; injection H as <-; now left].
  destruct (filled h w rest) as [a|e']; [discriminate|].
  intros H. injection H as <-. now apply IH.
Qed.

Lemma fill_lengths (h w : nat) (series : list dataset) (a : arrays) :
  filled h w series = Returns a ->
  length (vol_rows a) = length series /\ length (ps_rows a) = length series /\
  length (ipp_rows a) = length series /\ length (iop_rows a) = length series.
Proof.
  revert a. induction series as [|ds rest IH]; simpl; intros a H.
  - injection H as <-. simpl. auto.
  - destruct (pixel_array ds) as [b|]; [|discriminate].
    destruct (slope ds) as [s|e1]; [|discriminate].
    destruct (intercept ds) as [t|e1]; [|discriminate].
    destruct (broadcast h w _) as [sl|]; [|discriminate].
    destruct (PixelSpacing ds); [|discriminate].
    destruct (ImagePositionPatient ds); [|discriminate].
    destruct (ImageOrientationPatient ds); [|discriminate].
    destruct (filled h w rest) as [a0|e']; [|discriminate].
    injection H as <-. destruct (IH a0 eq_refl) as (H1 & H2 & H3 & H4).
    simpl. rewrite H1, H2, H3, H4. auto.
Qed.

(** X11.  On datasets whose pixel data, where present, is a 2-D array
    and whose spacing, position and orientation, where present, hold the
    values the DICOM standard gives them: [dicom_to_volume] raises
    [IndexError] exactly on the empty series (the [IndexError] of
    [create_affine] on an empty spacing array cannot occur); the only
    other exceptions are the [AttributeError] of a missing attribute, the
    [TypeError] of a rescale attribute without a value and the
    [ValueError] of a slice that does not fit the volume. *)
Theorem dicom_to_volume_index_error (series : list dataset) :
  (to_volume series = Raises (Earlier IndexError) <-> series = []) /\
  (forall e, to_volume series = Raises e ->
     e = Earlier IndexError \/ e = AttributeError \/ e = ValueError \/
     e = Earlier TypeError).
Proof.
  assert (K : forall e, to_volume series = Raises e ->
                (e = Earlier IndexError /\ series = []) \/
                e = AttributeError \/ e = ValueError \/ e = Earlier TypeError).
  { intros e. unfold dicom_to_volume.
    destruct series as [|first rest]; [intros H; injection H as <-; now left|].
    destruct (pixel_array first) as [b0|]; [|intros H; injection H as <-; auto].
    destruct (ishape b0) as [h w].
    destruct (filled h w (first :: rest)) as [a|e'] eqn:Ef.
    - destruct (fill_lengths _ _ _ _ Ef) as (_ & Hp & _).
      destruct (ps_rows a) as [|p0 ps] eqn:Ep; [simpl in Hp; discriminate|].
      rewrite create_affine_value. discriminate.
    - intros H. injection H as <-. right. now apply (fill_errors h w (first :: rest)). }
  split.
  - split; [|intros ->; reflexivity].
    intros H. destruct (K _ H) as [[_ E]|[E|[E|E]]]; [exact E| | |]; discriminate.
  - intros e H. destruct (K e H) as [[E _]|[E|[E|E]]]; auto.
Qed.

Lemma fill_complete (h w : nat) (series : list dataset) :
  Forall (whole h w) series ->
  exists a,
    filled h w series = Returns a /\
    Forall2 (fun ds sl => exists b s t,
               pixel_array ds = Some b /\ ishape b = (h, w) /\ well_formed b /\
               slope ds = Returns s /\ intercept ds = Returns t /\
               sl = map (map float32)
                        (map (map (fun p => rounded (rounded (p * s) + t))) (pixels b)))
            series (vol_rows a) /\
    Forall2 (fun ds p => PixelSpacing ds = Some p) series (ps_rows a) /\
    Forall2 (fun ds p => ImagePositionPatient ds = Some p) series (ipp_rows a) /\
    Forall2 (fun ds p => ImageOrientationPatient ds = Some p) series (iop_rows a).
Proof.
  induction 1 as [|ds rest Hds _ IH].
  - exists (Arrays [] [] [] []). simpl. repeat split; constructor.
  - destruct IH as (a & Ea & Hv & Hp & Hi & Ho).
    destruct Hds as ((b & Eb & Esh & Hwf) & Hrs & Hri & Hps & Hipp & Hiop).
    destruct (float_or_returns _ 1 Hrs) as (s & Es & _).
    destruct (float_or_returns _ 0 Hri) as (t & Et & _).
    destruct (PixelSpacing ds) as [p|] eqn:Ep; [|congruence].
    destruct (ImagePositionPatient ds) as [q|] eqn:Eq; [|congruence].
    destruct (ImageOrientationPatient ds) as [o|] eqn:Eo; [|congruence].
    eexists. cbn [fill]. unfold slope_of, intercept_of.
    rewrite Eb, Es, Et, (broadcast_same h w b _ _ Esh), Ep, Eq, Eo, Ea.
    split; [reflexivity|]. cbn [vol_rows ps_rows ipp_rows iop_rows].
    repeat split; constructor; try assumption.
    exists b, s, t. auto 10.
Qed.

Lemma nth_error_Forall2 {A B : Type} (P : A -> B -> Prop) (l : list A) (l' : list B)
    (k : nat) (a : A) :
  Forall2 P l l' -> nth_error l k = Some a ->
  exists b, nth_error l' k = Some b /\ P a b.
Proof.
  intros H. revert k. induction H as [|x y l l' Hxy _ IH]; intros k E.
  - destruct k; discriminate.
  - destruct k as [|k]; simpl in *.
    + injection E as <-. now exists y.
    + now apply IH.
Qed.

Lemma dicom_to_volume_complete (first : dataset) (rest : list dataset) (h w : nat) :
  Forall (whole h w) (first :: rest) ->
  exists vol pixdim affine log pss ipps iops,
    to_volume (first :: rest) = Returns (vol, pixdim, affine, log) /\
    shape vol = (S (length rest), h, w) /\
    well_shaped vol /\
    Forall2 (fun ds p => PixelSpacing ds = Some p) (first :: rest) pss /\
    Forall2 (fun ds p => ImagePositionPatient ds = Some p) (first :: rest) ipps /\
    Forall2 (fun ds p => ImageOrientationPatient ds = Some p) (first :: rest) iops /\
    Reconstructor.create_affine ipps iops pss = Ok (affine, pixdim, log) /\
    forall k ds b j i,
      nth_error (first :: rest) k = Some ds -> pixel_array ds = Some b ->
      exists s t,
        slope ds = Returns s /\ intercept ds = Returns t /\
        voxel vol k j i =
          option_map (fun p => float32 (rounded (rounded (p * s) + t))) (pixel b j i).
Proof.
  intros Hall.
  destruct (fill_complete h w _ Hall) as (a & Ea & Hv & Hp & Hi & Ho).
  pose proof (Forall_inv Hall) as ((b0 & Eb0 & Esh0 & _) & _).
  destruct (ps_rows a) as [|p0 ps] eqn:Ep; [inversion Hp|].
  exists (Volume (S (length rest), h, w) (vol_rows a)).
  eexists. eexists. eexists. exists (p0 :: ps), (ipp_rows a), (iop_rows a).
  split.
  { unfold dicom_to_volume. rewrite Eb0, Esh0, Ea, Ep, create_affine_value.
    reflexivity. }
  split; [reflexivity|]. split.
  { unfold well_shaped. cbn [shape voxels]. split.
    - symmetry. exact (Forall2_length Hv).
    - clear -Hv.
      induction Hv as [|ds sl l l' (b & s & t & _ & Esh & [Hl Hr] & _ & _ & ->) _ IH];
        constructor; [|exact IH].
      rewrite !length_map, Hl, Esh. split; [reflexivity|].
      apply Forall_map, Forall_map. eapply Forall_impl; [|exact Hr].
      intros r Hlen. cbv beta. now rewrite !length_map, Hlen, Esh. }
  split; [exact Hp|]. split; [exact Hi|]. split; [exact Ho|].
  split; [apply create_affine_value|].
  intros k ds b j i Ek Eb.
  destruct (nth_error_Forall2 _ _ _ k ds Hv Ek)
    as (sl & Esl & b' & s & t & Eb' & _ & _ & Es & Et & ->).
  assert (b' = b) by congruence. subst b'.
  exists s, t. split; [exact Es|]. split; [exact Et|].
  unfold voxel, pixel. cbn [voxels]. rewrite Esl, !nth_error_map.
  destruct (nth_error (pixels b) j) as [r|]; [|reflexivity].
  cbn [option_map]. rewrite !nth_error_map.
  destruct (nth_error r i); reflexivity.
Qed.

(** X12.  On a series whose slices all have pixel data of one shape
    [(h, w)], rescale attributes that are not without a value, a pixel
    spacing, a position and an orientation, [dicom_to_volume] returns: a
    volume of shape [(n, h, w)] whose data has these extents; the matrix,
    pixdim and warnings of [create_affine] on the attributes of the slices
    in series order; voxel [(k, j, i)] is the float32 conversion of pixel
    [(j, i)] of slice [k] times the slope plus the intercept of that
    slice, the product and the sum each rounded as numpy computes them,
    with slope 1 and intercept 0 for a slice whose attribute is missing
    or unparseable. *)
Theorem dicom_to_volume_calibrated (first : dataset) (rest : list dataset) (h w : nat) :
  Forall (whole h w) (first :: rest) ->
  exists vol pixdim affine log pss ipps iops,
    to_volume (first :: rest) = Returns (vol, pixdim, affine, log) /\
    shape vol = (S (length rest), h, w) /\
    well_shaped vol /\
    Forall2 (fun ds p => PixelSpacing ds = Some p) (first :: rest) pss /\
    Forall2 (fun ds p => ImagePositionPatient ds = Some p) (first :: rest) ipps /\
    Forall2 (fun ds p => ImageOrientationPatient ds = Some p) (first :: rest) iops /\
    Reconstructor.create_affine ipps iops pss = Ok (affine, pixdim, log) /\
    forall k ds b j i,
      nth_error (first :: rest) k = Some ds -> pixel_array ds = Some b ->
      exists s t,
        voxel vol k j i =
          option_map (fun p => float32 (rounded (rounded (p * s) + t))) (pixel b j i) /\
        match RescaleSlope ds with
        | FloatValue a => s = a
        | FloatMissing => s = 1
        | FloatUnparseable => s = 1
        | FloatEmpty => False
        end /\
        match RescaleIntercept ds with
        | FloatValue a => t = a
        | FloatMissing => t = 0
        | FloatUnparseable => t = 0
        | FloatEmpty => False
        end.
Proof.
  intros Hall.
  destruct (dicom_to_volume_complete first rest h w Hall)
    as (vol & pixdim & affine & log & pss & ipps & iops & E & Hs & Hw & Hp & Hi & Ho & Ea & Hv).
  exists vol, pixdim, affine, log, pss, ipps, iops.
  repeat (split; [assumption|]).
  intros k ds b j i Ek Eb.
  destruct (Hv k ds b j i Ek Eb) as (s & t & Es & Et & V).
  exists s, t. split; [exact V|].
  unfold slope_of, intercept_of in Es, Et.
  split; [destruct (RescaleSlope ds)|destruct (RescaleIntercept ds)];
    try discriminate; simpl in *; congruence.
Qed.

Lemma fill_first_fault (h w : nat) (before after : list dataset) (ds : dataset) (e : error) :
  Forall (whole h w) before ->
  filled h w (ds :: after) = Raises e ->
  filled h w (before ++ ds :: after) = Raises e.
Proof.
  intros Hb Hf. induction Hb as [|d before Hd _ IH]; [exact Hf|].
  destruct Hd as ((b & Eb & Esh & Hwf) & Hrs & Hri & Hps & Hipp & Hiop).
  destruct (float_or_returns _ 1 Hrs) as (s & Es & _).
  destruct (float_or_returns _ 0 Hri) as (t & Et & _).
  destruct (PixelSpacing d) as [p|] eqn:Ep; [|congruence].
  destruct (ImagePositionPatient d) as [q|] eqn:Eq; [|congruence].
  destruct (ImageOrientationPatient d) as [o|] eqn:Eo; [|congruence].
  cbn [app fill]. unfold slope_of, intercept_of.
  now rewrite Eb, Es, Et, (broadcast_same h w b _ _ Esh), Ep, Eq, Eo, IH.
Qed.

(** X13.  After slices that are complete, the first slice that is not
    decides how [dicom_to_volume] ends, by the first of these that
    applies: no pixel data is an [AttributeError]; a rescale attribute
    without a value is a [TypeError]; pixel data whose number of rows is
    neither that of the first slice nor 1, or whose number of columns is
    neither that of the first slice nor 1, is a [ValueError]; a missing
    spacing, position or orientation is an [AttributeError]. *)
Theorem dicom_to_volume_first_fault
    (first : dataset) (before after : list dataset) (ds : dataset) (h w : nat) :
  Forall (whole h w) (first :: before) ->
  let series := first :: before ++ ds :: after in
  (pixel_array ds = None -> to_volume series = Raises AttributeError) /\
  (forall b, pixel_array ds = Some b ->
     RescaleSlope ds = FloatEmpty \/ RescaleIntercept ds = FloatEmpty ->
     to_volume series = Raises TypeError) /\
  (forall b r c, pixel_array ds = Some b ->
     RescaleSlope ds <> FloatEmpty -> RescaleIntercept ds <> FloatEmpty ->
     ishape b = (r, c) ->
     (r <> h /\ r <> 1%nat) \/ (c <> w /\ c <> 1%nat) ->
     to_volume series = Raises ValueError) /\
  (forall b r c, pixel_array ds = Some b ->
     RescaleSlope ds <> FloatEmpty -> RescaleIntercept ds <> FloatEmpty ->
     ishape b = (r, c) ->
     (r = h \/ r = 1%nat) -> (c = w \/ c = 1%nat) ->
     PixelSpacing ds = None \/ ImagePositionPatient ds = None \/
     ImageOrientationPatient ds = None ->
     to_volume series = Raises AttributeError).
Proof.
  intros Hall. cbv zeta.
  pose proof (Forall_inv Hall) as ((b0 & Eb0 & Esh0 & _) & _).
  assert (K : forall e, filled h w (ds :: after) = Raises e ->
                to_volume (first :: before ++ ds :: after) = Raises e).
  { intros e He. unfold dicom_to_volume. rewrite Eb0, Esh0.
    change (first :: before ++ ds :: after) with ((first :: before) ++ ds :: after).
    now rewrite (fill_first_fault h w _ _ _ e Hall He). }
  split; [|split; [|split]].
  - intros E. apply K. cbn [fill]. now rewrite E.
  - intros b Eb Hempty. apply K. cbn [fill]. rewrite Eb.
    unfold slope_of, intercept_of.
    destruct (RescaleSlope ds) as [x| | |];
      try reflexivity; cbn [float_or];
      (destruct Hempty as [Hs|Hi]; [discriminate|]); rewrite Hi; reflexivity.
  - intros b r c Eb Hrs Hri Esh Hbad. apply K. cbn [fill]. rewrite Eb.
    destruct (float_or_returns _ 1 Hrs) as (s & Es & _).
    destruct (float_or_returns _ 0 Hri) as (t & Et & _).
    unfold slope_of, intercept_of. rewrite Es, Et.
    unfold broadcast, rescaled. cbn [ishape]. rewrite Esh.
    replace (fits r h && fits c w) with false; [reflexivity|].
    symmetry. apply andb_false_iff. unfold fits.
    destruct Hbad as [[H1 H2]|[H1 H2]]; [left|right];
      apply orb_false_iff; split; now apply Nat.eqb_neq.
  - intros b r c Eb Hrs Hri Esh Hr Hc Hmiss. apply K. cbn [fill]. rewrite Eb.
    destruct (float_or_returns _ 1 Hrs) as (s & Es & _).
    destruct (float_or_returns _ 0 Hri) as (t & Et & _).
    unfold slope_of, intercept_of. rewrite Es, Et.
    unfold broadcast, rescaled. cbn [ishape]. rewrite Esh.
    replace (fits r h && fits c w) with true.
    2:{ symmetry. apply andb_true_iff. unfold fits.
        split; apply orb_true_iff; [destruct Hr|destruct Hc];
          [left|right|left|right]; now apply Nat.eqb_eq. }
    destruct (PixelSpacing ds); [|reflexivity].
    destruct (ImagePositionPatient ds); [|reflexivity].
    destruct (ImageOrientationPatient ds); [|reflexivity].
    destruct Hmiss as [H|[H|H]]; discriminate.
Qed.

End AssemblerFacts.

(** ** The conversion of a list of series *)

Section PipelineFacts.

Import Pipeline.

Lemma nth_error_map_seq {A : Type} (f : nat -> A) (n i : nat) :
  (i < n)%nat -> nth_error (map f (seq 0 n)) i = Some (f i).
Proof.
  intros H. rewrite nth_error_map.
  rewrite (nth_error_nth' (seq 0 n) 0%nat) by now rewrite length_seq.
  now rewrite seq_nth.
Qed.

Lemma transpose_shape (vol : volume) (n h w : nat) :
  shape vol = (n, h, w) -> shape (transpose vol) = (w, h, n).
Proof. intros E. unfold transpose. now rewrite E. Qed.

Lemma transpose_well_shaped (vol : volume) : well_shaped (transpose vol).
Proof.
  unfold transpose, well_shaped. destruct (shape vol) as [[n h] w]. cbn [shape voxels].
  split; [now rewrite length_map, length_seq|].
  apply Forall_map, Forall_forall. intros i _.
  split; [now rewrite length_map, length_seq|].
  apply Forall_map, Forall_forall. intros j _.
  now rewrite length_map, length_seq.
Qed.

Lemma transpose_voxel (vol : volume) (n h w k j i : nat) :
  shape vol = (n, h, w) -> well_shaped vol ->
  (k < n)%nat -> (j < h)%nat -> (i < w)%nat ->
  voxel (transpose vol) i j k = voxel vol k j i.
Proof.
  intros Hsh Hws Hk Hj Hi.
  destruct (well_shaped_lookup vol n h w k j i Hsh Hws Hk Hj Hi)
    as (s & r & a & Es & Hh & Er & Hw & Ea).
  unfold voxel at 2. rewrite Es, Er, Ea.
  unfold voxel, transpose. rewrite Hsh. cbn [voxels].
  rewrite nth_error_map_seq by assumption.
  rewrite nth_error_map_seq by assumption.
  rewrite nth_error_map_seq by assumption.
  f_equal.
  rewrite (nth_error_nth _ _ _ Es), (nth_error_nth _ _ _ Er).
  now apply nth_error_nth.
Qed.

Lemma split_nonempty (sep : ascii) (s : string) : split sep s <> [].
Proof.
  induction s as [|c t IH]; simpl; [discriminate|].
  destruct (Ascii.eqb c sep); [discriminate|].
  destruct (split sep t); discriminate.
Qed.

Lemma split_second (sep : ascii) (s : string) :
  (exists part, nth_error (split sep s) 1 = Some part) <->
  exists a b, s = (a ++ String sep b)%string.
Proof.
  induction s as [|c t IH]; simpl.
  - split; [intros [part H]; discriminate|].
    intros (a & b & E). destruct a; discriminate.
  - destruct (Ascii.eqb_spec c sep) as [->|Hc].
    + split.
      * intros _. exists EmptyString, t. reflexivity.
      * intros _. pose proof (split_nonempty sep t).
        destruct (split sep t) as [|p ps]; [congruence|]. now exists p.
    + pose proof (split_nonempty sep t) as Hn.
      destruct (split sep t) as [|p ps]; [congruence|]. cbn [nth_error] in *.
      rewrite IH. split.
      * intros (a & b & ->). now exists (String c a), b.
      * intros (a & b & E). destruct a as [|d a]; simpl in E.
        -- injection E as E _. congruence.
        -- injection E as _ ->. now exists a, b.
Qed.

Variable isdir : string -> bool.
Variable isfile : string -> bool.
Variable join : string -> string -> string.
Variable listdir : string -> list string.

Context {dataset : Type}.
Variable dcmread : string -> result dataset.
Variable InstanceNumber : dataset -> Loader.instance_number.
Variable pixel_array : dataset -> option Assembler.image.
Variable RescaleSlope : dataset -> Assembler.float_attribute.
Variable RescaleIntercept : dataset -> Assembler.float_attribute.
Variable PixelSpacing : dataset -> option (R * R).
Variable ImagePositionPatient : dataset -> option vec3.
Variable ImageOrientationPatient : dataset -> option Reconstructor.iop_row.
Variable rounded : R -> R.
Variable float32 : R -> R.
Variable save_error : string -> option error.

Local Notation "'to_nifti'" :=
  (dicom_to_nifti isdir isfile join listdir dataset dcmread InstanceNumber pixel_array
     RescaleSlope RescaleIntercept PixelSpacing ImagePositionPatient
     ImageOrientationPatient rounded float32 save_error).
Local Notation "'convert'" :=
  (convert_series isdir isfile join listdir dataset dcmread InstanceNumber pixel_array
     RescaleSlope RescaleIntercept PixelSpacing ImagePositionPatient
     ImageOrientationPatient rounded float32 save_error).
Local Notation "'to_volume'" :=
  (Assembler.dicom_to_volume dataset pixel_array RescaleSlope RescaleIntercept
     PixelSpacing ImagePositionPatient ImageOrientationPatient rounded float32).
Local Notation "'whole'" :=
  (Assembler.complete dataset pixel_array RescaleSlope RescaleIntercept PixelSpacing
     ImagePositionPatient ImageOrientationPatient).
Local Notation "'find'" := (Finder.find_dicom_files isdir isfile join listdir).

(** X15.  [dicom_to_nifti] never saves an image and never writes to
    stderr.  On an empty list it returns; on the default [None] it raises
    [TypeError]; on a list whose first value contains an underscore it
    raises [TypeError], the part after the underscore being a [str] used
    as a list index; on a list whose first value has no underscore it
    raises [IndexError]. *)
Theorem dicom_to_nifti_never_converts
    (input_dir output_dir : string) (template_json : option (list string)) (w : world) :
  snd (to_nifti input_dir output_dir template_json w) = w /\
  match template_json with
  | None => fst (to_nifti input_dir output_dir template_json w) = Raises TypeError
  | Some [] => fst (to_nifti input_dir output_dir template_json w) = Returns tt
  | Some (value :: _) =>
      ((exists a b, value = (a ++ String "_" b)%string) ->
       fst (to_nifti input_dir output_dir template_json w) = Raises TypeError) /\
      (~ (exists a b, value = (a ++ String "_" b)%string) ->
       fst (to_nifti input_dir output_dir template_json w) = Raises (Earlier IndexError))
  end.
Proof.
  destruct template_json as [[|value rest]|]; cbn [dicom_to_nifti convert_each fst snd];
    [split; reflexivity| |split; reflexivity].
  pose proof (split_nonempty "_" value) as Hn.
  pose proof (split_second "_" value) as Hs.
  destruct (split "_" value) as [|p_id parts]; [congruence|].
  cbn [getitem length Z.ltb Z.compare Z.to_nat nth_error].
  change (0 <? 0)%Z with false. change (1 <? 0)%Z with false. cbv iota.
  change (Z.to_nat 0) with 0%nat. change (Z.to_nat 1) with 1%nat.
  cbn [nth_error] in *.
  destruct parts as [|index parts]; cbn [nth_error fst snd] in *.
  - split; [reflexivity|]. split; [|reflexivity].
    intros H. apply Hs in H. destruct H as [part H]. discriminate.
  - split; [reflexivity|]. split; [reflexivity|].
    intros H. exfalso. apply H, Hs. now exists index.
Qed.

Lemma pixel_in_range (b : Assembler.image) (h wd j i : nat) (p : R) :
  Assembler.well_formed b -> Assembler.ishape b = (h, wd) ->
  Assembler.pixel b j i = Some p -> (j < h)%nat /\ (i < wd)%nat.
Proof.
  intros [Hl Hr] Esh. unfold Assembler.pixel. rewrite Esh in *. cbn [fst snd] in *.
  destruct (nth_error (Assembler.pixels b) j) as [r|] eqn:Er; [|discriminate].
  intros Ep. split.
  - rewrite <- Hl. apply nth_error_Some. congruence.
  - rewrite Forall_forall in Hr. rewrite <- (Hr r (nth_error_In _ _ Er)).
    apply nth_error_Some. congruence.
Qed.

Lemma create_affine_row3 ipp iop ps mat pixdim warnings :
  Reconstructor.create_affine ipp iop ps = Ok (mat, pixdim, warnings) ->
  row3 mat = V4 0 0 0 1.
Proof.
  destruct ps as [|p0 rest]; [discriminate|]. rewrite create_affine_value.
  intros E. injection E as <- _ _. reflexivity.
Qed.


Lemma convert_each_stops (input_dir output_dir value : string) (rest : list string)
    (w : world) :
  exists e,
    convert_each isdir isfile join listdir dataset dcmread InstanceNumber pixel_array
      RescaleSlope RescaleIntercept PixelSpacing ImagePositionPatient
      ImageOrientationPatient rounded float32 save_error input_dir output_dir (value :: rest) w
    = (Raises e, w).
Proof.
  cbn [convert_each].
  pose proof (split_nonempty "_" value) as Hn.
  destruct (split "_" value) as [|p_id parts]; [congruence|].
  cbn [getitem length]. change (0 <? 0)%Z with false. change (1 <? 0)%Z with false.
  cbv iota. change (Z.to_nat 0) with 0%nat. change (Z.to_nat 1) with 1%nat.
  cbn [nth_error].
  destruct parts as [|index parts]; cbn [nth_error]; eexists; reflexivity.
Qed.

(** C9 (amended).  On no files [load_dicom_series] returns the empty
    series and raises nothing; it returns the empty series only then.
    The statements that follow [find_dicom_files] in the loop body of
    [dicom_to_nifti] (lines 259-268) stop with [No DICOM files found.] on
    an empty list of files and never hand an empty series on; they stop
    for no other reason.  [dicom_to_nifti] itself does not reach them: it
    leaves stderr and the saved files as they were, whatever it is
    given. *)
Theorem load_dicom_series_empty :
  Loader.load_dicom_series dcmread InstanceNumber [] = Ok [] /\
  (forall files,
     Loader.load_dicom_series dcmread InstanceNumber files = Ok [] <-> files = []) /\
  Loader.dicom_to_nifti_load dcmread InstanceNumber []
    = Ok (Loader.Stopped Loader.no_files_message) /\
  (forall files series,
     Loader.dicom_to_nifti_load dcmread InstanceNumber files = Ok (Loader.Proceeds series) ->
     series <> [] /\ files <> []) /\
  (forall files message,
     Loader.dicom_to_nifti_load dcmread InstanceNumber files = Ok (Loader.Stopped message) ->
     files = [] /\ message = Loader.no_files_message) /\
  (forall input_dir output_dir template_json w,
     snd (to_nifti input_dir output_dir template_json w) = w).
Proof.
  assert (Hempty : forall files,
            Loader.load_dicom_series dcmread InstanceNumber files = Ok [] -> files = []).
  { intros files. unfold Loader.load_dicom_series.
    destruct (Loader.read_all dcmread InstanceNumber files) as [l|e] eqn:El; [|discriminate].
    destruct (read_all_ok dcmread InstanceNumber _ _ El) as [_ Hlen].
    pose proof (Permutation_length (sort_by_key_perm l)) as Hp.
    intros H. injection H as H. apply (f_equal (@length dataset)) in H.
    rewrite length_map in H. simpl in H.
    destruct files; [reflexivity|simpl in Hlen; lia]. }
  split; [reflexivity|]. split; [|split; [reflexivity|split; [|split]]].
  - intros files. split; [apply Hempty|intros ->; reflexivity].
  - intros files series. unfold Loader.dicom_to_nifti_load.
    destruct files as [|f files]; [discriminate|].
    destruct (Loader.load_dicom_series dcmread InstanceNumber (f :: files)) as [[|d s]|e];
      try discriminate.
    intros H. injection H as <-. split; discriminate.
  - intros files message. unfold Loader.dicom_to_nifti_load.
    destruct files as [|f files].
    + intros H. injection H as <-. now split.
    + destruct (Loader.load_dicom_series dcmread InstanceNumber (f :: files))
        as [[|d s]|e] eqn:E; try discriminate.
      apply Hempty in E. discriminate.
  - intros input_dir output_dir [[|value rest]|] w; cbn [dicom_to_nifti];
      [reflexivity| |reflexivity].
    destruct (convert_each_stops input_dir output_dir value rest w) as [e ->].
    reflexivity.
Qed.

End PipelineFacts.

Section PipelineEffects.

Import Pipeline.

Variable isdir : string -> bool.
Variable isfile : string -> bool.
Variable join : string -> string -> string.
Variable listdir : string -> list string.

Context {dataset : Type}.
Variable dcmread : string -> result dataset.
Variable InstanceNumber : dataset -> Loader.instance_number.
Variable pixel_array : dataset -> option Assembler.image.
Variable RescaleSlope : dataset -> Assembler.float_attribute.
Variable RescaleIntercept : dataset -> Assembler.float_attribute.
Variable PixelSpacing : dataset -> option (R * R).
Variable ImagePositionPatient : dataset -> option vec3.
Variable ImageOrientationPatient : dataset -> option Reconstructor.iop_row.
Variable rounded : R -> R.
Variable float32 : R -> R.
Variable save_error : string -> option error.

Local Notation "'convert'" :=
  (convert_series isdir isfile join listdir dataset dcmread InstanceNumber pixel_array
     RescaleSlope RescaleIntercept PixelSpacing ImagePositionPatient
     ImageOrientationPatient rounded float32 save_error).
Local Notation "'to_volume'" :=
  (Assembler.dicom_to_volume dataset pixel_array RescaleSlope RescaleIntercept
     PixelSpacing ImagePositionPatient ImageOrientationPatient rounded float32).
Local Notation "'find'" := (Finder.find_dicom_files isdir isfile join listdir).

Lemma dicom_to_nifti_load_stopped (files : list string) (message : string) :
  Loader.dicom_to_nifti_load dcmread InstanceNumber files = Ok (Loader.Stopped message) ->
  files = [] /\ message = Loader.no_files_message.
Proof.
  unfold Loader.dicom_to_nifti_load. destruct files as [|f files].
  - intros E. injection E as <-. split; reflexivity.
  - unfold Loader.load_dicom_series.
    destruct (Loader.read_all dcmread InstanceNumber (f :: files)) as [l|e] eqn:El;
      [|discriminate].
    destruct (read_all_ok dcmread InstanceNumber _ _ El) as [_ Hlen].
    pose proof (Permutation_length (sort_by_key_perm l)) as Hp.
    destruct (Loader.sort_by_key l) as [|t r]; [simpl in *; lia|].
    discriminate.
Qed.

Lemma find_messages (path : string) :
  snd (find path) = [] \/ snd (find path) = [Finder.cannot_open path].
Proof.
  unfold Finder.find_dicom_files. destruct (isdir path).
  - destruct (Finder.first_match _ _ _ _); now left.
  - destruct (isfile path); [now left|now right].
Qed.

Lemma dicom_to_volume_warnings series vol pixdim mat warnings :
  to_volume series = Returns (vol, pixdim, mat, warnings) ->
  forall m, In m warnings ->
    m = Reconstructor.warn_spacing \/ m = Reconstructor.warn_orthogonal.
Proof.
  unfold Assembler.dicom_to_volume. destruct series as [|first rest]; [discriminate|].
  destruct (pixel_array first) as [b0|]; [|discriminate].
  destruct (Assembler.ishape b0) as [h w].
  destruct (Assembler.fill _ _ _ _ _ _ _ _ _ _ _) as [a|e]; [|discriminate].
  destruct (Assembler.ps_rows a) as [|p0 ps]; [discriminate|].
  rewrite create_affine_value. intros E. injection E as _ _ _ <-.
  intros m Hm. apply in_app_or in Hm.
  destruct Hm as [Hm|Hm]; destruct (Rlt_dec _ _); simpl in Hm;
    try contradiction; destruct Hm as [<-|[]]; auto.
Qed.

Lemma unreadable_not_cannot_open (path : string) :
  Loader.unreadable_message <> Finder.cannot_open path.
Proof. discriminate. Qed.

Lemma unreadable_not_warning :
  Loader.unreadable_message <> Reconstructor.warn_spacing /\
  Loader.unreadable_message <> Reconstructor.warn_orthogonal /\
  Loader.unreadable_message <> Loader.no_files_message.
Proof. repeat split; discriminate. Qed.

(** X17.  Whatever the path holds, the body of the loop only adds to
    stderr and never writes [Unable to read DICOM files.].  It goes on to
    the next value only after appending one image with the output name to
    the saved files; it ends the function only when no files were found,
    after writing [No DICOM files found.], with the saved files as they
    were; when it raises, files were found and the saved files are as
    they were. *)
Theorem convert_series_effects (dicom_path output_file : string) (w : world) :
  let r := convert dicom_path output_file w in
  exists new,
    err (snd r) = err w ++ new /\
    ~ In Loader.unreadable_message new /\
    match fst r with
    | Returns Continue =>
        fst (find dicom_path) <> [] /\
        exists image, saved (snd r) = saved w ++ [(output_file, image)]
    | Returns Return =>
        fst (find dicom_path) = [] /\
        new = snd (find dicom_path) ++ [Loader.no_files_message] /\
        saved (snd r) = saved w
    | Raises _ =>
        fst (find dicom_path) <> [] /\ saved (snd r) = saved w
    end.
Proof.
  cbv zeta. unfold convert_series.
  pose proof (find_messages dicom_path) as Hm.
  destruct (find dicom_path) as [files messages]. cbn [fst snd] in *.
  assert (Hmsg : ~ In Loader.unreadable_message messages).
  { destruct Hm as [->| ->]; simpl; [tauto|].
    intros [H|[]]. now apply (unreadable_not_cannot_open dicom_path). }
  destruct unreadable_not_warning as (N1 & N2 & N3).
  destruct (Loader.dicom_to_nifti_load dcmread InstanceNumber files) as [[message|series]|e]
    eqn:El.
  - destruct (dicom_to_nifti_load_stopped _ _ El) as [-> ->].
    exists (messages ++ [Loader.no_files_message]). cbn [fst snd err saved log].
    split; [now rewrite app_assoc|]. split.
    + rewrite in_app_iff. simpl. intros [H|[H|[]]]; [tauto|now apply N3].
    + repeat split.
  - assert (Hf : files <> []).
    { intros ->. unfold Loader.dicom_to_nifti_load in El. discriminate. }
    destruct (to_volume series) as [[[[vol pixdim] mat] warnings]|e] eqn:Ev.
    + destruct (Normalizer.convert_coords vol mat) as [vol' mat'].
      assert (Hw : ~ In Loader.unreadable_message (messages ++ warnings)).
      { rewrite in_app_iff. intros [H|H]; [tauto|].
        destruct (dicom_to_volume_warnings _ _ _ _ _ Ev _ H); [now apply N1|now apply N2]. }
      exists (messages ++ warnings). unfold write_nifti.
      destruct (save_error output_file) as [e|]; cbn [fst snd err saved log].
      * split; [now rewrite app_assoc|]. split; [exact Hw|]. now split.
      * split; [now rewrite app_assoc|]. split; [exact Hw|].
        split; [exact Hf|]. eexists. reflexivity.
    + exists messages. cbn [fst snd err saved log]. repeat split; assumption.
  - assert (Hf : files <> []).
    { intros ->. unfold Loader.dicom_to_nifti_load in El. discriminate. }
    exists messages. cbn [fst snd err saved log]. repeat split; assumption.
Qed.

End PipelineEffects.

(** ** The dataset list *)

Section ManifestFacts.

Import Manifest.

Variable join : string -> string -> string.
Variable listdir : string -> list string.
Variable random_shuffle : list string -> list string.
Variable open_error : string -> option error.

Local Notation "'save'" := (save_nifti_to_json join listdir random_shuffle open_error).

Lemma slices_append {A : Type} (l : list A) (k : Z) : slice_to l k ++ slice_from l k = l.
Proof. apply firstn_skipn. Qed.

Lemma map_image_Entry (l : list string) : map image (map Entry l) = l.
Proof. rewrite map_map. cbn [image]. apply map_id. Qed.

Lemma bound_le (n : nat) (k : Z) : (bound n k <= n)%nat.
Proof. unfold bound. destruct (k <? 0)%Z; lia. Qed.

Lemma NoDup_app_disjoint {A : Type} (a b : list A) (x : A) :
  NoDup (a ++ b) -> In x a -> ~ In x b.
Proof.
  induction a as [|y a IH]; simpl; [intros _ []|].
  intros H [->|Hx] Hb; inversion H as [|? ? Hn Hd]; subst.
  - apply Hn. apply in_or_app. now right.
  - now apply (IH Hd Hx).
Qed.

(** X18.  When [save_nifti_to_json] writes a file, its path is
    [save_path/f_name.json], and the images under [training] followed by
    those under [validation] are the [*.nii.gz] entries of [root_path]:
    all of them, each as often as [glob] lists it, in the order of [glob]
    when [shuffle] is off.  When [glob] lists no path twice, no entry is
    in both lists.  This holds for every [train_split], negative ones
    included. *)
Theorem save_nifti_to_json_partition
    (f_name root_path save_path : string) (train_split : PrimFloat.float)
    (shuffle : bool) (path : string) (d : dataset) :
  (forall l, Permutation (random_shuffle l) l) ->
  save f_name root_path save_path train_split shuffle = Returns (path, d) ->
  let files := Finder.glob join listdir root_path "*.nii.gz" in
  path = join save_path (f_name ++ ".json") /\
  Permutation (map image (training d) ++ map image (validation d)) files /\
  (shuffle = false -> map image (training d) ++ map image (validation d) = files) /\
  (NoDup files -> forall e, In e (training d) -> ~ In e (validation d)).
Proof.
  intros Hperm. unfold save_nifti_to_json. cbv zeta.
  set (files := Finder.glob join listdir root_path "*.nii.gz").
  set (l := if shuffle then random_shuffle files else files).
  assert (Hl : Permutation l files) by (unfold l; destruct shuffle; [apply Hperm|reflexivity]).
  destruct (py_int _) as [k|e]; [|discriminate].
  destruct (open_error _) as [e|]; [discriminate|].
  intros E. injection E as <- <-. cbn [training validation].
  rewrite !map_image_Entry, slices_append.
  split; [reflexivity|]. split; [exact Hl|]. split.
  - intros ->. reflexivity.
  - intros Hnd e He Hv.
    assert (Hnd' : NoDup (slice_to l k ++ slice_from l k)).
    { rewrite slices_append. eapply Permutation_NoDup; [symmetry; exact Hl|exact Hnd]. }
    apply in_map_iff in He. destruct He as (x & <- & Hx).
    apply in_map_iff in Hv. destruct Hv as (y & Ey & Hy).
    injection Ey as ->.
    exact (NoDup_app_disjoint _ _ _ Hnd' Hx Hy).
Qed.

(** X19.  For a root path that is not empty and has no wildcard
    character: when [save_nifti_to_json] writes a file, [int] returned a
    number [k] for [len(nifti_files) * train_split] (computed on
    binary64) and [open] raised nothing; the two lists together have as
    many entries as there are files.  For [0 <= k <= n] there are [k] training entries; for
    [k >= n] there is no validation entry; for [k < 0] there are
    [min n (-k)] validation entries. *)
Theorem save_nifti_to_json_sizes
    (f_name root_path save_path : string) (train_split : PrimFloat.float)
    (shuffle : bool) (path : string) (d : dataset) :
  Finder.has_magic root_path = false ->
  root_path <> EmptyString ->
  (forall l, Permutation (random_shuffle l) l) ->
  save f_name root_path save_path train_split shuffle = Returns (path, d) ->
  let n := length (Finder.glob join listdir root_path "*.nii.gz") in
  exists k,
    py_int (PrimFloat.mul (float_of_nat n) train_split) = Returns k /\
    open_error path = None /\
    (length (training d) + length (validation d) = n)%nat /\
    ((0 <= k <= Z.of_nat n)%Z -> length (training d) = Z.to_nat k) /\
    ((Z.of_nat n <= k)%Z -> validation d = []) /\
    ((k < 0)%Z -> length (validation d) = Nat.min n (Z.to_nat (- k))).
Proof.
  intros _ _ Hperm. cbv zeta. unfold save_nifti_to_json. cbv zeta.
  set (files := Finder.glob join listdir root_path "*.nii.gz").
  set (l := if shuffle then random_shuffle files else files).
  assert (Hl : length l = length files).
  { unfold l. destruct shuffle; [apply Permutation_length, Hperm|reflexivity]. }
  rewrite Hl.
  destruct (py_int _) as [k|e]; [|discriminate].
  destruct (open_error _) as [e|] eqn:Eo; [discriminate|].
  intros E. injection E as <- <-. exists k.
  split; [reflexivity|]. split; [exact Eo|]. cbn [training validation].
  rewrite !length_map. unfold slice_to, slice_from.
  rewrite length_firstn, length_skipn, Hl.
  pose proof (bound_le (length files) k) as Hb.
  split; [lia|]. split; [|split].
  - intros Hk. unfold bound. destruct (Z.ltb_spec k 0); lia.
  - intros Hk. apply length_zero_iff_nil. rewrite length_map, length_skipn, Hl.
    unfold bound. destruct (Z.ltb_spec k 0); lia.
  - intros Hk. unfold bound. destruct (Z.ltb_spec k 0); lia.
Qed.

End ManifestFacts.

(** ** The theorems above on concrete inputs *)

Lemma two_voxels_well_shaped : well_shaped two_voxels.
Proof. unfold well_shaped, two_voxels; simpl. repeat constructor. Qed.

Lemma convert_coords_relocates_witness :
  (shape two_voxels = (1, 1, 2)%nat /\ well_shaped two_voxels) /\
  shape (fst (Normalizer.convert_coords two_voxels mirrored_x)) = shape two_voxels /\
  Permutation (flat (fst (Normalizer.convert_coords two_voxels mirrored_x)))
              (flat two_voxels).
Proof.
  split; [split; [reflexivity|exact two_voxels_well_shaped]|].
  destruct (convert_coords_relocates two_voxels mirrored_x 1 1 2 eq_refl
              two_voxels_well_shaped) as (Hs & _ & Hp & _).
  split; assumption.
Defined.


Lemma axial_oriented : oriented [axial; axial].
Proof.
  unfold oriented. change [axial; axial] with (repeat axial 2). rewrite !map_repeat.
  rewrite !mean3_repeat. unfold Reconstructor.norm3, axial.
  cbn [Reconstructor.iop_u Reconstructor.iop_v vx vy vz].
  split.
  - replace (1 * 1 + 0 * 0 + 0 * 0) with 1 by ring. rewrite sqrt_1. lra.
  - replace (0 * 0 + 1 * 1 + 0 * 0) with 1 by ring. rewrite sqrt_1. lra.
Qed.

Lemma create_affine_pixdim_witness :
  oriented [axial; axial] /\
  exists mat log,
    Reconstructor.create_affine [V3 0 0 0; V3 0 0 2] [axial; axial] [(1, 1); (1, 1)] =
      Ok (mat,
          V4 (Reconstructor.sign (Reconstructor.handedness [V3 0 0 0; V3 0 0 2]
                                                           [axial; axial]))
             1 1 (Reconstructor.slice_spacing [V3 0 0 0; V3 0 0 2]),
          log).
Proof.
  split; [exact axial_oriented|].
  destruct (create_affine_pixdim [V3 0 0 0; V3 0 0 2] [axial; axial] (1, 1) [(1, 1)]
              axial_oriented) as (mat & log & E & _).
  exists mat, log. exact E.
Defined.


Lemma create_affine_translation_witness :
  exists m pixdim log,
    ([V3 0 0 0; V3 0 0 2] <> [] /\ oriented [axial; axial]) /\
    Reconstructor.create_affine [V3 0 0 0; V3 0 0 2] [axial; axial] [(1, 1); (1, 1)]
      = Ok (m, pixdim, log) /\
    Reconstructor.create_affine (translate (V3 5 0 0) [V3 0 0 0; V3 0 0 2])
                                [axial; axial] [(1, 1); (1, 1)]
      = Ok (Reconstructor.set_col3 m 3
              (Reconstructor.snap3
                 (vadd3 (snd (Reconstructor.lstsq [V3 0 0 0; V3 0 0 2])) (V3 5 0 0))),
            pixdim, log).
Proof.
  eexists. eexists. eexists.
  split; [split; [discriminate|exact axial_oriented]|].
  split; [apply create_affine_value|].
  apply create_affine_translation;
    [discriminate|exact axial_oriented|apply create_affine_value].
Defined.

Lemma create_affine_reversed_witness :
  exists m pixdim log m' pixdim' log',
    oriented [axial; axial] /\
    Reconstructor.create_affine [V3 0 0 0; V3 0 0 2] [axial; axial] [(1, 1); (1, 1)]
      = Ok (m, pixdim, log) /\
    Reconstructor.create_affine (rev [V3 0 0 0; V3 0 0 2]) (rev [axial; axial])
                                (rev [(1, 1); (1, 1)])
      = Ok (m', pixdim', log') /\
    x0 pixdim' = - x0 pixdim /\ x3 pixdim' = x3 pixdim.
Proof.
  eexists. eexists. eexists. eexists. eexists. eexists.
  split; [exact axial_oriented|].
  split; [apply create_affine_value|]. split; [apply create_affine_value|].
  destruct (create_affine_reversed [V3 0 0 0; V3 0 0 2] [axial; axial] [(1, 1); (1, 1)]
              _ _ _ _ _ _ axial_oriented
              (create_affine_value _ _ _ _) (create_affine_value _ _ _ _))
    as (_ & Hq & Hs & _).
  split; assumption.
Defined.

Lemma create_affine_pixel_columns_witness :
  exists m pixdim log,
    oriented [axial; axial] /\
    Reconstructor.create_affine [V3 0 0 0; V3 0 0 2] [axial; axial] [(1, 1); (1, 1)]
      = Ok (m, pixdim, log) /\
    Rabs (x1 pixdim) * (1 - 1.74e-6)
      <= Reconstructor.norm3 (V3 (entry m 0 0) (entry m 1 0) (entry m 2 0))
      <= Rabs (x1 pixdim) * (1 + 1e-9).
Proof.
  eexists. eexists. eexists. split; [exact axial_oriented|].
  split; [apply create_affine_value|].
  exact (proj1 (create_affine_pixel_columns _ _ _ _ _ _ axial_oriented
                  (create_affine_value [V3 0 0 0; V3 0 0 2] [axial; axial]
                                       (1, 1) [(1, 1)]))).
Defined.

Lemma load_dicom_series_order_independent_witness :
  (Loader.load_dicom_series sample_dcmread sample_InstanceNumber [4; 2; 0]%nat
     = Ok [0; 4; 2]%nat /\
   NoDup (map (Loader.sort_key sample_InstanceNumber) [0; 4; 2]%nat) /\
   Permutation [4; 2; 0]%nat [2; 0; 4]%nat) /\
  Loader.load_dicom_series sample_dcmread sample_InstanceNumber [2; 0; 4]%nat
    = Ok [0; 4; 2]%nat.
Proof.
  assert (Hl : Loader.load_dicom_series sample_dcmread sample_InstanceNumber [4; 2; 0]%nat
               = Ok [0; 4; 2]%nat) by reflexivity.
  assert (Hn : NoDup (map (Loader.sort_key sample_InstanceNumber) [0; 4; 2]%nat)).
  { simpl. repeat constructor; simpl; intuition discriminate. }
  assert (Hp : Permutation [4; 2; 0]%nat [2; 0; 4]%nat).
  { apply perm_trans with [2; 4; 0]%nat; [apply perm_swap|].
    apply perm_skip. apply perm_swap. }
  split; [split; [exact Hl|split; [exact Hn|exact Hp]]|].
  exact (load_dicom_series_order_independent sample_dcmread sample_InstanceNumber
           _ _ _ Hl Hn Hp).
Defined.

Lemma find_dicom_files_first_suffix_witness :
  (Finder.literal "scan" = true /\
   sample_isdir "scan" = true /\
   Finder.suffixes = [] ++ "*.dcm"%string :: ["*.DCM"; "*.dc"; "*.DC"; "*.IMG"]%string /\
   Finder.glob sample_join sample_listdir "scan" "*.dcm" <> []) /\
  Finder.find_dicom_files sample_isdir sample_isfile sample_join sample_listdir "scan"
    = (Finder.glob sample_join sample_listdir "scan" "*.dcm", []).
Proof.
  assert (Hg : Finder.glob sample_join sample_listdir "scan" "*.dcm" <> [])
    by discriminate.
  split; [split; [reflexivity|split; [reflexivity|split; [reflexivity|exact Hg]]]|].
  exact (proj1 (find_dicom_files_first_suffix sample_isdir sample_isfile sample_join
                  sample_listdir "scan" [] _ ".dcm" eq_refl eq_refl eq_refl
                  (Forall_nil _) Hg)).
Defined.

Lemma find_dicom_files_sound_witness :
  (Finder.literal "scan" = true /\
   sample_isdir "scan" = true /\
   In "scan/1.dcm"%string
      (fst (Finder.find_dicom_files sample_isdir sample_isfile sample_join
                                    sample_listdir "scan"))) /\
  snd (Finder.find_dicom_files sample_isdir sample_isfile sample_join sample_listdir "scan")
    = [].
Proof.
  assert (Hi : In "scan/1.dcm"%string
                 (fst (Finder.find_dicom_files sample_isdir sample_isfile sample_join
                                               sample_listdir "scan")))
    by (right; left; reflexivity).
  split; [split; [reflexivity|split; [reflexivity|exact Hi]]|].
  exact (proj1 (find_dicom_files_sound sample_isdir sample_isfile sample_join
                  sample_listdir "scan" _ eq_refl eq_refl Hi)).
Defined.

Lemma find_dicom_files_empty_witness :
  Finder.literal "nowhere" = true /\
  fst (Finder.find_dicom_files sample_isdir sample_isfile sample_join sample_listdir
         "nowhere") = [] /\
  snd (Finder.find_dicom_files sample_isdir sample_isfile sample_join sample_listdir
         "nowhere") = [Finder.cannot_open "nowhere"].
Proof.
  split; [reflexivity|].
  apply (proj2 (proj2 (find_dicom_files_empty sample_isdir sample_isfile sample_join
                         sample_listdir "nowhere" eq_refl))).
  discriminate.
Defined.

Lemma slices_complete :
  Forall (Assembler.complete nat slice_pixel_array slice_rescale slice_rescale
            slice_PixelSpacing slice_position slice_orientation 1 2) [1; 2]%nat.
Proof.
  repeat constructor; try discriminate;
    eexists; (split; [reflexivity|]); (split; [reflexivity|]);
    unfold Assembler.well_formed; simpl; repeat constructor.
Qed.

Lemma dicom_to_volume_calibrated_witness :
  Forall (Assembler.complete nat slice_pixel_array slice_rescale slice_rescale
            slice_PixelSpacing slice_position slice_orientation 1 2) [1; 2]%nat /\
  exists vol pixdim mat log,
    Assembler.dicom_to_volume nat slice_pixel_array slice_rescale slice_rescale
      slice_PixelSpacing slice_position slice_orientation sample_rounding sample_rounding
      [1; 2]%nat
      = Returns (vol, pixdim, mat, log) /\
    shape vol = (2, 1, 2)%nat.
Proof.
  split; [exact slices_complete|].
  destruct (dicom_to_volume_calibrated slice_pixel_array slice_rescale slice_rescale
              slice_PixelSpacing slice_position slice_orientation sample_rounding
              sample_rounding 1%nat [2%nat] 1 2 slices_complete)
    as (vol & pixdim & mat & log & _ & _ & _ & E & Hs & _).
  exists vol, pixdim, mat, log. split; assumption.
Defined.

Lemma dicom_to_volume_first_fault_witness :
  Forall (Assembler.complete nat slice_pixel_array slice_rescale slice_rescale
            slice_PixelSpacing slice_position slice_orientation 1 2) [1; 2]%nat /\
  Assembler.dicom_to_volume nat slice_pixel_array slice_rescale slice_rescale
    slice_PixelSpacing slice_position slice_orientation sample_rounding sample_rounding
    [1; 2; 0]%nat
    = Raises AttributeError.
Proof.
  split; [exact slices_complete|].
  exact (proj1 (dicom_to_volume_first_fault slice_pixel_array slice_rescale slice_rescale
                  slice_PixelSpacing slice_position slice_orientation sample_rounding
                  sample_rounding 1%nat [2%nat] [] 0%nat 1 2 slices_complete) eq_refl).
Defined.


Lemma rev_is_shuffle (l : list string) : Permutation (rev l) l.
Proof. symmetry. apply Permutation_rev. Qed.

Lemma save_nifti_to_json_partition_witness :
  (forall l : list string, Permutation (rev l) l) /\
  exists d,
    Manifest.save_nifti_to_json sample_join sample_listdir (@rev string) sample_open_error
      "fold" "out" "json" one_half true = Returns ("json/fold.json"%string, d) /\
    Permutation (map Manifest.image (Manifest.training d) ++
                 map Manifest.image (Manifest.validation d))
                (Finder.glob sample_join sample_listdir "out" "*.nii.gz").
Proof.
  split; [exact rev_is_shuffle|].
  eexists. split; [vm_compute; reflexivity|].
  refine (proj1 (proj2 (save_nifti_to_json_partition sample_join sample_listdir (@rev string)
                  sample_open_error "fold" "out" "json" one_half true _ _
                  rev_is_shuffle _))).
  vm_compute. reflexivity.
Defined.

Lemma save_nifti_to_json_sizes_witness :
  (Finder.has_magic "out" = false /\ "out"%string <> EmptyString) /\
  (forall l : list string, Permutation (rev l) l) /\
  exists path d,
    Manifest.save_nifti_to_json sample_join sample_listdir (@rev string) sample_open_error
      "fold" "out" "json" one_half true = Returns (path, d) /\
    length (Manifest.training d) = 1%nat.
Proof.
  split; [split; [reflexivity|discriminate]|]. split; [exact rev_is_shuffle|].
  eexists. eexists. split; [vm_compute; reflexivity|].
  destruct (save_nifti_to_json_sizes sample_join sample_listdir (@rev string)
              sample_open_error "fold" "out" "json" one_half true _ _
              eq_refl ltac:(discriminate) rev_is_shuffle ltac:(vm_compute; reflexivity))
    as (k & Ek & _ & _ & Hk & _).
  assert (E : k = 1%Z).
  { vm_compute in Ek. injection Ek as <-. reflexivity. }
  subst k. apply Hk. vm_compute. split; discriminate.
Defined.
